(** * d0: semantic-layer SQL composition and guarded execution

    A shallow embedding of the TypeScript sources of the query assistant:
    the macro expander ([lib/sql/macros.ts]), the join planner
    ([lib/sql/joins.ts]), the SQL renderer ([lib/sql/render.ts]), the
    validator's syntax scan ([lib/sql/validate.ts]), the execution guard
    ([lib/snowflake.ts]), the repair helpers ([lib/execute/repair.ts]), the
    result cache ([lib/tools/execute.ts]) and the semantic store
    ([lib/semantic/io.ts]).

    Conventions.
    - A JavaScript string is a [string]: one [ascii] per UTF-16 code unit,
      for code units below 256.
    - A [Map] that is only read by key is a [gmap]; a [Map] or array whose
      iteration order is observable is a list in that order.
    - A function that can [throw] returns a [result]; [Throw] carries the
      error, [OutOfFuel] says that the recursion budget given to the model
      was used up before the function returned. *)

From Stdlib Require Import ZArith Lia List Ascii String DecimalString DecimalNat Bool
  Permutation.
From stdpp Require Import base option gmap strings list.
Import ListNotations.
Open Scope string_scope.
Open Scope list_scope.

(** ** Results of fallible code *)

Inductive error : Type :=
  (* macros.ts *)
  | ECyclicExpansion (expr : string)        (* Cyclic macro expansion detected at EXPR. *)
  | EUnknownCurrentEntity (entity : string) (* Unknown current entity E in macro expansion. *)
  | EFieldNotFound (field entity : string)  (* Field F not found in entity E. *)
  | EMissingAlias (entity : string)         (* Missing alias for (current) entity E. *)
  | EEntityNotLoaded (entity : string)      (* Referenced entity E is not loaded ... *)
  | EEntityNoAlias (entity : string)        (* Entity E has no alias; ensure it is in the join path. *)
  (* joins.ts *)
  | ENoJoinPath (base target : string)      (* No join path from B to T. *)
  (* render.ts *)
  | ENoBaseEntity                           (* No base entity selected. *)
  | EOperatorArity (op : string)            (* Operator OP expects a single value. *)
  | EUnsupportedOperator (op : string)      (* Unsupported operator: OP *)
  | EOnlyAtomic (metric : string)           (* Only atomic metrics with a single measure source ... *)
  | EMeasureNotFound (measure entity : string)
  | ERequiresSql (measure : string)         (* count_distinct / SUM ... requires 'sql' on measure M. *)
  | EUnsupportedMeasureType (measure : string)
  | EMetricNotFound (metric : string)       (* Metric or measure M not found in selected entities. *)
  | ENoTimeDimension (base : string)        (* No time dimension found in base entity B ... *)
  | ETypeError                              (* property read on [undefined] *)
  (* snowflake.ts *)
  | EMultiStatement                         (* Multi-statement SQL is not allowed. *)
  | EDisallowedToken (verb : string)        (* Disallowed token matched: /\bVERB\b/i *)
  | EBreakerOpen                            (* Circuit breaker open. Temporarily refusing execution. *)
  | EAcquireFailed                          (* Failed to acquire connection from pool *)
  | EDriver (msg : string)                  (* an error raised by the warehouse driver *)
  (* io.ts *)
  | EMissingFile (name : string)
  | EYamlParse (name : string)
  | ESchema (name : string)
  | EJoinInvalid (entity field : string)    (* Entity E join invalid: local dimension F not found. *)
  | EMetricNoSource (metric entity : string)
  | EMetricUnknownMeasure (metric measure : string)
  | EMetricAnchor (metric anchor : string)
  | EMetricEmptyFilterField (metric : string).

Inductive result (A : Type) : Type :=
  | Ok (a : A)
  | Throw (e : error)
  | OutOfFuel.
Arguments Ok {A} a.
Arguments Throw {A} e.
Arguments OutOfFuel {A}.

Definition rbind {A B} (r : result A) (k : A -> result B) : result B :=
  match r with
  | Ok a => k a
  | Throw e => Throw e
  | OutOfFuel => OutOfFuel
  end.

Notation "x <- c1 ;; c2" := (rbind c1 (fun x => c2))
  (at level 100, c1 at next level, right associativity).

(** [arr.map(f)] for a callback that may throw: left to right, the first
    exception wins. *)
Fixpoint mapM {A B} (f : A -> result B) (l : list A) : result (list B) :=
  match l with
  | [] => Ok []
  | x :: l' => y <- f x ;; ys <- mapM f l' ;; Ok (y :: ys)
  end.

(** ** JavaScript string primitives *)

Module JS.

Definition dquote : string := String (ascii_of_nat 34) EmptyString.
Definition nl : string := String (ascii_of_nat 10) EmptyString.

Definition code (c : ascii) : N := N_of_ascii c.

Definition between (lo hi : N) (c : ascii) : bool :=
  (lo <=? code c)%N && (code c <=? hi)%N.

(** The class [[A-Za-z0-9_]], also the word characters of [\b]. *)
Definition isWordChar (c : ascii) : bool :=
  between 65 90 c || between 97 122 c || between 48 57 c || (code c =? 95)%N.

Definition isDigit (c : ascii) : bool := between 48 57 c.

(** White space and line terminators below code unit 256 ([\s], [trim]). *)
Definition isSpace (c : ascii) : bool :=
  between 9 13 c || (code c =? 32)%N || (code c =? 160)%N.

(** [String.prototype.toLowerCase] on one code unit below 256. *)
Definition lowerChar (c : ascii) : ascii :=
  if between 65 90 c || (between 192 222 c && negb (code c =? 215)%N)
  then ascii_of_N (code c + 32) else c.

Fixpoint toLowerCase (s : string) : string :=
  match s with
  | EmptyString => EmptyString
  | String c s' => String (lowerChar c) (toLowerCase s')
  end.

(** Canonicalisation of the [i] flag (no [u] flag): a code unit and a
    pattern letter match when their upper-case forms agree; no code unit
    from 128 on is mapped onto an ASCII letter. *)
Definition upperAscii (c : ascii) : ascii :=
  if between 97 122 c then ascii_of_N (code c - 32) else c.

Definition eqChar_i (a b : ascii) : bool := Ascii.eqb (upperAscii a) (upperAscii b).

Fixpoint prefix_i (p s : string) : bool :=
  match p, s with
  | EmptyString, _ => true
  | String a p', String b s' => eqChar_i a b && prefix_i p' s'
  | String _ _, EmptyString => false
  end.

Definition startsWith (s p : string) : bool := String.prefix p s.

Fixpoint includes (s needle : string) : bool :=
  String.prefix needle s ||
  match s with
  | EmptyString => false
  | String _ s' => includes s' needle
  end.

Fixpoint endsWith (s suffix : string) : bool :=
  String.eqb s suffix ||
  match s with
  | EmptyString => false
  | String _ s' => endsWith s' suffix
  end.

Fixpoint drop (n : nat) (s : string) : string :=
  match n, s with
  | O, _ => s
  | S n', String _ s' => drop n' s'
  | S _, EmptyString => EmptyString
  end.

(** Number of matches of a literal, non-empty pattern under the [g] flag:
    left to right, the scan resumes after each match. *)
Fixpoint countFrom (pat s : string) (skip : nat) : nat :=
  match s with
  | EmptyString => 0
  | String _ s' =>
      match skip with
      | S k => countFrom pat s' k
      | O => if String.prefix pat s
             then S (countFrom pat s' (String.length pat - 1))
             else countFrom pat s' 0
      end
  end.

Definition countMatches (pat s : string) : nat := countFrom pat s 0.

Fixpoint trimStart (s : string) : string :=
  match s with
  | String c s' => if isSpace c then trimStart s' else s
  | EmptyString => EmptyString
  end.

Fixpoint trimEnd (s : string) : string :=
  match s with
  | EmptyString => EmptyString
  | String c s' =>
      match trimEnd s' with
      | EmptyString => if isSpace c then EmptyString else String c EmptyString
      | t => String c t
      end
  end.

Definition trim (s : string) : string := trimEnd (trimStart s).

(** [arr.join(sep)] *)
Definition join (sep : string) (l : list string) : string := String.concat sep l.

(** The longest run of word characters at the head of [s], and the rest. *)
Fixpoint takeWord (s : string) : string * string :=
  match s with
  | String c s' =>
      if isWordChar c
      then let '(w, r) := takeWord s' in (String c w, r)
      else (EmptyString, s)
  | EmptyString => (EmptyString, EmptyString)
  end.

Definition nonEmpty (s : string) : bool :=
  match s with EmptyString => false | _ => true end.

(** [String(n)] for a natural number. *)
Definition ofNat (n : nat) : string := NilEmpty.string_of_uint (Nat.to_uint n).

(** [String(v)] for an integral number of fewer than 22 digits; from
    [1e21] on JavaScript prints an exponent. *)
Definition ofZ (z : Z) : string := NilZero.string_of_int (Z.to_int z).

(** [s.replace(/c/g, r)] for a single-character pattern. *)
Fixpoint replaceChar (c : ascii) (r : string) (s : string) : string :=
  match s with
  | EmptyString => EmptyString
  | String a s' => if Ascii.eqb a c then r +:+ replaceChar c r s' else String a (replaceChar c r s')
  end.

(** [str.replace(re, callback)] under the [g] flag.  [matchAt s] tells
    whether [re] matches at the head of [s], with the captured groups and
    the length (at least 1) of the match.  The callback may throw. *)
Fixpoint replaceAll {M} (matchAt : string -> option (M * nat))
    (f : M -> result string) (s : string) (skip : nat) : result string :=
  match s with
  | EmptyString => Ok EmptyString
  | String c s' =>
      match skip with
      | S k => replaceAll matchAt f s' k
      | O =>
          match matchAt s with
          | Some (m, len) =>
              r <- f m ;;
              rest <- replaceAll matchAt f s' (len - 1) ;;
              Ok (r +:+ rest)
          | None =>
              rest <- replaceAll matchAt f s' 0 ;;
              Ok (String c rest)
          end
      end
  end.

End JS.

(** ** The semantic model ([lib/semantic/types.ts])

    Descriptive fields that no modelled function reads ([title],
    [description], [fill_rate], ...) are left out of the records. *)

Inductive ScalarType := TString | TNumber | TBoolean | TTime.

Record DimensionRaw := {
  dim_name : string;
  dim_sql : string;
  dim_type : ScalarType;
  dim_aliases : option (list string)
}.

Record TimeDimensionRaw := {
  td_name : string;
  td_sql : string
}.

(** The schema of [schemas.ts] also admits ["number"]. *)
Inductive MeasureType := MCount | MCountDistinct | MSum | MAvg | MMin | MMax | MNumber.

Record MeasureRaw := {
  ms_name : string;
  ms_type : MeasureType;
  ms_sql : option string;
  ms_aliases : option (list string)
}.

(** A filter value: [z.union([z.string(), z.number(), z.boolean()])];
    numbers are taken integral. *)
Inductive value := VStr (s : string) | VNum (n : Z) | VBool (b : bool).

(** [MetricFilterRaw], and the structured filter of a plan: the renderer
    receives the operator as a plain string. *)
Record Filter := {
  f_field : string;
  f_operator : string;
  f_values : list value
}.

Record MetricSource := {
  src_measure : string;
  src_anchor_date : string;
  src_filters : option (list Filter)
}.

Inductive MetricType := Atomic | Derived.

Record MetricRaw := {
  mt_name : string;
  mt_type : MetricType;
  mt_source : option MetricSource;
  mt_aliases : option (list string)
}.

Inductive Relationship := OneToOne | OneToMany | ManyToOne | ManyToMany.

Record JoinRaw := {
  target_entity : string;
  relationship : Relationship;
  jc_from : string;   (* join_columns.from *)
  jc_to : string      (* join_columns.to *)
}.

Record EntityYamlRaw := {
  raw_name : string;
  raw_table : string;
  raw_grain : string;
  raw_aliases : option (list (string * list string)); (* Object.entries order *)
  raw_dimensions : option (list DimensionRaw);
  raw_time_dimensions : option (list TimeDimensionRaw);
  raw_measures : option (list MeasureRaw);
  raw_metrics : option (list MetricRaw);
  raw_joins : option (list JoinRaw)
}.

Record EntityJson := {
  name : string;
  table : string;
  grain : string;
  dimensions : list DimensionRaw;
  time_dimensions : list TimeDimensionRaw;
  measures : list MeasureRaw;
  metrics : list MetricRaw;
  joins : list JoinRaw;
  _dimIndex : gmap string DimensionRaw;
  _measureIndex : gmap string MeasureRaw;
  _metricIndex : gmap string MetricRaw;
  _aliasIndex : gmap string (list string);
  _reverseAliasIndex : gmap string string
}.

(** The registry handed to the planner and the renderer: a [Map] from
    entity name to entity, in insertion order. *)
Definition Registry := list (string * EntityJson).

Fixpoint registry_get (reg : Registry) (k : string) : option EntityJson :=
  match reg with
  | [] => None
  | (k', e) :: reg' => if String.eqb k' k then Some e else registry_get reg' k
  end.

(** ** Macro expansion ([lib/sql/macros.ts]) *)

Module Macros.

Record MacroContext := {
  currentEntity : string;
  aliasByEntity : gmap string string;
  registry : Registry
}.

Definition withCurrentEntity (ctx : MacroContext) (e : string) : MacroContext :=
  {| currentEntity := e; aliasByEntity := aliasByEntity ctx; registry := registry ctx |}.

(** [/^\{CUBE\}\.([A-Za-z0-9_]+)/] at the head of [s]: the field and the
    length of the match. *)
Definition cubeAt (s : string) : option (string * nat) :=
  if String.prefix "{CUBE}." s then
    let '(w, _) := JS.takeWord (JS.drop 7 s) in
    if JS.nonEmpty w then Some (w, 7 + String.length w) else None
  else None.

(** [/^\{([A-Za-z0-9_]+)\}/] at the head of [s]. *)
Definition fieldAt (s : string) : option (string * nat) :=
  match s with
  | String "{" s1 =>
      let '(w, r) := JS.takeWord s1 in
      if JS.nonEmpty w && String.prefix "}" r then Some (w, 2 + String.length w) else None
  | _ => None
  end.

(** [/^\{([A-Za-z0-9_]+)\.([A-Za-z0-9_]+)\}/] at the head of [s]. *)
Definition entityFieldAt (s : string) : option ((string * string) * nat) :=
  match s with
  | String "{" s1 =>
      let '(e, r) := JS.takeWord s1 in
      match r with
      | String "." r1 =>
          let '(f, r2) := JS.takeWord r1 in
          if JS.nonEmpty e && JS.nonEmpty f && String.prefix "}" r2
          then Some ((e, f), 3 + String.length e + String.length f)
          else None
      | _ => None
      end
  | _ => None
  end.

(** The anchored forms: the match must cover the whole expression. *)
Definition whole {M} (at_ : string -> option (M * nat)) (s : string) : option M :=
  match at_ s with
  | Some (m, len) => if Nat.eqb len (String.length s) then Some m else None
  | None => None
  end.

Definition CUBE_RE : string -> option string := whole cubeAt.
Definition SAME_ENTITY_FIELD_RE : string -> option string := whole fieldAt.
Definition OTHER_ENTITY_FIELD_RE : string -> option (string * string) := whole entityFieldAt.

Definition find_time (tds : list TimeDimensionRaw) (n : string) : option TimeDimensionRaw :=
  List.find (fun td => String.eqb (td_name td) n) tds.

Definition timeAsDimension (td : TimeDimensionRaw) : DimensionRaw :=
  {| dim_name := td_name td; dim_sql := td_sql td; dim_type := TTime; dim_aliases := None |}.

Definition resolveCanonicalField (entity : EntityJson) (nameOrAlias : string)
  : option DimensionRaw :=
  match _dimIndex entity !! nameOrAlias with
  | Some d => Some d
  | None =>
      match find_time (time_dimensions entity) nameOrAlias with
      | Some timeDim => Some (timeAsDimension timeDim)
      | None =>
          match _reverseAliasIndex entity !! nameOrAlias with
          | Some canonical =>
              if JS.nonEmpty canonical then
                match _dimIndex entity !! canonical with
                | Some d => Some d
                | None => option_map timeAsDimension
                            (find_time (time_dimensions entity) canonical)
                end
              else None
          | None => None
          end
      end
  end.

(** [aliasByEntity.get(e)] followed by the test [if (!alias) throw]. *)
Definition getAlias (ctx : MacroContext) (e : string) (err : error) : result string :=
  match aliasByEntity ctx !! e with
  | Some a => if JS.nonEmpty a then Ok a else Throw err
  | None => Throw err
  end.

Section Expand.
(** The recursive call, with one unit of fuel less. *)
Variable rec : string -> MacroContext -> list string -> result string.

(** A token [{CUBE}.field] or [{field}] of the current entity. *)
Definition expandOwn (ctx : MacroContext) (stack : list string) (field : string)
  : result string :=
  match registry_get (registry ctx) (currentEntity ctx) with
  | None => Throw (EUnknownCurrentEntity (currentEntity ctx))
  | Some ent =>
      match resolveCanonicalField ent field with
      | None => Throw (EFieldNotFound field (name ent))
      | Some dim =>
          match CUBE_RE (dim_sql dim) with
          | Some col =>
              alias <- getAlias ctx (currentEntity ctx) (EMissingAlias (currentEntity ctx)) ;;
              Ok (alias +:+ "." +:+ col)
          | None => rec (dim_sql dim) ctx (stack ++ [name ent +:+ "." +:+ field])
          end
      end
  end.

(** A token [{entity.field}]. *)
Definition expandOther (noAlias : string -> error) (ctx : MacroContext)
    (stack : list string) (ef : string * string) : result string :=
  let '(entityName, field) := ef in
  match registry_get (registry ctx) entityName with
  | None => Throw (EEntityNotLoaded entityName)
  | Some ent =>
      match resolveCanonicalField ent field with
      | None => Throw (EFieldNotFound field entityName)
      | Some dim =>
          alias <- getAlias ctx entityName (noAlias entityName) ;;
          match CUBE_RE (dim_sql dim) with
          | Some col => Ok (alias +:+ "." +:+ col)
          | None => rec (dim_sql dim) (withCurrentEntity ctx entityName)
                      (stack ++ [entityName +:+ "." +:+ field])
          end
      end
  end.

(** The callback of the last pass, [{field}] inside a larger expression:
    a field that is no dimension may still be the literal [{CUBE}]. *)
Definition expandInner (ctx : MacroContext) (stack : list string) (field : string)
  : result string :=
  if JS.includes ("{" +:+ field +:+ "}") "." then Ok ("{" +:+ field +:+ "}") else
  match registry_get (registry ctx) (currentEntity ctx) with
  | None => Throw (EUnknownCurrentEntity (currentEntity ctx))
  | Some ent =>
      match resolveCanonicalField ent field with
      | None =>
          if String.eqb field "CUBE"
          then getAlias ctx (currentEntity ctx) (EMissingAlias (currentEntity ctx))
          else Throw (EFieldNotFound field (name ent))
      | Some dim =>
          match CUBE_RE (dim_sql dim) with
          | Some col =>
              alias <- getAlias ctx (currentEntity ctx) (EMissingAlias (currentEntity ctx)) ;;
              Ok (alias +:+ "." +:+ col)
          | None => rec (dim_sql dim) ctx (stack ++ [name ent +:+ "." +:+ field])
          end
      end
  end.

Definition expandBody (expr : string) (ctx : MacroContext) (stack : list string)
  : result string :=
  if existsb (String.eqb expr) stack then Throw (ECyclicExpansion expr) else
  match CUBE_RE expr with
  | Some field => expandOwn ctx stack field
  | None =>
  match SAME_ENTITY_FIELD_RE expr with
  | Some field => expandOwn ctx stack field
  | None =>
  match OTHER_ENTITY_FIELD_RE expr with
  | Some ef => expandOther EEntityNoAlias ctx stack ef
  | None =>
      r1 <- JS.replaceAll cubeAt (expandOwn ctx stack) expr 0 ;;
      r2 <- JS.replaceAll entityFieldAt (expandOther EMissingAlias ctx stack) r1 0 ;;
      JS.replaceAll fieldAt (expandInner ctx stack) r2 0
  end end end.
End Expand.

(** [expandSqlExpression(expr, ctx, stack)]; [fuel] bounds the depth of the
    recursion. *)
Fixpoint expandSqlExpression (fuel : nat) (expr : string) (ctx : MacroContext)
    (stack : list string) : result string :=
  match fuel with
  | O => OutOfFuel
  | S fuel' => expandBody (expandSqlExpression fuel') expr ctx stack
  end.

Definition qualifySimpleColumn (expr entityName : string) (ctx : MacroContext)
  : result string :=
  match CUBE_RE expr with
  | Some col =>
      alias <- getAlias ctx entityName (EMissingAlias entityName) ;;
      Ok (alias +:+ "." +:+ JS.dquote +:+ col +:+ JS.dquote)
  | None =>
      match OTHER_ENTITY_FIELD_RE expr with
      | Some (e, col) =>
          alias <- getAlias ctx e (EMissingAlias e) ;;
          Ok (alias +:+ "." +:+ JS.dquote +:+ col +:+ JS.dquote)
      | None => Ok expr
      end
  end.

End Macros.

(** ** The semantic store ([lib/semantic/io.ts]) *)

Module Store.

Definition ensureArray {A} (v : option (list A)) : list A :=
  match v with Some l => l | None => [] end.

(** [indexByName]: a later element replaces an earlier one of the same name. *)
Definition indexByName {T} (nm : T -> string) (arr : list T) : gmap string T :=
  fold_left (fun m x => <[nm x := x]> m) arr ∅.

Definition AliasIndexes : Type := gmap string (list string) * gmap string string.

Definition setReverse (canonical : string) (rev : gmap string string) (arr : list string)
  : gmap string string :=
  fold_left (fun r a => <[a := canonical]> r) arr rev.

Definition addAliases (ix : AliasIndexes) (canonical : string) (aliases : option (list string))
  : AliasIndexes :=
  match aliases with
  | None | Some [] => ix
  | Some al =>
      let prev := default [] (ix.1 !! canonical) in
      (<[canonical := prev ++ al]> ix.1, setReverse canonical ix.2 al)
  end.

Definition buildAliasIndexes (entity : EntityYamlRaw) : AliasIndexes :=
  let ix0 :=
    fold_left (fun (ix : AliasIndexes) '(canonical, arr) =>
                 (<[canonical := arr]> ix.1, setReverse canonical ix.2 arr))
              (ensureArray (raw_aliases entity)) (∅, ∅) in
  let ix1 := fold_left (fun ix d => addAliases ix (dim_name d) (dim_aliases d))
                       (ensureArray (raw_dimensions entity)) ix0 in
  let ix2 := fold_left (fun ix m => addAliases ix (ms_name m) (ms_aliases m))
                       (ensureArray (raw_measures entity)) ix1 in
  fold_left (fun ix m => addAliases ix (mt_name m) (mt_aliases m))
            (ensureArray (raw_metrics entity)) ix2.

(** A [void] function that may throw. *)
Fixpoint forEachM {A} (f : A -> result unit) (l : list A) : result unit :=
  match l with
  | [] => Ok tt
  | x :: l' => _ <- f x ;; forEachM f l'
  end.

Definition has {V} (m : gmap string V) (k : string) : bool :=
  match m !! k with Some _ => true | None => false end.

Definition validateJoins (entity : EntityYamlRaw) (dimIndex : gmap string DimensionRaw)
  : result unit :=
  forEachM (fun j =>
              if has dimIndex (jc_from j) then Ok tt
              else Throw (EJoinInvalid (raw_name entity) (jc_from j)))
           (ensureArray (raw_joins entity)).

Definition validateMetricSources (entity : EntityYamlRaw)
    (measureIndex : gmap string MeasureRaw) (timeDimNames : list string) : result unit :=
  forEachM (fun met =>
    match mt_type met with
    | Derived => Ok tt
    | Atomic =>
        match mt_source met with
        | None => Throw (EMetricNoSource (mt_name met) (raw_name entity))
        | Some src =>
            if negb (has measureIndex (src_measure src))
            then Throw (EMetricUnknownMeasure (mt_name met) (src_measure src))
            else if negb (existsb (String.eqb (src_anchor_date src)) timeDimNames)
            then Throw (EMetricAnchor (mt_name met) (src_anchor_date src))
            else forEachM (fun f =>
                             if JS.nonEmpty (f_field f) then Ok tt
                             else Throw (EMetricEmptyFilterField (mt_name met)))
                          (ensureArray (src_filters src))
        end
    end) (ensureArray (raw_metrics entity)).

(** The entity [loadEntityYaml] assembles from a schema-checked
    descriptor: the resolved arrays and the indexes. *)
Definition assemble (entityRaw : EntityYamlRaw) : EntityJson :=
  let dimensions := ensureArray (raw_dimensions entityRaw) in
  let measures := ensureArray (raw_measures entityRaw) in
  let metrics := ensureArray (raw_metrics entityRaw) in
  let joins := ensureArray (raw_joins entityRaw) in
  let timeDimensions := ensureArray (raw_time_dimensions entityRaw) in
  let ix := buildAliasIndexes entityRaw in
  {| name := raw_name entityRaw;
     table := raw_table entityRaw;
     grain := raw_grain entityRaw;
     dimensions := dimensions;
     time_dimensions := timeDimensions;
     measures := measures;
     metrics := metrics;
     joins := joins;
     _dimIndex := indexByName dim_name dimensions;
     _measureIndex := indexByName ms_name measures;
     _metricIndex := indexByName mt_name metrics;
     _aliasIndex := ix.1;
     _reverseAliasIndex := ix.2 |}.

(** The part of [loadEntityYaml] that follows the schema check: the
    structural validations run on the indexes, then the entity is
    returned. *)
Definition normalize (entityRaw : EntityYamlRaw) : result EntityJson :=
  let entity := assemble entityRaw in
  _ <- validateJoins entityRaw (_dimIndex entity) ;;
  _ <- validateMetricSources entityRaw (_measureIndex entity)
         (map td_name (time_dimensions entity)) ;;
  Ok entity.

(** The entity cache: entity name to the descriptor text and the entity. *)
Abbreviation EntityCache := (gmap string (string * EntityJson)).

Section Loader.
(** The collaborators: the file tree, the YAML parser and the schema. *)
Variable Doc : Type.
Variable readFile : string -> option string.       (* [None]: the read fails *)
Variable yamlLoad : string -> option Doc.          (* [None]: parse error *)
Variable safeParse : Doc -> option EntityYamlRaw.  (* [None]: schema violation *)

(** [loadEntityYaml(name)]: the result and the cache it leaves behind. *)
Definition loadEntityYaml (entityCache : EntityCache) (nm : string)
  : result (string * string * EntityJson) * EntityCache :=
  match entityCache !! nm with
  | Some cached => (Ok (nm, cached.1, cached.2), entityCache)
  | None =>
      match readFile nm with
      | None => (Throw (EMissingFile nm), entityCache)
      | Some raw =>
          match yamlLoad raw with
          | None => (Throw (EYamlParse nm), entityCache)
          | Some doc =>
              match safeParse doc with
              | None => (Throw (ESchema nm), entityCache)
              | Some entityRaw =>
                  match normalize entityRaw with
                  | Ok entity =>
                      (Ok (nm, raw, entity), <[nm := (raw, entity)]> entityCache)
                  | Throw e => (Throw e, entityCache)
                  | OutOfFuel => (OutOfFuel, entityCache)
                  end
              end
          end
      end
  end.

(** [clearEntityCache(name?)]: an empty name clears everything. *)
Definition clearEntityCache (entityCache : EntityCache) (nm : option string) : EntityCache :=
  match nm with
  | Some n => if JS.nonEmpty n then delete n entityCache else ∅
  | None => ∅
  end.
End Loader.

End Store.

(** ** Join planning ([lib/sql/joins.ts], [lib/sql/join-types.ts]) *)

Module Joins.

Record GraphEdge := {
  a : string;
  b : string;
  fromField : string;
  toField : string;
  ge_relationship : Relationship
}.

Record JoinEdge := {
  from : string;
  to : string;
  je_fromField : string;
  je_toField : string;
  je_relationship : Relationship
}.

Record JoinPathResult := {
  edges : list JoinEdge;
  aliasByEntity : gmap string string;
  orderedEntities : list string
}.

(** The graph is only read by key. *)
Abbreviation Graph := (gmap string (list GraphEdge)).

Definition ensureNode (g : Graph) (n : string) : Graph :=
  match g !! n with Some _ => g | None => <[n := []]> g end.

Definition push (g : Graph) (n : string) (e : GraphEdge) : Graph :=
  <[n := default [] (g !! n) ++ [e]]> g.

Definition addJoin (nm : string) (g : Graph) (j : JoinRaw) : Graph :=
  let edge := {| a := nm; b := target_entity j; fromField := jc_from j;
                 toField := jc_to j; ge_relationship := relationship j |} in
  let g1 := ensureNode g (target_entity j) in
  let g2 := push g1 nm edge in
  push g2 (target_entity j)
       {| a := target_entity j; b := nm; fromField := jc_to j;
          toField := jc_from j; ge_relationship := relationship j |}.

Definition buildGraph (entities : Registry) : Graph :=
  fold_left (fun g '(nm, entity) => fold_left (addJoin nm) (joins entity) (ensureNode g nm))
            entities ∅.

(** [prev]: the node a vertex was reached from, and through which edge. *)
Abbreviation Prev := (gmap string (string * option GraphEdge)).

(** The loop [while (cur !== start)] that rebuilds the path. *)
Fixpoint reconstruct (fuel : nat) (prev : Prev) (start cur : string) (path : list GraphEdge)
  : result (list GraphEdge) :=
  if String.eqb cur start then Ok (rev path) else
  match fuel with
  | O => OutOfFuel
  | S fuel' =>
      match prev !! cur with
      | Some (node, Some edge) => reconstruct fuel' prev start node (path ++ [edge])
      | _ => Throw ETypeError
      end
  end.

(** The [for] loop over the edges that leave [u]: either the goal is
    reached (left, with the final [prev]) or the scan ends (right). *)
Fixpoint scanEdges (goal u : string) (es : list GraphEdge) (q : list string) (prev : Prev)
  : Prev + (list string * Prev) :=
  match es with
  | [] => inr (q, prev)
  | e :: es' =>
      let v := b e in
      match prev !! v with
      | Some _ => scanEdges goal u es' q prev
      | None =>
          let prev' := <[v := (u, Some e)]> prev in
          if String.eqb v goal then inl prev'
          else scanEdges goal u es' (q ++ [v]) prev'
      end
  end.

Fixpoint bfs (fuel : nat) (g : Graph) (start goal : string) (q : list string) (prev : Prev)
  : result (option (list GraphEdge)) :=
  match fuel with
  | O => OutOfFuel
  | S fuel' =>
      match q with
      | [] => Ok None
      | u :: q' =>
          match scanEdges goal u (default [] (g !! u)) q' prev with
          | inl prev' =>
              path <- reconstruct fuel prev' start goal [] ;;
              Ok (Some path)
          | inr (q'', prev'') => bfs fuel' g start goal q'' prev''
          end
      end
  end.

Definition shortestPath (fuel : nat) (g : Graph) (start goal : string)
  : result (option (list GraphEdge)) :=
  if String.eqb start goal then Ok (Some [])
  else bfs fuel g start goal [start] {[ start := (start, None) ]}.

Definition edgeKey (e : GraphEdge) : string :=
  a e +:+ "->" +:+ b e +:+ ":" +:+ fromField e +:+ "=" +:+ toField e.

Definition addUnseen (acc : list GraphEdge * list string) (e : GraphEdge)
  : list GraphEdge * list string :=
  let key := edgeKey e in
  if existsb (String.eqb key) acc.2 then acc
  else (acc.1 ++ [e], acc.2 ++ [key]).

Fixpoint collect (fuel : nat) (g : Graph) (baseEntity : string) (targets : list string)
    (acc : list GraphEdge * list string) : result (list GraphEdge) :=
  match targets with
  | [] => Ok acc.1
  | target :: rest =>
      if String.eqb target baseEntity then collect fuel g baseEntity rest acc
      else
        p <- shortestPath fuel g baseEntity target ;;
        match p with
        | None => Throw (ENoJoinPath baseEntity target)
        | Some path => collect fuel g baseEntity rest (fold_left addUnseen path acc)
        end
  end.

(** [Set.add]: insertion order, no duplicates. *)
Definition setAdd (s : list string) (x : string) : list string :=
  if existsb (String.eqb x) s then s else s ++ [x].

(** [Array.prototype.sort()] without comparator: by code units. *)
Fixpoint insertSorted (x : string) (l : list string) : list string :=
  match l with
  | [] => [x]
  | y :: l' => if String.ltb x y then x :: l else y :: insertSorted x l'
  end.

Definition sort (l : list string) : list string := fold_right insertSorted [] l.

Fixpoint aliasFrom (i : nat) (l : list string) (m : gmap string string) : gmap string string :=
  match l with
  | [] => m
  | n :: l' => aliasFrom (S i) l' (<[n := "t" +:+ JS.ofNat i]> m)
  end.

Definition toJoinEdge (e : GraphEdge) : JoinEdge :=
  {| from := a e; to := b e; je_fromField := fromField e; je_toField := toField e;
     je_relationship := ge_relationship e |}.

Definition computeJoinPath (fuel : nat) (baseEntity : string) (requiredEntities : list string)
    (registry : Registry) : result JoinPathResult :=
  let g := buildGraph registry in
  es <- collect fuel g baseEntity requiredEntities ([], []) ;;
  let entitySet := fold_left (fun s e => setAdd (setAdd s (a e)) (b e)) es [baseEntity] in
  let others := sort (List.filter (fun n => negb (String.eqb n baseEntity)) entitySet) in
  let ordered := baseEntity :: others in
  Ok {| edges := map toJoinEdge es;
        aliasByEntity := aliasFrom 0 ordered ∅;
        orderedEntities := ordered |}.

End Joins.

(** ** Plans ([lib/planning/types.ts]) *)

Record TimeRange := {
  tr_start : option string;
  tr_end : option string;
  tr_grain : option string
}.

Record Intent := {
  i_metrics : list string;
  i_dimensions : list string;
  i_filters : list string;
  i_structuredFilters : list Filter;
  i_timeRange : option TimeRange
}.

Record FinalizedPlan := {
  intent : Intent;
  selectedEntities : list string
}.

(** ** SQL rendering ([lib/sql/render.ts]) *)

Module Render.
Import Macros.

(** A template literal prints a missing value as [undefined]. *)
Definition tmpl (o : option string) : string := default "undefined" o.

Definition chooseBaseEntity (plan : FinalizedPlan) (registry : Registry)
  : result (option string) :=
  let metricNames := map JS.toLowerCase (i_metrics (intent plan)) in
  (fix go (es : list string) : result (option string) :=
     match es with
     | [] => Ok (hd_error (selectedEntities plan))
     | e :: es' =>
         match registry_get registry e with
         | None => Throw ETypeError
         | Some ent =>
             if existsb (fun _ => negb (Nat.eqb (List.length metricNames) 0)) (measures ent)
             then Ok (Some e) else go es'
         end
     end) (selectedEntities plan).

Definition findMetric (ent : EntityJson) (nameOrAlias : string) : option MetricRaw :=
  match _metricIndex ent !! nameOrAlias with
  | Some m => Some m
  | None =>
      match _reverseAliasIndex ent !! nameOrAlias with
      | Some canonical =>
          if JS.nonEmpty canonical then _metricIndex ent !! canonical else None
      | None => None
      end
  end.

Definition findMeasure (ent : EntityJson) (nm : string) : option MeasureRaw :=
  _measureIndex ent !! nm.

Definition asSqlLiteral (v : value) : string :=
  match v with
  | VNum n => JS.ofZ n
  | VBool b => if b then "TRUE" else "FALSE"
  | VStr s => "'" +:+ JS.replaceChar "'" "''" s +:+ "'"
  end.

Definition isScalarOp (op : string) : bool :=
  String.eqb op "=" || String.eqb op "!=" || String.eqb op ">" ||
  String.eqb op ">=" || String.eqb op "<" || String.eqb op "<=".

Definition buildPredicate (fuel : nat) (filter : Filter) (ctx : MacroContext)
  : result string :=
  let fieldToken := "{" +:+ f_field filter +:+ "}" in
  fieldSql <- expandSqlExpression fuel fieldToken ctx [] ;;
  let op := f_operator filter in
  let vs := f_values filter in
  if String.eqb op "in" || String.eqb op "not_in" then
    let list := JS.join ", " (map asSqlLiteral vs) in
    Ok (fieldSql +:+ " " +:+ (if String.eqb op "in" then "IN" else "NOT IN")
          +:+ " (" +:+ list +:+ ")")
  else
    match vs with
    | [v0] =>
        let v := asSqlLiteral v0 in
        if isScalarOp op then Ok (fieldSql +:+ " " +:+ op +:+ " " +:+ v)
        else Throw (EUnsupportedOperator op)
    | _ => Throw (EOperatorArity op)
    end.

Definition upperType (t : MeasureType) : string :=
  match t with
  | MCount => "COUNT" | MCountDistinct => "COUNT_DISTINCT" | MSum => "SUM"
  | MAvg => "AVG" | MMin => "MIN" | MMax => "MAX" | MNumber => "NUMBER"
  end.

(** [measure.sql] when it is a non-empty string. *)
Definition truthy (o : option string) : option string :=
  match o with
  | Some s => if JS.nonEmpty s then Some s else None
  | None => None
  end.

Definition buildAgg (fuel : nat) (measure : MeasureRaw) (hostEntity : EntityJson)
    (ctx : MacroContext) : result string :=
  sqlExpr <- match truthy (ms_sql measure) with
             | Some s => r <- expandSqlExpression fuel s
                                (withCurrentEntity ctx (name hostEntity)) [] ;;
                         Ok (Some r)
             | None => Ok None
             end ;;
  match ms_type measure with
  | MCount => Ok "COUNT(*)"
  | MCountDistinct =>
      match sqlExpr with
      | None => Throw (ERequiresSql (ms_name measure))
      | Some e => Ok ("COUNT(DISTINCT " +:+ e +:+ ")")
      end
  | MSum | MAvg | MMin | MMax =>
      match sqlExpr with
      | None => Throw (ERequiresSql (ms_name measure))
      | Some e => Ok (upperType (ms_type measure) +:+ "(" +:+ e +:+ ")")
      end
  | MNumber => Throw (EUnsupportedMeasureType (ms_name measure))
  end.

(** [expandSqlExpression(measure.sql!, ...)] *)
Definition expandMeasureSql (fuel : nat) (measure : MeasureRaw) (hostEntity : EntityJson)
    (ctx : MacroContext) : result string :=
  match ms_sql measure with
  | Some s => expandSqlExpression fuel s (withCurrentEntity ctx (name hostEntity)) []
  | None => Throw ETypeError
  end.

Definition buildMetricExpr (fuel : nat) (metric : MetricRaw) (hostEntity : EntityJson)
    (ctx : MacroContext) : result string :=
  match mt_type metric, mt_source metric with
  | Atomic, Some source =>
      match findMeasure hostEntity (src_measure source) with
      | None => Throw (EMeasureNotFound (src_measure source) (name hostEntity))
      | Some measure =>
          agg <- buildAgg fuel measure hostEntity ctx ;;
          match default [] (src_filters source) with
          | [] => Ok agg
          | filters =>
              preds <- mapM (fun f => buildPredicate fuel f ctx) filters ;;
              let pred := match preds with
                          | [p] => p
                          | _ => "(" +:+ JS.join ") AND (" preds +:+ ")"
                          end in
              match ms_type measure with
              | MCount => Ok ("COUNT_IF(" +:+ pred +:+ ")")
              | MCountDistinct =>
                  sqlExpr <- expandMeasureSql fuel measure hostEntity ctx ;;
                  Ok ("COUNT(DISTINCT IFF(" +:+ pred +:+ ", " +:+ sqlExpr +:+ ", NULL))")
              | _ =>
                  sqlExpr <- expandMeasureSql fuel measure hostEntity ctx ;;
                  Ok (upperType (ms_type measure) +:+ "(IFF(" +:+ pred +:+ ", "
                        +:+ sqlExpr +:+ ", NULL))")
              end
          end
      end
  | _, _ => Throw (EOnlyAtomic (mt_name metric))
  end.

Definition resolveDimensionExpr (fuel : nat) (field currentEntityName : string)
    (ctx : MacroContext) : result string :=
  let token := "{" +:+ field +:+ "}" in
  expandSqlExpression fuel token (withCurrentEntity ctx currentEntityName) [].

(** [dim.split('.').slice(-1)[0]]: what follows the last dot. *)
Fixpoint lastSegment (acc s : string) : string :=
  match s with
  | EmptyString => acc
  | String c s' => if Ascii.eqb c "." then lastSegment s' s' else lastSegment acc s'
  end.

Definition dimLabel (dim : string) : string :=
  if JS.includes dim "." then lastSegment dim dim else dim.

Definition selectDimension (fuel : nat) (base : string) (ctx : MacroContext) (dim : string)
  : result string :=
  expr <- resolveDimensionExpr fuel dim base ctx ;;
  Ok (expr +:+ " AS " +:+ JS.dquote +:+ dimLabel dim +:+ JS.dquote).

(** First loop over [jp.orderedEntities]: the metric by name or alias. *)
Fixpoint hostByMetric (registry : Registry) (ents : list string) (mname : string)
  : result (option (EntityJson * MetricRaw)) :=
  match ents with
  | [] => Ok None
  | e :: ents' =>
      match registry_get registry e with
      | None => Throw ETypeError
      | Some ent =>
          match findMetric ent mname with
          | Some metric => Ok (Some (ent, metric))
          | None => hostByMetric registry ents' mname
          end
      end
  end.

(** Second loop: a measure of that name, wrapped in a synthetic metric. *)
Fixpoint hostByMeasure (registry : Registry) (ents : list string) (mname : string)
  : result (option (EntityJson * MetricRaw)) :=
  match ents with
  | [] => Ok None
  | e :: ents' =>
      match registry_get registry e with
      | None => Throw ETypeError
      | Some ent =>
          match findMeasure ent mname with
          | Some _ =>
              Ok (Some (ent,
                {| mt_name := "__measure_" +:+ mname;
                   mt_type := Atomic;
                   mt_source := Some
                     {| src_measure := mname;
                        src_anchor_date :=
                          match time_dimensions ent with
                          | td :: _ => td_name td
                          | [] => "created_on"
                          end;
                        src_filters := None |};
                   mt_aliases := None |}))
          | None => hostByMeasure registry ents' mname
          end
      end
  end.

Definition selectMetric (fuel : nat) (registry : Registry) (jp : Joins.JoinPathResult)
    (ctx : MacroContext) (mname : string) : result string :=
  found <- hostByMetric registry (Joins.orderedEntities jp) mname ;;
  found <- match found with
           | Some hm => Ok (Some hm)
           | None => hostByMeasure registry (Joins.orderedEntities jp) mname
           end ;;
  match found with
  | None => Throw (EMetricNotFound mname)
  | Some (host, metricObj) =>
      expr <- buildMetricExpr fuel metricObj host (withCurrentEntity ctx (name host)) ;;
      Ok (expr +:+ " AS " +:+ JS.dquote +:+ mname +:+ JS.dquote)
  end.

Definition renderJoin (registry : Registry) (jp : Joins.JoinPathResult) (ctx : MacroContext)
    (e : Joins.JoinEdge) : result string :=
  let rightAlias := tmpl (Joins.aliasByEntity jp !! Joins.to e) in
  leftCol <- qualifySimpleColumn ("{CUBE}." +:+ Joins.je_fromField e) (Joins.from e)
               (withCurrentEntity ctx (Joins.from e)) ;;
  rightCol <- qualifySimpleColumn ("{CUBE}." +:+ Joins.je_toField e) (Joins.to e)
                (withCurrentEntity ctx (Joins.to e)) ;;
  let joinType := match Joins.je_relationship e with
                  | ManyToMany => "INNER JOIN"
                  | _ => "LEFT JOIN"
                  end in
  match registry_get registry (Joins.to e) with
  | None => Throw ETypeError
  | Some rightEnt =>
      Ok (joinType +:+ " " +:+ table rightEnt +:+ " " +:+ rightAlias +:+ " ON "
            +:+ leftCol +:+ " = " +:+ rightCol)
  end.

(** [ff.replace(/\*\//g, '* /')] *)
Fixpoint openComment (s : string) : string :=
  match s with
  | String "*" (String "/" s') => "* /" +:+ openComment s'
  | String c s' => String c (openComment s')
  | EmptyString => EmptyString
  end.

Definition timePredicate (tExpr : string) (tr : TimeRange) : string :=
  tExpr +:+ " >= '" +:+ tmpl (tr_start tr) +:+ "' AND " +:+ tExpr +:+ " < '"
        +:+ tmpl (tr_end tr) +:+ "'".

(** Step 5: the conjuncts of the WHERE clause. *)
Definition whereClauses (fuel : nat) (plan : FinalizedPlan) (registry : Registry)
    (base : string) (ctx : MacroContext) : result (list string) :=
  timePart <-
    match i_timeRange (intent plan) with
    | None => Ok []
    | Some tr =>
        match registry_get registry base with
        | None => Throw ETypeError
        | Some ent =>
            match time_dimensions ent with
            | [] => Throw (ENoTimeDimension base)
            | tdim :: _ =>
                tExpr <- expandSqlExpression fuel (td_sql tdim) ctx [] ;;
                Ok [timePredicate tExpr tr]
            end
        end
    end ;;
  preds <- mapM (fun f => buildPredicate fuel f ctx) (i_structuredFilters (intent plan)) ;;
  let comments := map (fun ff => "/* user_filter: " +:+ openComment ff +:+ " */")
                      (i_filters (intent plan)) in
  Ok (timePart ++ preds ++ comments).

(** [Array.from(new Set(xs))] *)
Definition dedup (xs : list string) : list string := fold_left Joins.setAdd xs [].

Definition groupByClause (dimCount : nat) : string :=
  match dimCount with
  | O => EmptyString
  | _ => "GROUP BY " +:+ JS.join ", " (map JS.ofNat (seq 1 dimCount))
  end.

(** Step "Build the SQL": the parts, joined by line feeds. *)
Definition assemble (selectCols : list string) (from : string) (joins where_ : list string)
    (groupBy : string) : string :=
  let parts :=
    ["SELECT"]
    ++ [match selectCols with
        | [] => "  1 AS dummy"
        | _ => "  " +:+ JS.join ("," +:+ JS.nl +:+ "  ") selectCols
        end]
    ++ [from]
    ++ match joins with [] => [] | _ => [JS.join JS.nl joins] end
    ++ match where_ with
       | [] => []
       | _ => ["WHERE " +:+ JS.join (JS.nl +:+ "  AND ") where_]
       end
    ++ (if JS.nonEmpty groupBy then [groupBy] else [])
    ++ ["LIMIT 1001"] in
  JS.join JS.nl parts.

Definition renderSQLFromPlan (fuel : nat) (plan : FinalizedPlan) (registry : Registry)
  : result string :=
  base <- match selectedEntities plan with
          | b0 :: _ => Ok (Some b0)
          | [] => chooseBaseEntity plan registry
          end ;;
  match truthy base with
  | None => Throw ENoBaseEntity
  | Some base =>
      let required := dedup (selectedEntities plan) in
      jp <- Joins.computeJoinPath fuel base required registry ;;
      let ctx := {| currentEntity := base;
                    aliasByEntity := Joins.aliasByEntity jp;
                    registry := registry |} in
      dimCols <- mapM (selectDimension fuel base ctx) (i_dimensions (intent plan)) ;;
      metricCols <- mapM (selectMetric fuel registry jp ctx) (i_metrics (intent plan)) ;;
      let selectCols := dimCols ++ metricCols in
      match registry_get registry base with
      | None => Throw ETypeError
      | Some baseEnt =>
          let from := "FROM " +:+ table baseEnt +:+ " "
                        +:+ tmpl (Joins.aliasByEntity jp !! base) in
          joins <- mapM (renderJoin registry jp ctx) (Joins.edges jp) ;;
          where_ <- whereClauses fuel plan registry base ctx ;;
          let dimCount := List.length (i_dimensions (intent plan)) in
          Ok (assemble selectCols from joins where_ (groupByClause dimCount))
      end
  end.

End Render.

(** ** The disallowed verbs, shared text of [validate.ts] and [snowflake.ts]

    Both files declare the same array [DISALLOWED] of regular expressions
    [/\bVERB\b/i]. *)

Module Policy.

Definition DISALLOWED : list string :=
  ["DROP"; "TRUNCATE"; "ALTER"; "CREATE"; "INSERT"; "UPDATE"; "DELETE";
   "MERGE"; "COPY"; "PUT"; "GET"].

(** [\b] after the verb: the input ends, or a non-word character follows. *)
Definition boundaryAfter (r : string) : bool :=
  match r with
  | EmptyString => true
  | String c _ => negb (JS.isWordChar c)
  end.

(** [/\bVERB\b/i.test(s)], scanning from a position whose left neighbour
    is a word character or not ([prevWord]). *)
Fixpoint testFrom (verb : string) (prevWord : bool) (s : string) : bool :=
  (negb prevWord && JS.prefix_i verb s && boundaryAfter (JS.drop (String.length verb) s))
  || match s with
     | EmptyString => false
     | String c s' => testFrom verb (JS.isWordChar c) s'
     end.

Definition test (verb sql : string) : bool := testFrom verb false sql.

End Policy.

(** ** Syntax scan ([lib/sql/validate.ts]) *)

Module Validate.

Inductive issue :=
  | MultipleStatements            (* Multiple statements detected. *)
  | DisallowedToken (verb : string)
  | UnmatchedComment.             (* Unclosed or unmatched block comment. *)

Record ScanResult := { ok : bool; issues : list issue }.

Definition syntaxScan (sql : string) : ScanResult :=
  let cleanedSql := JS.trim sql in
  let semis := JS.countMatches ";" cleanedSql in
  let endsWithSemi := JS.endsWith cleanedSql ";" in
  let i1 := if (1 <? semis)%nat || ((semis =? 1)%nat && negb endsWithSemi)
            then [MultipleStatements] else [] in
  let i2 := map DisallowedToken (List.filter (fun rx => Policy.test rx sql) Policy.DISALLOWED) in
  let openComments := JS.countMatches "/*" sql in
  let closeComments := JS.countMatches "*/" sql in
  let i3 := if negb (openComments =? closeComments)%nat then [UnmatchedComment] else [] in
  let all := i1 ++ i2 ++ i3 in
  {| ok := match all with [] => true | _ => false end; issues := all |}.

End Validate.

(** ** Guarded execution ([lib/snowflake.ts]) *)

Module Snowflake.

Definition Row := list (string * value).

Record ColumnMeta := { col_name : string; col_type : string }.

Record ExecResult := {
  rows : list Row;
  columns : list ColumnMeta;
  lastQueryId : string;
  truncated : bool
}.

Record ExecOptions := {
  timeoutMs : option Z;
  rowLimit : option Z;
  attempts : option Z;
  enforceLimit : bool;
  queryTag : option string
}.

(** *** The circuit breaker *)

Record Breaker := {
  consecutiveFailures : Z;
  trippedUntil : Z          (* epoch ms *)
}.

Definition breaker0 : Breaker := {| consecutiveFailures := 0; trippedUntil := 0 |}.

Definition isOpen (now : Z) (b : Breaker) : bool := (now <? trippedUntil b)%Z.

Definition recordSuccess (b : Breaker) : Breaker :=
  {| consecutiveFailures := 0; trippedUntil := 0 |}.

(** [now] is the reading of [Date.now()] inside [recordFailure]. *)
Definition recordFailure (now : Z) (b : Breaker) : Breaker :=
  let n := (consecutiveFailures b + 1)%Z in
  {| consecutiveFailures := n;
     trippedUntil := if (3 <=? n)%Z then (now + 60000)%Z else trippedUntil b |}.

(** *** Guardrails *)

Definition preflightGuard (sql : string) : result unit :=
  if (0 <? JS.countMatches ";" sql)%nat then Throw EMultiStatement
  else
    match List.find (fun rx => Policy.test rx sql) Policy.DISALLOWED with
    | Some rx => Throw (EDisallowedToken rx)
    | None => Ok tt
    end.

(** [/limit\s+\d+/i] at the head of [s]. *)
Definition limitAt (s : string) : bool :=
  JS.prefix_i "LIMIT" s &&
  match JS.drop 5 s with
  | String c r =>
      JS.isSpace c &&
      match JS.trimStart r with
      | String d _ => JS.isDigit d
      | EmptyString => false
      end
  | EmptyString => false
  end.

Fixpoint hasLimit (s : string) : bool :=
  limitAt s || match s with EmptyString => false | String _ s' => hasLimit s' end.

Definition ensureLimit (sql : string) (rowLimit : Z) : string :=
  if hasLimit sql then sql else sql +:+ JS.nl +:+ "LIMIT " +:+ JS.ofZ rowLimit.

(** *** What the pool and the driver do in one attempt

    The times are the clock readings at the moment the connection is
    handed out, the session tag is set, the statement is sent, and the
    outcome is recorded. *)

Inductive DriverOutcome :=
  | DriverOk (rows : list Row) (cols : list ColumnMeta) (queryId : string)
  | DriverErr (msg : string).

Record Attempt := {
  acquires : bool;             (* does [pool.acquire()] succeed *)
  t_acquire : Z;
  t_tag : Z;
  tagError : option string;    (* does [setQueryTag] reject *)
  t_statement : Z;
  outcome : DriverOutcome;
  t_done : Z
}.

(** What reaches the pool and the warehouse, with the breaker as it is at
    that moment. *)
Inductive event :=
  | Acquired (at_ : Z) (b : Breaker)
  | SessionTag (at_ : Z) (b : Breaker) (sqlText : string)  (* sent by [setQueryTag] *)
  | Statement (at_ : Z) (b : Breaker) (sqlText : string).  (* sent by [runStatement] *)


(** The statement [setQueryTag] sends. *)
Definition tagSql (tag : string) : string :=
  "ALTER SESSION SET QUERY_TAG='" +:+ JS.replaceChar "'" "''" tag +:+ "'".

Definition truthy (o : option string) : bool :=
  match o with Some s => JS.nonEmpty s | None => false end.

Section Exec.
Variable world : nat -> Attempt.
Variable sql : string.
Variable opts : ExecOptions.

Definition runAttempt (w : Attempt) (b : Breaker) (trace : list event)
  : result ExecResult * list event :=
  match preflightGuard sql with
  | Throw e => (Throw e, trace)
  | OutOfFuel => (OutOfFuel, trace)
  | Ok _ =>
      let tagged := truthy (queryTag opts) in
      let trace0 :=
        if tagged
        then trace ++ [SessionTag (t_tag w) b (tagSql (default EmptyString (queryTag opts)))]
        else trace in
      match (if tagged then tagError w else None) with
      | Some msg => (Throw (EDriver msg), trace0)
      | None =>
          let rowLimit := default 1001%Z (rowLimit opts) in
          let finalSql := if enforceLimit opts then ensureLimit sql rowLimit else sql in
          let trace' := trace0 ++ [Statement (t_statement w) b finalSql] in
          match outcome w with
          | DriverErr msg => (Throw (EDriver msg), trace')
          | DriverOk rs cols qid =>
              (Ok {| rows := rs; columns := cols; lastQueryId := qid;
                     truncated := if enforceLimit opts
                                  then (rowLimit <=? Z.of_nat (List.length rs))%Z
                                  else false |}, trace')
          end
      end
  end.

(** The [for] loop: [n] attempts are left, [k] is the attempt number. *)
Fixpoint attemptLoop (n k : nat) (b : Breaker) (lastErr : option error)
    (trace : list event) : result ExecResult * Breaker * list event :=
  match n with
  | O => (Throw (default (EDriver "Unknown execution failure.") lastErr), b, trace)
  | S n' =>
      let w := world k in
      if negb (acquires w) then (Throw EAcquireFailed, b, trace)
      else
        let trace1 := trace ++ [Acquired (t_acquire w) b] in
        match runAttempt w b trace1 with
        | (Ok res, trace2) => (Ok res, recordSuccess b, trace2)
        | (Throw e, trace2) =>
            attemptLoop n' (S k) (recordFailure (t_done w) b) (Some e) trace2
        | (OutOfFuel, trace2) => (OutOfFuel, b, trace2)
        end
  end.

(** [execWithRetry(pool, sql, opts)], entered at clock reading [now]. *)
Definition execWithRetry (now : Z) (b : Breaker)
  : result ExecResult * Breaker * list event :=
  if isOpen now b then (Throw EBreakerOpen, b, [])
  else
    let attempts := Z.max 1 (Z.min (default 3%Z (attempts opts)) 5) in
    attemptLoop (Z.to_nat attempts) 1 b None [].
End Exec.

End Snowflake.

(** ** Repair helpers ([lib/execute/repair.ts]) *)

Module Repair.

(** [normalize]: double quotes and backticks are removed, then [trim()],
    then [toLowerCase()]. *)
Fixpoint stripQuotes (s : string) : string :=
  match s with
  | EmptyString => EmptyString
  | String c s' =>
      if (JS.code c =? 34)%N || (JS.code c =? 96)%N then stripQuotes s'
      else String c (stripQuotes s')
  end.

Definition normalize (s : string) : string := JS.toLowerCase (JS.trim (stripQuotes s)).

(** One row [dp[i][0..n]] of the table from the row above it:
    [left] is [dp[i][j-1]], [diag] is [dp[i-1][j-1]], [up] runs over
    [dp[i-1][j..n]]. *)
Fixpoint fillRow (ai : ascii) (b : string) (up : list nat) (diag left : nat) : list nat :=
  match b, up with
  | String bj b', u :: up' =>
      let cost := if Ascii.eqb ai bj then 0 else 1 in
      let cell := Nat.min (Nat.min (u + 1) (left + 1)) (diag + cost) in
      cell :: fillRow ai b' up' u cell
  | _, _ => []
  end.

Fixpoint fillRows (a b : string) (i : nat) (prevRow : list nat) : list nat :=
  match a with
  | EmptyString => prevRow
  | String ai a' =>
      match prevRow with
      | d0 :: up => fillRows a' b (S i) (S i :: fillRow ai b up d0 (S i))
      | [] => []
      end
  end.

(** [levenshtein(a, b)]: the last cell [dp[m][n]] of the table. *)
Definition levenshtein (a b : string) : nat :=
  List.last (fillRows a b 0 (seq 0 (S (String.length b)))) 0.

Record Best := { entity : string; field : string; score : nat }.

Definition consider (needle ename fname : string) (best : option Best) (c : string)
  : option Best :=
  let sc := levenshtein needle (normalize c) in
  match best with
  | Some bst => if (sc <? score bst)%nat
                then Some {| entity := ename; field := fname; score := sc |}
                else best
  | None => Some {| entity := ename; field := fname; score := sc |}
  end.

Definition scanDimension (needle ename : string) (best : option Best) (d : DimensionRaw)
  : option Best :=
  fold_left (consider needle ename (dim_name d))
            (dim_name d :: default [] (dim_aliases d)) best.

Definition scanEntity (needle : string) (best : option Best) (en : string * EntityJson)
  : option Best :=
  let '(ename, ent) := en in
  let best1 := fold_left (scanDimension needle ename) (dimensions ent) best in
  fold_left (fun bst td => consider needle ename (td_name td) bst (td_name td))
            (time_dimensions ent) best1.

(** The search loop of [bestColumnMatch]. *)
Definition bestCandidate (needle : string) (registry : Registry) : option Best :=
  fold_left (scanEntity needle) registry None.

(** [Math.ceil(len * 0.3)].  The double nearest to 0.3 is below 3/10 by
    less than half a unit in the last place, so for every length the
    product rounds to 3*len/10 when that is integral and stays strictly
    between the neighbouring integers otherwise: the ceiling is the exact
    one. *)
Definition ceil30 (len : nat) : nat := (3 * len + 9) / 10.

Definition bestColumnMatch (target : string) (registry : Registry)
  : option (string * string) :=
  let needle := normalize target in
  match bestCandidate needle registry with
  | Some best =>
      if (score best <=? 3)%nat || (score best <=? ceil30 (String.length needle))%nat
      then Some (entity best, field best)
      else None
  | None => None
  end.

End Repair.

(** ** The result cache and the repair loop ([lib/tools/execute.ts]) *)

Module Execute.
Import Snowflake.

Record CacheEntry := {
  ce_rows : list Row;
  ce_columns : list ColumnMeta;
  ce_lastQueryId : option string;
  cachedAt : Z
}.

(** [queryCache]: a [Map] in insertion order. *)
Definition QueryCache := list (string * CacheEntry).

Definition CACHE_MAX_AGE_MS : Z := 5 * 60 * 1000.
Definition CACHE_MAX_SIZE : nat := 100.

Fixpoint cache_get (c : QueryCache) (k : string) : option CacheEntry :=
  match c with
  | [] => None
  | (k', v) :: c' => if String.eqb k' k then Some v else cache_get c' k
  end.

(** [Map.set]: an existing key keeps its place, a new key goes last. *)
Fixpoint cache_set (c : QueryCache) (k : string) (v : CacheEntry) : QueryCache :=
  match c with
  | [] => [(k, v)]
  | (k', v') :: c' =>
      if String.eqb k' k then (k', v) :: c' else (k', v') :: cache_set c' k v
  end.

Definition cache_delete (c : QueryCache) (k : string) : QueryCache :=
  List.filter (fun kv => negb (String.eqb kv.1 k)) c.

(** [entries.sort((a, b) => a[1].cachedAt - b[1].cachedAt)]: the sort is
    stable, so an entry goes before the entries that follow it in the
    [Map] unless they are older. *)
Fixpoint insertByAge (x : string * CacheEntry) (l : QueryCache) : QueryCache :=
  match l with
  | [] => [x]
  | y :: l' => if (cachedAt y.2 <? cachedAt x.2)%Z then y :: insertByAge x l' else x :: l
  end.

Definition sortByAge (c : QueryCache) : QueryCache := fold_right insertByAge [] c.

Definition cleanExpiredCache (now : Z) (c : QueryCache) : QueryCache :=
  let c1 := List.filter (fun kv => negb (CACHE_MAX_AGE_MS <? now - cachedAt kv.2)%Z) c in
  if (CACHE_MAX_SIZE <? List.length c1)%nat then
    let toRemove := firstn (List.length c1 - CACHE_MAX_SIZE) (sortByAge c1) in
    fold_left (fun acc kv => cache_delete acc kv.1) toRemove c1
  else c1.

(** The object the tool returns; an absent property is [None]. *)
Record ToolResult := {
  r_rows : option (list Row);
  r_columns : option (list ColumnMeta);
  r_lastQueryId : option string;
  r_truncated : option bool;
  r_attemptedSql : string;
  r_repaired : bool;
  r_repairReason : option (option string);   (* [Some None] is [null] *)
  r_fromCache : option bool;
  r_ok : option bool;
  r_error : option string
}.

Record RepairResult := { fixedSql : option string; reason : string }.

(** The three readings of [Date.now()] in one call. *)
Record Clock := {
  t_clean : Z;    (* in [cleanExpiredCache] *)
  t_check : Z;    (* when the age of a cached entry is computed *)
  t_store : Z     (* when a result is stored *)
}.

(** [{ ...res, attemptedSql, repaired, repairReason }] *)
Definition success (res : ExecResult) (attempted : string) (repaired : bool)
    (why : option string) : ToolResult :=
  {| r_rows := Some (rows res); r_columns := Some (columns res);
     r_lastQueryId := Some (lastQueryId res); r_truncated := Some (truncated res);
     r_attemptedSql := attempted; r_repaired := repaired; r_repairReason := Some why;
     r_fromCache := None; r_ok := None; r_error := None |}.

Definition failure (msg attempted : string) (repaired : bool)
    (why : option (option string)) : ToolResult :=
  {| r_rows := None; r_columns := None; r_lastQueryId := None; r_truncated := None;
     r_attemptedSql := attempted; r_repaired := repaired; r_repairReason := why;
     r_fromCache := None; r_ok := Some false; r_error := Some msg |}.

Definition cacheHit (cached : CacheEntry) (sql : string) : ToolResult :=
  {| r_rows := Some (ce_rows cached); r_columns := Some (ce_columns cached);
     r_lastQueryId := ce_lastQueryId cached; r_truncated := None;
     r_attemptedSql := sql; r_repaired := false; r_repairReason := Some None;
     r_fromCache := Some true; r_ok := None; r_error := None |}.

Definition entryOf (res : ExecResult) (now : Z) : CacheEntry :=
  {| ce_rows := rows res; ce_columns := columns res;
     ce_lastQueryId := Some (lastQueryId res); cachedAt := now |}.

Section Tool.
(** [tryExec] runs a candidate through [execWithRetry]; [attemptRepair]
    is the repair strategy; [messageOf] is [String(err?.message ?? err)]. *)
Variable tryExec : string -> result ExecResult.
Variable attemptRepair : string -> error -> result (option RepairResult).
Variable messageOf : error -> string.

(** [r?.fixedSql] when it is truthy. *)
Definition usable (r : option RepairResult) : option (string * string) :=
  match r with
  | Some rr =>
      match fixedSql rr with
      | Some f => if JS.nonEmpty f then Some (f, reason rr) else None
      | None => None
      end
  | None => None
  end.

(** The body after a cache miss. *)
Definition executeMiss (clock : Clock) (cache : QueryCache) (sql : string)
  : result ToolResult * QueryCache :=
  match tryExec sql with
  | OutOfFuel => (OutOfFuel, cache)
  | Ok res =>
      (Ok (success res sql false None), cache_set cache sql (entryOf res (t_store clock)))
  | Throw err0 =>
      match attemptRepair sql err0 with
      | OutOfFuel => (OutOfFuel, cache)
      | Throw e => (Throw e, cache)
      | Ok r1 =>
          match usable r1 with
          | None => (Ok (failure (messageOf err0) sql false None), cache)
          | Some (fixed1, reason1) =>
              match tryExec fixed1 with
              | OutOfFuel => (OutOfFuel, cache)
              | Ok res1 =>
                  (Ok (success res1 fixed1 true (Some reason1)),
                   cache_set cache sql (entryOf res1 (t_store clock)))
              | Throw err1 =>
                  match attemptRepair fixed1 err1 with
                  | OutOfFuel => (OutOfFuel, cache)
                  | Throw e => (Throw e, cache)
                  | Ok r2 =>
                      match usable r2 with
                      | None =>
                          (Ok (failure (messageOf err1) fixed1 true (Some (Some reason1))),
                           cache)
                      | Some (fixed2, reason2) =>
                          match tryExec fixed2 with
                          | OutOfFuel => (OutOfFuel, cache)
                          | Ok res2 =>
                              (Ok (success res2 fixed2 true (Some reason2)),
                               cache_set cache sql (entryOf res2 (t_store clock)))
                          | Throw err2 =>
                              (Ok (failure (messageOf err2) fixed2 true (Some (Some reason2))),
                               cache)
                          end
                      end
                  end
              end
          end
      end
  end.

(** [ExecuteSQLWithRepair.execute({ sql, plan, ... })]: one run, from the
    cache it finds to the cache it leaves, with no other run at work on
    the cache between its steps. *)
Definition execute (clock : Clock) (cache : QueryCache) (sql : string)
  : result ToolResult * QueryCache :=
  let cache1 := cleanExpiredCache (t_clean clock) cache in
  match cache_get cache1 sql with
  | Some cached =>
      let age := (t_check clock - cachedAt cached)%Z in
      if (age <? CACHE_MAX_AGE_MS)%Z then (Ok (cacheHit cached sql), cache1)
      else executeMiss clock (cache_delete cache1 sql) sql
  | None => executeMiss clock cache1 sql
  end.
End Tool.

End Execute.

(** ** More of the string and array primitives *)

Module JSText.

(** [s.split(c)] for a one-character separator. *)
Fixpoint split (c : ascii) (s : string) : list string :=
  match s with
  | EmptyString => [EmptyString]
  | String a s' =>
      if Ascii.eqb a c then EmptyString :: split c s'
      else match split c s' with
           | w :: ws => String a w :: ws
           | [] => [String a EmptyString]
           end
  end.

(** [/needle/i.test(s)] for a literal needle. *)
Fixpoint includes_i (s needle : string) : bool :=
  JS.prefix_i needle s ||
  match s with
  | EmptyString => false
  | String _ s' => includes_i s' needle
  end.

(** [arr.slice(0, end)]: a negative end counts from the back. *)
Definition slice0 {A} (l : list A) (e : Z) : list A :=
  if (e <? 0)%Z then firstn (Z.to_nat (Z.of_nat (List.length l) + e)) l
  else firstn (Z.to_nat e) l.

End JSText.

(** ** The schema allow-list ([lib/security/policy.ts]) *)

Module Security.

(** [process.env.ALLOWED_SCHEMAS], split at commas, trimmed, blanks dropped. *)
Definition allowedSchemas (env : option string) : list string :=
  List.filter JS.nonEmpty
    (map JS.trim (JSText.split "," (default "analytics,crm,main" env))).

Record TableIdent := {
  ti_db : option string;
  ti_schema : option string;
  ti_table : option string
}.

Definition parseTableIdent (ident : string) : TableIdent :=
  match JSText.split "." ident with
  | [a; b; c] => {| ti_db := Some a; ti_schema := Some b; ti_table := Some c |}
  | [a; b] => {| ti_db := None; ti_schema := Some a; ti_table := Some b |}
  | [a] => {| ti_db := None; ti_schema := None; ti_table := Some a |}
  | _ => {| ti_db := None; ti_schema := None; ti_table := None |}
  end.

Inductive violation :=
  | NotSchemaQualified (entity tbl : string)  (* Entity E table T is not schema-qualified. *)
  | SchemaNotAllowed (entity schema : string). (* Entity E table schema S not in allowed list: [...] *)

(** One turn of the loop over [registry.entries()]. *)
Definition inspect (allowed : list string) (entry : string * EntityJson) : list violation :=
  let '(entity, ent) := entry in
  match ti_schema (parseTableIdent (table ent)) with
  | Some schema =>
      if JS.nonEmpty schema then
        if existsb (String.eqb schema) allowed then []
        else [SchemaNotAllowed entity schema]
      else [NotSchemaQualified entity (table ent)]
  | None => [NotSchemaQualified entity (table ent)]
  end.

(** The function returns nothing or throws
    [Security policy violation: ] followed by the violations. *)
Inductive verdict :=
  | Allowed
  | PolicyViolation (violations : list violation).

Definition verifyAllowedTables (registry : Registry) (allowed : list string) : verdict :=
  match flat_map (inspect allowed) registry with
  | [] => Allowed
  | violations => PolicyViolation violations
  end.

End Security.

(** ** Semantic check ([lib/sql/validate.ts]) *)

Module SemanticCheck.

(** An edge of [plan.joinGraph]; the plan record above carries only the
    fields the renderer reads, so the check receives the graph beside it. *)
Record PlanEdge := { pe_from : string; pe_to : string }.

Inductive issue :=
  | PolicyIssue (violations : list Security.violation)
  | EntityNotLoaded (e : string)      (* Selected entity E not loaded. *)
  | JoinFromMissing (e : string)      (* Join edge from missing entity E. *)
  | JoinToMissing (e : string)        (* Join edge to missing entity E. *)
  | DimensionNotFound (d : string)    (* Dimension D not found in selected entities or aliases. *)
  | MetricNotFound (m : string)       (* Metric/measure M not found in selected entities or aliases. *)
  | NoTimeDimensions.                 (* Time range provided but no time dimensions available. *)

Record CheckResult := { ok : bool; issues : list issue; semanticOk : bool }.

Definition loaded (registry : Registry) (e : string) : bool :=
  match registry_get registry e with Some _ => true | None => false end.

Definition someTime (ent : EntityJson) (n : string) : bool :=
  existsb (fun td => String.eqb (td_name td) n) (time_dimensions ent).

(** The tests the helper [existsInAnyEntity] makes on one entity; the
    source writes them out twice, for a qualified name and in the loop. *)
Definition fieldIn (ent : EntityJson) (fieldName : string) (checkDimensions checkTime : bool)
  : bool :=
  if checkDimensions && Store.has (_dimIndex ent) fieldName then true
  else if checkTime && someTime ent fieldName then true
  else
    match _reverseAliasIndex ent !! fieldName with
    | Some canonical =>
        if JS.nonEmpty canonical then
          if checkDimensions && Store.has (_dimIndex ent) canonical then true
          else if checkTime && someTime ent canonical then true
          else false
        else false
    | None => false
    end.

Definition existsInAnyEntity (registry : Registry) (nm : string)
    (checkDimensions checkTime : bool) : bool :=
  if JS.includes nm "." then
    match JSText.split "." nm with
    | entityName :: fieldName :: _ =>
        match registry_get registry entityName with
        | None => false
        | Some ent => fieldIn ent fieldName checkDimensions checkTime
        end
    | _ => false
    end
  else existsb (fun entry => fieldIn entry.2 nm checkDimensions checkTime) registry.

Definition metricIn (ent : EntityJson) (n : string) : bool :=
  if Store.has (_metricIndex ent) n || Store.has (_measureIndex ent) n then true
  else
    match _reverseAliasIndex ent !! n with
    | Some canonical =>
        JS.nonEmpty canonical &&
        (Store.has (_metricIndex ent) canonical || Store.has (_measureIndex ent) canonical)
    | None => false
    end.

Definition metricOrMeasureExists (registry : Registry) (nm : string) : bool :=
  if JS.includes nm "." then
    match JSText.split "." nm with
    | entityName :: fieldName :: _ =>
        match registry_get registry entityName with
        | None => false
        | Some ent => metricIn ent fieldName
        end
    | _ => false
    end
  else existsb (fun entry => metricIn entry.2 nm) registry.

Definition semanticCheck (allowed : list string) (plan : FinalizedPlan)
    (joinGraph : list PlanEdge) (sql : string) (registry : Registry) : CheckResult :=
  let i0 := match Security.verifyAllowedTables registry allowed with
            | Security.Allowed => []
            | Security.PolicyViolation vs => [PolicyIssue vs]
            end in
  let i1 := flat_map (fun e => if loaded registry e then [] else [EntityNotLoaded e])
                     (selectedEntities plan) in
  let i2 := flat_map (fun j =>
                        (if loaded registry (pe_from j) then [] else [JoinFromMissing (pe_from j)])
                        ++ (if loaded registry (pe_to j) then [] else [JoinToMissing (pe_to j)]))
                     joinGraph in
  let i3 := flat_map (fun d => if existsInAnyEntity registry d true true then []
                               else [DimensionNotFound d])
                     (i_dimensions (intent plan)) in
  let i4 := flat_map (fun m => if metricOrMeasureExists registry m then []
                               else [MetricNotFound m])
                     (i_metrics (intent plan)) in
  let i5 := match i_timeRange (intent plan) with
            | Some _ =>
                if existsb (fun entry => (0 <? List.length (time_dimensions entry.2))%nat) registry
                then [] else [NoTimeDimensions]
            | None => []
            end in
  let all := i0 ++ i1 ++ i2 ++ i3 ++ i4 ++ i5 in
  let good := match all with [] => true | _ => false end in
  {| ok := good; issues := all; semanticOk := good |}.

End SemanticCheck.

(** ** CSV export ([lib/reporting/csv.ts]) *)

Module Csv.

Definition isSpecial (c : ascii) : bool :=
  Ascii.eqb c (ascii_of_nat 34) || Ascii.eqb c "," || Ascii.eqb c (ascii_of_nat 10).

(** The test of the character class: quote, comma, line feed. *)
Fixpoint needsQuote (s : string) : bool :=
  match s with
  | EmptyString => false
  | String c s' => isSpecial c || needsQuote s'
  end.

(** A cell is absent ([null] or [undefined]) or a value; the numbers are
    the integral ones. *)
Definition csvEscape (v : option value) : string :=
  match v with
  | None => EmptyString
  | Some (VNum n) => JS.ofZ n
  | Some (VBool b) => if b then "true" else "false"
  | Some (VStr s) =>
      if needsQuote s
      then JS.dquote +:+ JS.replaceChar (ascii_of_nat 34) (JS.dquote +:+ JS.dquote) s
           +:+ JS.dquote
      else s
  end.

(** [r[h]] for a row that holds its columns as own properties and a
    column name that names no member of [Object.prototype]. *)
Fixpoint cell (r : Snowflake.Row) (h : string) : option value :=
  match r with
  | [] => None
  | (k, v) :: r' => if String.eqb k h then Some v else cell r' h
  end.

Record Export := { csvBase64 : string; preview : list Snowflake.Row }.

Section ToCSV.
(** [Buffer.from(text, 'utf8').toString('base64')] *)
Variable base64 : string -> string.

Definition limitedRows (rows : list Snowflake.Row) (maxRows : option Z) : list Snowflake.Row :=
  JSText.slice0 rows (Z.min (default 1000%Z maxRows) 1000).

Definition csvText (rows : list Snowflake.Row) (columns : list Snowflake.ColumnMeta)
    (maxRows : option Z) : string :=
  let header := map Snowflake.col_name columns in
  let buf :=
    JS.join "," (map (fun h => csvEscape (Some (VStr h))) header)
    :: map (fun r => JS.join "," (map (fun h => csvEscape (cell r h)) header))
           (limitedRows rows maxRows) in
  JS.join JS.nl buf.

Definition toCSV (rows : list Snowflake.Row) (columns : list Snowflake.ColumnMeta)
    (maxRows : option Z) : Export :=
  let limited := limitedRows rows maxRows in
  {| csvBase64 := base64 (csvText rows columns maxRows);
     preview := JSText.slice0 limited (Z.min 30 (Z.of_nat (List.length limited))) |}.
End ToCSV.

End Csv.

(** ** Classifying driver errors ([lib/execute/errors.ts]) *)

Module Errors.

(** [isTimeout], on the message of the error. *)
Definition isTimeout (msg : string) : option string :=
  if JSText.includes_i msg "timeout" then Some msg
  else if JSText.includes_i msg "Statement timeout" then Some msg
  else None.

End Errors.

(** ** Descriptors and plans used as concrete inputs *)

Module Fixtures.

Definition dim (n s : string) : DimensionRaw :=
  {| dim_name := n; dim_sql := s; dim_type := TString; dim_aliases := None |}.

Definition descriptor (n tbl : string) (dims : list DimensionRaw)
    (tds : list TimeDimensionRaw) (ms : list MeasureRaw) (js : list JoinRaw)
  : EntityYamlRaw :=
  {| raw_name := n; raw_table := tbl; raw_grain := "one row per " +:+ n;
     raw_aliases := None; raw_dimensions := Some dims;
     raw_time_dimensions := Some tds; raw_measures := Some ms;
     raw_metrics := None; raw_joins := Some js |}.

(** Two dimensions defined in terms of each other. *)
Definition ordersRaw : EntityYamlRaw :=
  descriptor "orders" "analytics.orders"
    [dim "NET" "{GROSS} - {TAX}"; dim "GROSS" "{NET} + {TAX}"; dim "TAX" "{CUBE}.TAX"]
    [] [] [].

Definition orders : EntityJson := Store.assemble ordersRaw.

Definition ordersCtx : Macros.MacroContext :=
  {| Macros.currentEntity := "orders";
     Macros.aliasByEntity := {[ "orders" := "t0" ]};
     Macros.registry := [("orders", orders)] |}.

Definition accountsRaw : EntityYamlRaw :=
  descriptor "accounts" "analytics.accounts"
    [dim "ACCOUNT_TIER" "{CUBE}.ACCOUNT_TIER"; dim "company_id" "{CUBE}.company_id"]
    [{| td_name := "CREATED_AT"; td_sql := "{CUBE}.CREATED_AT" |}]
    [{| ms_name := "count"; ms_type := MCount; ms_sql := None; ms_aliases := None |}]
    [{| target_entity := "companies"; relationship := ManyToOne;
        jc_from := "company_id"; jc_to := "id" |}].

Definition companiesRaw : EntityYamlRaw :=
  descriptor "companies" "analytics.companies"
    [dim "id" "{CUBE}.id"; dim "abc" "{CUBE}.abc"] [] [] [].

Definition accounts : EntityJson := Store.assemble accountsRaw.
Definition companies : EntityJson := Store.assemble companiesRaw.

Definition registry : Registry := [("accounts", accounts); ("companies", companies)].

Definition emptyIntent : Intent :=
  {| i_metrics := []; i_dimensions := []; i_filters := [];
     i_structuredFilters := []; i_timeRange := None |}.

End Fixtures.

(** * Properties *)

(** ** Macro expansion *)

Module MacrosFacts.
Import Macros Fixtures.

Definition cycleKey (k : string) : Prop := k = "orders.NET" \/ k = "orders.GROSS".

Lemma not_on_stack (e : string) (stack : list string) :
  Forall cycleKey stack -> e <> "orders.NET" -> e <> "orders.GROSS" ->
  existsb (String.eqb e) stack = false.
Proof.
  intros Hs Hn Hg. induction Hs as [|k stack Hk _ IH]; [reflexivity|].
  simpl. rewrite IH, orb_false_r. apply String.eqb_neq.
  destruct Hk; congruence.
Qed.

(** An expression that is no single token goes through the three passes. *)
Lemma expandBody_compound rec (e : string) ctx (stack : list string) :
  existsb (String.eqb e) stack = false ->
  CUBE_RE e = None -> SAME_ENTITY_FIELD_RE e = None -> OTHER_ENTITY_FIELD_RE e = None ->
  expandBody rec e ctx stack =
    (r1 <- JS.replaceAll cubeAt (expandOwn rec ctx stack) e 0 ;;
     r2 <- JS.replaceAll entityFieldAt (expandOther rec EMissingAlias ctx stack) r1 0 ;;
     JS.replaceAll fieldAt (expandInner rec ctx stack) r2 0).
Proof.
  intros Hs H1 H2 H3. unfold expandBody. rewrite Hs, H1, H2, H3. reflexivity.
Qed.

(** A pass whose first callback never returns does not return either. *)
Lemma stuck_on_GROSS f :
  f "GROSS" = OutOfFuel -> JS.replaceAll fieldAt f "{GROSS} - {TAX}" 0 = OutOfFuel.
Proof. intros H. vm_compute. rewrite H. reflexivity. Qed.

Lemma stuck_on_NET f :
  f "NET" = OutOfFuel -> JS.replaceAll fieldAt f "{NET} + {TAX}" 0 = OutOfFuel.
Proof. intros H. vm_compute. rewrite H. reflexivity. Qed.

(** One turn of the loop: expanding NET's definition asks for GROSS's. *)
Lemma net_asks_gross rec (stack : list string) :
  Forall cycleKey stack ->
  rec "{NET} + {TAX}" ordersCtx (stack ++ ["orders.GROSS"]) = OutOfFuel ->
  expandBody rec "{GROSS} - {TAX}" ordersCtx stack = OutOfFuel.
Proof.
  intros Hs Hrec.
  rewrite expandBody_compound;
    [|apply not_on_stack; [assumption|discriminate..]|reflexivity..].
  change (JS.replaceAll cubeAt _ "{GROSS} - {TAX}" 0) with (Ok "{GROSS} - {TAX}").
  cbn [rbind].
  change (JS.replaceAll entityFieldAt _ "{GROSS} - {TAX}" 0) with (Ok "{GROSS} - {TAX}").
  cbn [rbind].
  apply stuck_on_GROSS. exact Hrec.
Qed.

Lemma gross_asks_net rec (stack : list string) :
  Forall cycleKey stack ->
  rec "{GROSS} - {TAX}" ordersCtx (stack ++ ["orders.NET"]) = OutOfFuel ->
  expandBody rec "{NET} + {TAX}" ordersCtx stack = OutOfFuel.
Proof.
  intros Hs Hrec.
  rewrite expandBody_compound;
    [|apply not_on_stack; [assumption|discriminate..]|reflexivity..].
  change (JS.replaceAll cubeAt _ "{NET} + {TAX}" 0) with (Ok "{NET} + {TAX}").
  cbn [rbind].
  change (JS.replaceAll entityFieldAt _ "{NET} + {TAX}" 0) with (Ok "{NET} + {TAX}").
  cbn [rbind].
  apply stuck_on_NET. exact Hrec.
Qed.

Lemma cycle_never_ends (fuel : nat) :
  forall stack, Forall cycleKey stack ->
    expandSqlExpression fuel "{GROSS} - {TAX}" ordersCtx stack = OutOfFuel /\
    expandSqlExpression fuel "{NET} + {TAX}" ordersCtx stack = OutOfFuel.
Proof.
  induction fuel as [|fuel IH]; intros stack Hs; [split; reflexivity|].
  assert (Hk1 : Forall cycleKey (stack ++ ["orders.GROSS"])).
  { apply Forall_app; split; [assumption|].
    constructor; [right; reflexivity|constructor]. }
  assert (Hk2 : Forall cycleKey (stack ++ ["orders.NET"])).
  { apply Forall_app; split; [assumption|].
    constructor; [left; reflexivity|constructor]. }
  split; cbn [expandSqlExpression].
  - apply net_asks_gross; [assumption|]. apply (IH _ Hk1).
  - apply gross_asks_net; [assumption|]. apply (IH _ Hk2).
Qed.

(** C1 (the code departs from the claim).  On a descriptor whose
    dimensions NET and GROSS are defined in terms of each other, expanding
    the token for NET returns nothing for any recursion budget: no
    cyclic-expansion error is raised, because the test looks for the
    expression text on a stack that holds [entity.field] keys. *)
Theorem expandSqlExpression_cycle_not_detected :
  forall fuel, expandSqlExpression fuel "{NET}" ordersCtx [] = OutOfFuel.
Proof.
  intros [|fuel]; [reflexivity|].
  cbn [expandSqlExpression].
  assert (Hk : Forall cycleKey ["orders.NET"]).
  { constructor; [left; reflexivity|constructor]. }
  exact (proj1 (cycle_never_ends fuel ["orders.NET"] Hk)).
Qed.

(** What the test does catch: a definition whose text happens to be the
    key of the field, here a column qualified by a table named like the
    entity.  There is no cycle, and the cyclic-expansion error is raised. *)
Definition ledgerRaw : EntityYamlRaw :=
  descriptor "ledger" "analytics.ledger" [dim "RAW" "ledger.RAW"] [] [] [].

Example text_equal_to_key_is_reported_cyclic :
  expandSqlExpression 5 "{RAW}"
    {| Macros.currentEntity := "ledger";
       Macros.aliasByEntity := {[ "ledger" := "t0" ]};
       Macros.registry := [("ledger", Store.assemble ledgerRaw)] |} []
  = Throw (ECyclicExpansion "ledger.RAW").
Proof. vm_compute. reflexivity. Qed.

End MacrosFacts.

(** ** Preflight guard and syntax scan *)

Module PolicyFacts.
Import Snowflake Validate.

Lemma count_semi_cons (c : ascii) (s : string) :
  JS.countFrom ";" (String c s) 0 =
    (if Ascii.eqb ";" c then 1 else 0) + JS.countFrom ";" s 0.
Proof.
  cbn [JS.countFrom String.prefix String.length Nat.sub].
  destruct (ascii_dec ";" c) as [<-|Hne].
  - destruct s; reflexivity.
  - apply Ascii.eqb_neq in Hne. rewrite Hne. reflexivity.
Qed.

Lemma space_not_semi (c : ascii) : JS.isSpace c = true -> Ascii.eqb ";" c = false.
Proof.
  intros Hc. destruct (Ascii.eqb ";" c) eqn:E; [|reflexivity].
  apply Ascii.eqb_eq in E. subst c. discriminate Hc.
Qed.

Lemma count_semi_trimStart (s : string) :
  JS.countFrom ";" (JS.trimStart s) 0 <= JS.countFrom ";" s 0.
Proof.
  induction s as [|c s IH]; [reflexivity|].
  cbn [JS.trimStart]. destruct (JS.isSpace c) eqn:Hc; [|reflexivity].
  rewrite count_semi_cons, (space_not_semi _ Hc). exact IH.
Qed.

Lemma count_semi_trimEnd (s : string) :
  JS.countFrom ";" (JS.trimEnd s) 0 <= JS.countFrom ";" s 0.
Proof.
  induction s as [|c s IH]; [reflexivity|].
  cbn [JS.trimEnd]. rewrite count_semi_cons.
  destruct (JS.trimEnd s) as [|d t] eqn:Et.
  - destruct (JS.isSpace c) eqn:Hc.
    + cbn. lia.
    + rewrite count_semi_cons. cbn [JS.countFrom]. lia.
  - rewrite count_semi_cons. lia.
Qed.

Lemma count_semi_trim (s : string) :
  JS.countMatches ";" (JS.trim s) <= JS.countMatches ";" s.
Proof.
  unfold JS.countMatches, JS.trim.
  etransitivity; [apply count_semi_trimEnd|apply count_semi_trimStart].
Qed.

Lemma find_none_filter {A} (p : A -> bool) (l : list A) :
  List.find p l = None <-> List.filter p l = [].
Proof.
  induction l as [|x l IH]; [tauto|].
  cbn. destruct (p x); [split; discriminate|exact IH].
Qed.

(** The guard passes exactly when there is no semicolon and no verb. *)
Lemma preflightGuard_ok (s : string) :
  preflightGuard s = Ok tt <->
  JS.countMatches ";" s = 0 /\
  List.filter (fun rx => Policy.test rx s) Policy.DISALLOWED = [].
Proof.
  unfold preflightGuard. rewrite <- find_none_filter.
  destruct (JS.countMatches ";" s) as [|n]; cbn [Nat.ltb Nat.leb].
  - destruct (List.find _ _); split; intros H; try discriminate; auto.
    destruct H; discriminate.
  - split; [discriminate|]. intros [H _]. discriminate.
Qed.

(** The scan reports ok exactly when none of its three checks fires. *)
Lemma syntaxScan_ok (s : string) :
  ok (syntaxScan s) = true <->
  ((1 <? JS.countMatches ";" (JS.trim s))%nat
     || ((JS.countMatches ";" (JS.trim s) =? 1)%nat && negb (JS.endsWith (JS.trim s) ";"))
     = false) /\
  List.filter (fun rx => Policy.test rx s) Policy.DISALLOWED = [] /\
  JS.countMatches "/*" s = JS.countMatches "*/" s.
Proof.
  unfold syntaxScan. cbn [ok].
  destruct (_ || _) eqn:E1; cbn [app].
  - split; [discriminate|]. intros [H _]. discriminate.
  - destruct (List.filter _ _) as [|v vs] eqn:E2; cbn [map app].
    + destruct (JS.countMatches "/*" s =? JS.countMatches "*/" s)%nat eqn:E3; cbn [negb].
      * apply Nat.eqb_eq in E3. tauto.
      * apply Nat.eqb_neq in E3. split; [discriminate|]. tauto.
    + split; [discriminate|]. intros [_ [H _]]. discriminate.
Qed.

(** C2 (amended).  The two checks share the verb list but differ on
    semicolons and comments: the preflight guard rejects every semicolon
    and does not look at comments, the syntax scan tolerates one trailing
    semicolon and requires as many comment openers as closers.  They agree
    on SQL without semicolon whose comment delimiters are balanced. *)
Theorem preflight_and_syntaxScan (s : string) :
  preflightGuard s = Ok tt /\ JS.countMatches "/*" s = JS.countMatches "*/" s <->
  ok (syntaxScan s) = true /\ JS.countMatches ";" s = 0.
Proof.
  rewrite preflightGuard_ok, syntaxScan_ok. split.
  - intros [[Hsemi Hverbs] Hbal]. repeat split; try assumption.
    pose proof (count_semi_trim s) as Hle.
    assert (Hz : JS.countMatches ";" (JS.trim s) = 0) by lia.
    rewrite Hz. reflexivity.
  - intros [[_ [Hverbs Hbal]] Hsemi]. repeat split; assumption.
Qed.

(** C2, counterexample: one trailing semicolon passes the syntax scan and
    is rejected by the preflight guard. *)
Lemma trailing_semicolon_splits_the_checks :
  ok (syntaxScan "SELECT 1;") = true /\
  preflightGuard "SELECT 1;" = Throw EMultiStatement.
Proof. split; reflexivity. Qed.

(** The other direction fails as well: an unclosed comment passes the
    guard and fails the scan. *)
Example unclosed_comment_splits_the_checks :
  preflightGuard "SELECT 1 /* note" = Ok tt /\
  ok (syntaxScan "SELECT 1 /* note") = false.
Proof. split; reflexivity. Qed.

Example verbs_are_word_bounded :
  Policy.test "DROP" "select dropped from t" = false /\
  Policy.test "DROP" "select 1; drop table t" = true /\
  Policy.test "GET" "SELECT get_x, (Get) FROM t" = true.
Proof. repeat split; reflexivity. Qed.

End PolicyFacts.

(** ** Circuit breaker *)

Module BreakerFacts.
Import Snowflake.











(** A warehouse that fails every statement, one second per attempt. *)
Definition failing (k : nat) : Attempt :=
  {| acquires := true;
     t_acquire := Z.of_nat k * 1000;
     t_tag := Z.of_nat k * 1000;
     tagError := None;
     t_statement := Z.of_nat k * 1000 + 1;
     outcome := DriverErr "invalid identifier 'FOO'";
     t_done := Z.of_nat k * 1000 + 500 |}.


Definition defaults : ExecOptions :=
  {| timeoutMs := None; rowLimit := None; attempts := None;
     enforceLimit := false; queryTag := None |}.

Definition openBreaker : Breaker := {| consecutiveFailures := 3; trippedUntil := 63500 |}.



(** Three failures in a row, counted from zero, open the breaker. *)
Example three_failures_open :
  execWithRetry failing "SELECT 1" defaults 0 breaker0
    = (Throw (EDriver "invalid identifier 'FOO'"),
       {| consecutiveFailures := 3; trippedUntil := 63500 |},
       [Acquired 1000 breaker0;
        Statement 1001 breaker0 "SELECT 1";
        Acquired 2000 {| consecutiveFailures := 1; trippedUntil := 0 |};
        Statement 2001 {| consecutiveFailures := 1; trippedUntil := 0 |} "SELECT 1";
        Acquired 3000 {| consecutiveFailures := 2; trippedUntil := 0 |};
        Statement 3001 {| consecutiveFailures := 2; trippedUntil := 0 |} "SELECT 1"]).
Proof. reflexivity. Qed.


End BreakerFacts.

(** ** Fuzzy column match *)

Module RepairFacts.
Import Repair.

(** Every name the search loop compares the needle with, in loop order. *)
Definition dimensionCandidates (d : DimensionRaw) : list string :=
  dim_name d :: default [] (dim_aliases d).

Definition entityCandidates (ent : EntityJson) : list string :=
  flat_map dimensionCandidates (dimensions ent) ++ map td_name (time_dimensions ent).

Definition candidates (registry : Registry) : list string :=
  flat_map (fun en => entityCandidates en.2) registry.

Definition distance (needle c : string) : nat := levenshtein needle (normalize c).

(** [best] holds a smallest distance among the names seen so far. *)
Definition smallest (needle : string) (seen : list string) (best : option Best) : Prop :=
  match best with
  | None => seen = []
  | Some bst =>
      (exists c, In c seen /\ score bst = distance needle c) /\
      (forall c, In c seen -> score bst <= distance needle c)
  end.

Lemma consider_smallest needle ename fname seen best c :
  smallest needle seen best ->
  smallest needle (seen ++ [c]) (consider needle ename fname best c).
Proof.
  unfold smallest, consider. fold (distance needle c).
  destruct best as [bst|].
  - intros [[c0 [Hin Heq]] Hmin].
    destruct (distance needle c <? score bst)%nat eqn:E.
    + apply Nat.ltb_lt in E. cbn [score]. split.
      * exists c. split; [apply in_or_app; right; left; reflexivity|reflexivity].
      * intros c' Hc'. apply in_app_or in Hc' as [Hc'|[<-|[]]]; [|lia].
        specialize (Hmin _ Hc'). lia.
    + apply Nat.ltb_ge in E. split.
      * exists c0. split; [apply in_or_app; left; assumption|assumption].
      * intros c' Hc'. apply in_app_or in Hc' as [Hc'|[<-|[]]]; [auto|lia].
  - intros ->. cbn [score app]. split.
    + exists c. split; [left; reflexivity|reflexivity].
    + intros c' [<-|[]]. lia.
Qed.

Lemma fold_consider_smallest needle ename fname (cs : list string) :
  forall seen best,
    smallest needle seen best ->
    smallest needle (seen ++ cs) (fold_left (consider needle ename fname) cs best).
Proof.
  induction cs as [|c cs IH]; intros seen best H; cbn [fold_left].
  - rewrite app_nil_r. exact H.
  - replace (seen ++ c :: cs) with ((seen ++ [c]) ++ cs)
      by (rewrite <- app_assoc; reflexivity).
    apply IH, consider_smallest, H.
Qed.

Lemma fold_dimensions_smallest needle ename (ds : list DimensionRaw) :
  forall seen best,
    smallest needle seen best ->
    smallest needle (seen ++ flat_map dimensionCandidates ds)
             (fold_left (scanDimension needle ename) ds best).
Proof.
  induction ds as [|d ds IH]; intros seen best H; cbn [fold_left flat_map].
  - rewrite app_nil_r. exact H.
  - rewrite app_assoc. apply IH. unfold scanDimension.
    apply fold_consider_smallest, H.
Qed.

Lemma fold_times_smallest needle ename (tds : list TimeDimensionRaw) :
  forall seen best,
    smallest needle seen best ->
    smallest needle (seen ++ map td_name tds)
             (fold_left (fun bst td => consider needle ename (td_name td) bst (td_name td))
                        tds best).
Proof.
  induction tds as [|td tds IH]; intros seen best H; cbn [fold_left map].
  - rewrite app_nil_r. exact H.
  - replace (seen ++ td_name td :: map td_name tds)
      with ((seen ++ [td_name td]) ++ map td_name tds)
      by (rewrite <- app_assoc; reflexivity).
    apply IH, consider_smallest, H.
Qed.

Lemma fold_entities_smallest needle (reg : Registry) :
  forall seen best,
    smallest needle seen best ->
    smallest needle (seen ++ candidates reg) (fold_left (scanEntity needle) reg best).
Proof.
  induction reg as [|[ename ent] reg IH]; intros seen best H.
  - cbn. rewrite app_nil_r. exact H.
  - cbn [fold_left]. unfold candidates. cbn [flat_map]. fold (candidates reg).
    rewrite app_assoc. apply IH. unfold scanEntity, entityCandidates. cbn [snd].
    rewrite app_assoc. apply fold_times_smallest, fold_dimensions_smallest, H.
Qed.

(** The search loop returns a candidate at the smallest distance. *)
Lemma bestCandidate_smallest needle reg :
  smallest needle (candidates reg) (bestCandidate needle reg).
Proof. apply (fold_entities_smallest needle reg [] None). reflexivity. Qed.

(** C4 (amended).  A fuzzy match is accepted exactly when some candidate
    name, hence the best one, lies within edit distance
    max(3, ceil(0.3 len)) of the normalised identifier: the code accepts
    when the distance is at most 3 or at most ceil(0.3 len). *)
Theorem bestColumnMatch_threshold (target : string) (registry : Registry) :
  bestColumnMatch target registry <> None <->
  exists c, In c (candidates registry) /\
            distance (normalize target) c
              <= Nat.max 3 (ceil30 (String.length (normalize target))).
Proof.
  unfold bestColumnMatch.
  pose proof (bestCandidate_smallest (normalize target) registry) as Hb.
  destruct (bestCandidate (normalize target) registry) as [bst|]; cbn [smallest] in Hb.
  - destruct Hb as [[c0 [Hin Heq]] Hmin].
    destruct ((score bst <=? 3)%nat || (score bst <=? ceil30 _)%nat) eqn:E.
    + split; [intros _|discriminate].
      exists c0. split; [assumption|]. rewrite <- Heq.
      apply orb_true_iff in E as [E|E]; apply Nat.leb_le in E; lia.
    + apply orb_false_iff in E as [E1 E2].
      apply Nat.leb_gt in E1. apply Nat.leb_gt in E2.
      split; [congruence|]. intros [c [Hc Hd]]. specialize (Hmin _ Hc). lia.
  - split; [congruence|]. intros [c [Hc _]]. rewrite Hb in Hc. destruct Hc.
Qed.

(** C4, counterexample: the identifier [x] has length 1, so
    min(3, ceil(0.3 len)) is 1; the best candidate [id] is at distance 2
    and is accepted all the same. *)
Lemma match_accepted_beyond_min :
  bestColumnMatch "x" Fixtures.registry = Some ("companies", "id") /\
  option_map score (bestCandidate (normalize "x") Fixtures.registry) = Some 2 /\
  ~ 2 <= Nat.min 3 (ceil30 (String.length (normalize "x"))).
Proof. vm_compute. repeat split. lia. Qed.

Example levenshtein_examples :
  levenshtein "kitten" "sitting" = 3 /\ levenshtein "" "abc" = 3 /\
  levenshtein "abc" "" = 3 /\ levenshtein "flaw" "lawn" = 2 /\
  levenshtein "account_tier" "account_tier" = 0.
Proof. repeat split; reflexivity. Qed.

Example normalize_example :
  normalize (JS.dquote +:+ "Account_Tier" +:+ JS.dquote +:+ " ") = "account_tier".
Proof. reflexivity. Qed.

End RepairFacts.

(** ** Result cache *)

Module CacheFacts.
Import Snowflake Execute.

Lemma cache_get_set (c : QueryCache) (k : string) (v : CacheEntry) :
  cache_get (cache_set c k v) k = Some v.
Proof.
  induction c as [|[k' v'] c IH]; cbn.
  - rewrite String.eqb_refl. reflexivity.
  - destruct (String.eqb k' k) eqn:E; cbn; rewrite E; [reflexivity|exact IH].
Qed.

Lemma cache_get_filter (p : string * CacheEntry -> bool) (c : QueryCache) k v :
  cache_get c k = Some v -> p (k, v) = true ->
  cache_get (List.filter p c) k = Some v.
Proof.
  induction c as [|[k' v'] c IH]; cbn; [discriminate|].
  intros Hget Hp. destruct (String.eqb k' k) eqn:E.
  - apply String.eqb_eq in E. subst k'. injection Hget as ->.
    rewrite Hp. cbn. rewrite String.eqb_refl. reflexivity.
  - destruct (p (k', v')); cbn; [rewrite E|]; auto.
Qed.

Lemma filter_length_le {A} (p : A -> bool) (l : list A) :
  List.length (List.filter p l) <= List.length l.
Proof. induction l as [|x l IH]; cbn; [lia|]. destruct (p x); cbn; lia. Qed.

(** Below the size cap, cleaning keeps every entry that has not expired. *)
Lemma clean_keeps_fresh (now : Z) (c : QueryCache) k v :
  List.length c <= CACHE_MAX_SIZE ->
  cache_get c k = Some v ->
  (now - cachedAt v <= CACHE_MAX_AGE_MS)%Z ->
  cache_get (cleanExpiredCache now c) k = Some v.
Proof.
  intros Hsize Hget Hage. unfold cleanExpiredCache.
  set (p := fun kv : string * CacheEntry => negb (CACHE_MAX_AGE_MS <? now - cachedAt kv.2)%Z).
  pose proof (filter_length_le p c) as Hle.
  destruct (CACHE_MAX_SIZE <? List.length (List.filter p c))%nat eqn:E.
  - apply Nat.ltb_lt in E. lia.
  - apply cache_get_filter; [assumption|].
    unfold p. cbn [snd]. apply negb_true_iff, Z.ltb_ge. assumption.
Qed.

Section Tool.
Variable tryExec : string -> result ExecResult.
Variable attemptRepair : string -> error -> result (option RepairResult).
Variable messageOf : error -> string.

(** A miss that ends in success stores what it returns. *)
Lemma executeMiss_stores clock cache sql r cache' :
  executeMiss tryExec attemptRepair messageOf clock cache sql = (Ok r, cache') ->
  r_ok r = None ->
  exists res attempted repaired why,
    r = success res attempted repaired why /\
    cache' = cache_set cache sql (entryOf res (t_store clock)).
Proof.
  unfold executeMiss. intros H Hok.
  repeat match type of H with
         | (match ?x with _ => _ end) = _ => destruct x eqn:?
         | (let '(_, _) := ?x in _) = _ => destruct x eqn:?
         end;
    try discriminate;
    injection H as <- <-;
    try discriminate Hok;
    eauto 10.
Qed.

Lemma execute_miss_stores clock cache sql r cache' :
  execute tryExec attemptRepair messageOf clock cache sql = (Ok r, cache') ->
  r_ok r = None -> r_fromCache r = None ->
  exists res attempted repaired why,
    r = success res attempted repaired why /\
    cache_get cache' sql = Some (entryOf res (t_store clock)).
Proof.
  unfold execute. intros H Hok Hmiss.
  destruct (cache_get _ sql) as [cached|].
  - destruct (_ <? _)%Z.
    + injection H as <- <-. discriminate Hmiss.
    + apply executeMiss_stores in H as (res & a & rp & why & -> & ->); [|assumption].
      exists res, a, rp, why. split; [reflexivity|apply cache_get_set].
  - apply executeMiss_stores in H as (res & a & rp & why & -> & ->); [|assumption].
    exists res, a, rp, why. split; [reflexivity|apply cache_get_set].
Qed.
End Tool.

Lemma cache_get_delete_other (c : QueryCache) (k k0 : string) :
  k0 <> k -> cache_get (cache_delete c k) k0 = cache_get c k0.
Proof.
  intros Hne. induction c as [|[k' v] c IH]; [reflexivity|].
  unfold cache_delete in *. cbn [List.filter fst].
  destruct (String.eqb k' k) eqn:E; cbn [negb cache_get].
  - apply String.eqb_eq in E. subst k'.
    rewrite (proj2 (String.eqb_neq k k0)) by congruence. exact IH.
  - rewrite IH. reflexivity.
Qed.

Definition keys (c : QueryCache) : list string := map fst c.

Lemma keys_filter_In (p : string * CacheEntry -> bool) (c : QueryCache) k :
  In k (keys (List.filter p c)) -> In k (keys c).
Proof.
  unfold keys. rewrite !in_map_iff. intros (x & <- & Hx).
  apply filter_In in Hx as [Hx _]. eauto.
Qed.

Lemma keys_filter_NoDup (p : string * CacheEntry -> bool) (c : QueryCache) :
  NoDup (keys c) -> NoDup (keys (List.filter p c)).
Proof.
  induction c as [|[k v] c IH]; cbn [keys map List.filter]; [auto|].
  intros H. apply NoDup_cons in H as [Hk Hc]. fold (keys c) in *.
  destruct (p (k, v)); [|exact (IH Hc)].
  cbn [map]. fold (keys (List.filter p c)). apply NoDup_cons. split; [|exact (IH Hc)].
  intros Hin. apply Hk. apply list_elem_of_In. apply list_elem_of_In in Hin.
  eapply keys_filter_In, Hin.
Qed.

Lemma insertByAge_perm x (l : QueryCache) : Permutation (insertByAge x l) (x :: l).
Proof.
  induction l as [|y l IH]; [reflexivity|].
  cbn [insertByAge]. destruct (_ <? _)%Z; [|reflexivity]. rewrite IH. apply perm_swap.
Qed.

Lemma sortByAge_perm (c : QueryCache) : Permutation (sortByAge c) c.
Proof.
  induction c as [|x c IH]; [reflexivity|].
  cbn [sortByAge fold_right]. fold (sortByAge c). rewrite insertByAge_perm, IH. reflexivity.
Qed.

Lemma firstn_incl {A} (n : nat) (l : list A) x : In x (firstn n l) -> In x l.
Proof.
  revert n. induction l as [|y l IH]; intros [|n]; cbn [firstn In]; try tauto.
  intros [H|H]; [left; exact H|right; exact (IH n H)].
Qed.

(** *** Which entries the size limit removes *)

Definition fresh (now : Z) (kv : string * CacheEntry) : bool :=
  negb (CACHE_MAX_AGE_MS <? now - cachedAt kv.2)%Z.

(** [x] comes before [y] in the [Map]. *)
Definition precedes (c : QueryCache) (x y : string * CacheEntry) : Prop :=
  exists l1 l2, c = l1 ++ x :: l2 /\ In y l2.

(** [x] is removed before [y]: it is older, or as old and earlier in the
    [Map]. *)
Definition removedBefore (c : QueryCache) (x y : string * CacheEntry) : Prop :=
  (cachedAt x.2 < cachedAt y.2)%Z \/ (cachedAt x.2 = cachedAt y.2 /\ precedes c x y).

Fixpoint inOrder (R : string * CacheEntry -> string * CacheEntry -> Prop) (l : QueryCache)
  : Prop :=
  match l with
  | [] => True
  | x :: l' => (forall y, In y l' -> R x y) /\ inOrder R l'
  end.

Lemma inOrder_weaken (R R' : string * CacheEntry -> string * CacheEntry -> Prop) l :
  (forall x y, R x y -> R' x y) -> inOrder R l -> inOrder R' l.
Proof.
  intros HR. induction l as [|x l IH]; cbn [inOrder]; [auto|].
  intros [Hx Hl]. split; [intros y Hy; apply HR, Hx, Hy|exact (IH Hl)].
Qed.

Lemma inOrder_split R l1 x l2 :
  inOrder R (l1 ++ x :: l2) -> forall y, In y l2 -> R x y.
Proof.
  induction l1 as [|z l1 IH]; cbn [app inOrder]; intros [Hx Hl]; [exact Hx|exact (IH Hl)].
Qed.

Lemma precedes_cons a c x y : precedes c x y -> precedes (a :: c) x y.
Proof. intros (l1 & l2 & -> & Hy). exists (a :: l1), l2. split; [reflexivity|exact Hy]. Qed.

Lemma removedBefore_cons a c x y : removedBefore c x y -> removedBefore (a :: c) x y.
Proof. intros [H|[H Hp]]; [left; exact H|right; split; [exact H|apply precedes_cons, Hp]]. Qed.

Lemma removedBefore_age c x y : removedBefore c x y -> (cachedAt x.2 <= cachedAt y.2)%Z.
Proof. intros [H|[H _]]; lia. Qed.

Lemma insertByAge_In x l y : In y (insertByAge x l) -> y = x \/ In y l.
Proof.
  intros H. apply (Permutation_in _ (insertByAge_perm x l)) in H.
  destruct H as [<-|H]; auto.
Qed.

(** The sort is stable: it lists the entries in the order of removal. *)
Lemma insertByAge_inOrder a c s :
  inOrder (removedBefore (a :: c)) s -> (forall z, In z s -> In z c) ->
  inOrder (removedBefore (a :: c)) (insertByAge a s).
Proof.
  induction s as [|y l IH]; cbn [inOrder insertByAge]; intros Hs Hin.
  - split; [intros z []|exact I].
  - destruct Hs as [Hy Hl]. destruct (cachedAt y.2 <? cachedAt a.2)%Z eqn:E.
    + apply Z.ltb_lt in E. cbn [inOrder]. split.
      * intros z Hz. apply insertByAge_In in Hz as [->|Hz]; [left; exact E|exact (Hy z Hz)].
      * apply IH; [exact Hl|]. intros z Hz. apply Hin. right. exact Hz.
    + apply Z.ltb_ge in E. cbn [inOrder]. split; [|split; [exact Hy|exact Hl]].
      intros z Hz.
      assert (Hage : (cachedAt a.2 <= cachedAt z.2)%Z).
      { destruct Hz as [<-|Hz]; [exact E|].
        pose proof (removedBefore_age _ _ _ (Hy z Hz)). lia. }
      destruct (Z.eq_dec (cachedAt a.2) (cachedAt z.2)) as [Heq|Hne]; [|left; lia].
      right. split; [exact Heq|]. exists [], c. split; [reflexivity|]. apply Hin, Hz.
Qed.

Lemma sortByAge_inOrder (c : QueryCache) : inOrder (removedBefore c) (sortByAge c).
Proof.
  induction c as [|a c IH]; [exact I|].
  change (sortByAge (a :: c)) with (insertByAge a (sortByAge c)).
  apply insertByAge_inOrder.
  - eapply inOrder_weaken; [|exact IH]. intros x y. apply removedBefore_cons.
  - intros z Hz. exact (Permutation_in _ (sortByAge_perm c) Hz).
Qed.

(** The unexpired entries that the size limit removes after the entry
    of [sql], stored at [age]: those stored later, and those stored at
    the same time that come later in the [Map]. *)
Fixpoint outlasting (now : Z) (sql : string) (age : Z) (c : QueryCache) : QueryCache :=
  match c with
  | [] => []
  | (k, v) :: c' =>
      if String.eqb k sql
      then List.filter (fun kv => fresh now kv && (age <=? cachedAt kv.2)%Z) c'
      else (if fresh now (k, v) && (age <? cachedAt v)%Z then [(k, v)] else [])
           ++ outlasting now sql age c'
  end.

Lemma In_keys (c : QueryCache) k v : In (k, v) c -> In k (keys c).
Proof. intros H. unfold keys. apply in_map_iff. exists (k, v). split; [reflexivity|exact H]. Qed.

Lemma cache_get_In (c : QueryCache) k v : cache_get c k = Some v -> In (k, v) c.
Proof.
  induction c as [|[k' v'] c IH]; cbn [cache_get]; [discriminate|].
  destruct (String.eqb k' k) eqn:E.
  - apply String.eqb_eq in E. intros [= ->]. subst k'. left. reflexivity.
  - intros H. right. exact (IH H).
Qed.

Lemma In_cache_get (c : QueryCache) k v :
  NoDup (keys c) -> In (k, v) c -> cache_get c k = Some v.
Proof.
  induction c as [|[k' v'] c IH]; cbn [keys map fst In cache_get]; [intros _ []|].
  fold (keys c). intros Hnd Hin. apply NoDup_cons in Hnd as [Hk Hnd].
  destruct Hin as [[= -> ->]|Hin]; [rewrite String.eqb_refl; reflexivity|].
  destruct (String.eqb k' k) eqn:E; [|exact (IH Hnd Hin)].
  apply String.eqb_eq in E. subst k'. exfalso. apply Hk, list_elem_of_In, (In_keys _ _ _ Hin).
Qed.

Lemma precedes_filter (p : string * CacheEntry -> bool) (c : QueryCache) x y :
  precedes (List.filter p c) x y -> precedes c x y.
Proof.
  induction c as [|a c IH]; cbn [List.filter].
  - intros (l1 & l2 & H & _). destruct l1; discriminate H.
  - destruct (p a).
    + intros (l1 & l2 & H & Hy). destruct l1 as [|b l1]; cbn [app] in H.
      * injection H as <- <-. exists [], c. split; [reflexivity|].
        apply filter_In in Hy as [Hy _]. exact Hy.
      * injection H as <- H. apply precedes_cons, IH. exists l1, l2. auto.
    + intros H. apply precedes_cons, IH, H.
Qed.

Lemma outlasting_In now sql age (c : QueryCache) E y :
  NoDup (keys c) -> In y c -> fresh now y = true -> y.1 <> sql ->
  cachedAt E = age ->
  removedBefore c (sql, E) y ->
  In y (outlasting now sql age c).
Proof.
  intros Hnd Hy Hf Hne Hage. subst age.
  induction c as [|[k v] c IH]; [destruct Hy|].
  cbn [keys map fst] in Hnd. fold (keys c) in Hnd. apply NoDup_cons in Hnd as [Hk Hnd].
  intros HR. cbn [outlasting]. destruct (String.eqb k sql) eqn:Ek.
  - apply String.eqb_eq in Ek. subst k.
    destruct Hy as [<-|Hy]; [cbn [fst] in Hne; congruence|].
    apply filter_In. split; [exact Hy|]. rewrite Hf. cbn [andb].
    apply Z.leb_le. exact (removedBefore_age _ _ _ HR).
  - apply String.eqb_neq in Ek. apply in_or_app.
    assert (Htail : precedes ((k, v) :: c) (sql, E) y -> precedes c (sql, E) y /\ In y c).
    { intros (l1 & l2 & H & Hy2). destruct l1 as [|b l1]; cbn [app] in H.
      - injection H as H _. congruence.
      - injection H as _ H. split; [exists l1, l2; auto|].
        rewrite H. apply in_or_app. right. right. exact Hy2. }
    destruct Hy as [<-|Hy].
    + left. destruct HR as [Hlt|[Heq Hp]].
      * rewrite Hf. cbn [snd] in Hlt. apply Z.ltb_lt in Hlt. rewrite Hlt. left. reflexivity.
      * exfalso. apply Htail in Hp as [_ Hin]. apply Hk, list_elem_of_In, (In_keys _ _ _ Hin).
    + right. apply IH; [exact Hnd|exact Hy|].
      destruct HR as [Hlt|[Heq Hp]]; [left; exact Hlt|right].
      split; [exact Heq|]. exact (proj1 (Htail Hp)).
Qed.

Lemma fold_delete_other (rm : QueryCache) k :
  (forall kv, In kv rm -> kv.1 <> k) ->
  forall c, cache_get (fold_left (fun acc kv => cache_delete acc kv.1) rm c) k = cache_get c k.
Proof.
  induction rm as [|kv rm IH]; intros H c; cbn [fold_left]; [reflexivity|].
  rewrite IH by (intros kv' Hkv'; apply H; right; exact Hkv').
  apply cache_get_delete_other. intros ->. exact (H kv (or_introl eq_refl) eq_refl).
Qed.

Lemma NoDup_keys_entries (c : QueryCache) : NoDup (keys c) -> NoDup c.
Proof. unfold keys. apply (NoDup_fmap_1 fst). Qed.

(** An unexpired entry survives the cleaning when fewer than a hundred
    entries are removed after it. *)
Lemma clean_keeps (now : Z) (c : QueryCache) sql E :
  NoDup (keys c) ->
  cache_get c sql = Some E ->
  (now - cachedAt E <= CACHE_MAX_AGE_MS)%Z ->
  List.length (outlasting now sql (cachedAt E) c) < CACHE_MAX_SIZE ->
  cache_get (cleanExpiredCache now c) sql = Some E.
Proof.
  intros Hnd Hget Hage Hcount. unfold cleanExpiredCache. fold (fresh now).
  set (c1 := List.filter (fresh now) c).
  assert (HfE : fresh now (sql, E) = true).
  { unfold fresh. cbn [snd]. apply negb_true_iff, Z.ltb_ge, Hage. }
  assert (Hget1 : cache_get c1 sql = Some E) by (apply cache_get_filter; assumption).
  assert (Hnd1 : NoDup (keys c1)) by (apply keys_filter_NoDup, Hnd).
  destruct (CACHE_MAX_SIZE <? List.length c1)%nat eqn:Eover; [|exact Hget1].
  apply Nat.ltb_lt in Eover.
  rewrite fold_delete_other; [exact Hget1|].
  intros [k v] Hkv Hk. cbn [fst] in Hk. subst k.
  set (s := sortByAge c1) in *. set (r := List.length c1 - CACHE_MAX_SIZE) in *.
  assert (Hs : Permutation s c1) by apply sortByAge_perm.
  assert (Hnds : NoDup (keys s)) by (unfold keys; rewrite Hs; exact Hnd1).
  assert (v = E).
  { apply firstn_incl in Hkv. apply (Permutation_in _ Hs) in Hkv.
    pose proof (In_cache_get _ _ _ Hnd1 Hkv). congruence. }
  subst v.
  destruct (in_split _ _ Hkv) as (u1 & u2 & Hu).
  assert (Hsplit : s = u1 ++ (sql, E) :: (u2 ++ skipn r s)).
  { rewrite <- (firstn_skipn r s) at 1. rewrite Hu, <- List.app_assoc. reflexivity. }
  assert (Hlen : List.length (skipn r s) = CACHE_MAX_SIZE).
  { rewrite length_skipn, (Permutation_length Hs). unfold r. lia. }
  assert (Hsub : forall y, In y (skipn r s) -> In y (outlasting now sql (cachedAt E) c)).
  { intros y Hy.
    assert (Hys : In y s) by (rewrite <- (firstn_skipn r s); apply in_or_app; right; exact Hy).
    assert (Hy1 : In y c1) by exact (Permutation_in _ Hs Hys).
    apply filter_In in Hy1 as [Hyc Hyf].
    apply (outlasting_In now sql (cachedAt E) c E y Hnd Hyc Hyf); [|reflexivity|].
    - intros Hk. rewrite Hsplit in Hnds. unfold keys in Hnds.
      rewrite map_app in Hnds. apply NoDup_app in Hnds as (_ & _ & Hnds).
      cbn [map fst] in Hnds. apply NoDup_cons in Hnds as [Hnot _].
      apply Hnot, list_elem_of_In. rewrite map_app. apply in_or_app. right.
      apply in_map_iff. exists y. split; [exact Hk|exact Hy].
    - pose proof (sortByAge_inOrder c1) as Hord. fold s in Hord. rewrite Hsplit in Hord.
      pose proof (inOrder_split _ _ _ _ Hord y ltac:(apply in_or_app; right; exact Hy)) as HR.
      destruct HR as [Hlt|[Heq Hp]]; [left; exact Hlt|right].
      split; [exact Heq|]. apply (precedes_filter (fresh now)), Hp. }
  assert (Hnd2 : NoDup (skipn r s)).
  { apply NoDup_keys_entries in Hnds. rewrite <- (firstn_skipn r s) in Hnds.
    apply NoDup_app in Hnds as (_ & _ & Hnds). exact Hnds. }
  assert (List.length (skipn r s) <= List.length (outlasting now sql (cachedAt E) c)).
  { apply submseteq_length, NoDup_submseteq; [exact Hnd2|].
    intros y Hy. apply list_elem_of_In, Hsub, list_elem_of_In, Hy. }
  lia.
Qed.

(** C5 (amended).  When an execution of [sql] missed the cache and
    succeeded, and the same [sql] is executed again on a cache that still
    holds the entry stored then, while that entry is less than five
    minutes old and fewer than a hundred unexpired entries are due to be
    removed after it (those stored later, and those stored at the same
    time that come later in the [Map]), the second call is a cache hit
    that returns the rows, the columns and the query id of the first
    result.  The two objects are not equal as a whole: the hit carries
    [fromCache: true], has no [truncated], and reports the original SQL
    as attempted and not repaired. *)
Theorem cache_hit_returns_stored_result
    tryExec attemptRepair messageOf tryExec' attemptRepair' messageOf'
    (clock1 clock2 : Clock) (cache cache1 later : QueryCache) (sql : string)
    (r1 : ToolResult) :
  execute tryExec attemptRepair messageOf clock1 cache sql = (Ok r1, cache1) ->
  r_ok r1 = None -> r_fromCache r1 = None ->
  NoDup (keys later) ->
  cache_get later sql = cache_get cache1 sql ->
  (t_clean clock2 - t_store clock1 <= CACHE_MAX_AGE_MS)%Z ->
  (t_check clock2 - t_store clock1 < CACHE_MAX_AGE_MS)%Z ->
  List.length (outlasting (t_clean clock2) sql (t_store clock1) later) < CACHE_MAX_SIZE ->
  exists r2 cache2,
    execute tryExec' attemptRepair' messageOf' clock2 later sql = (Ok r2, cache2) /\
    r_rows r2 = r_rows r1 /\ r_columns r2 = r_columns r1 /\
    r_lastQueryId r2 = r_lastQueryId r1 /\
    r_fromCache r2 = Some true /\ r_truncated r2 = None /\
    r_attemptedSql r2 = sql /\ r_repaired r2 = false /\ r_repairReason r2 = Some None.
Proof.
  intros Hrun Hok Hmiss Hnd Hsame Hclean Hcheck Hcount.
  apply execute_miss_stores in Hrun as (res & a & rp & why & -> & Hget); try assumption.
  rewrite Hget in Hsame.
  pose proof (clean_keeps (t_clean clock2) later sql _ Hnd Hsame Hclean Hcount) as Hkept.
  unfold execute. rewrite Hkept. cbn [cachedAt entryOf].
  apply Z.ltb_lt in Hcheck. rewrite Hcheck.
  eexists _, _. split; [reflexivity|]. repeat split.
Qed.

(** A warehouse that answers one row. *)
Definition oneRow : ExecResult :=
  {| rows := [[("N", VNum 1)]]; columns := [{| col_name := "N"; col_type := "fixed" |}];
     lastQueryId := "q-1"; truncated := false |}.

Definition answers (_ : string) : result ExecResult := Ok oneRow.
Definition noRepair (_ : string) (_ : error) : result (option RepairResult) := Ok None.
Definition anyMessage (_ : error) : string := "error".

Definition at_ (t : Z) : Clock := {| t_clean := t; t_check := t; t_store := t |}.

(** A cache at its cap: a hundred entries stored at time 0. *)
Definition hundred : QueryCache :=
  map (fun i => ("SELECT " +:+ JS.ofNat i, entryOf oneRow 0)) (seq 1 100).

(** What a run of a new statement at time 1000 leaves of it: a hundred
    and one entries. *)
Definition overCap : QueryCache :=
  Eval vm_compute in
    (execute answers noRepair anyMessage (at_ 1000) hundred "SELECT 0").2.

Lemma cache_hit_returns_stored_result_witness :
  exists r2 cache2,
    execute answers noRepair anyMessage (at_ 2000) overCap "SELECT 0" = (Ok r2, cache2) /\
    r_rows r2 = Some (rows oneRow) /\ r_columns r2 = Some (columns oneRow) /\
    r_lastQueryId r2 = Some "q-1" /\
    r_fromCache r2 = Some true /\ r_truncated r2 = None /\
    r_attemptedSql r2 = "SELECT 0" /\ r_repaired r2 = false /\ r_repairReason r2 = Some None.
Proof.
  refine (cache_hit_returns_stored_result answers noRepair anyMessage
            answers noRepair anyMessage (at_ 1000) (at_ 2000) hundred overCap overCap
            "SELECT 0" (success oneRow "SELECT 0" false None) _ _ _ _ _ _ _ _).
  - vm_compute. reflexivity.
  - reflexivity.
  - reflexivity.
  - refine (bool_decide_unpack _ _). vm_compute. exact I.
  - reflexivity.
  - vm_compute. discriminate.
  - reflexivity.
  - vm_compute. lia.
Defined.

(** C5, counterexample: the same SQL, one second apart; the second call
    is a hit and its object differs from the object of the first call. *)
Lemma cache_hit_is_not_structurally_equal :
  let '(first, cache1) := execute answers noRepair anyMessage (at_ 0) [] "SELECT 1" in
  let '(second, _) := execute answers noRepair anyMessage (at_ 1000) cache1 "SELECT 1" in
  first = Ok (success oneRow "SELECT 1" false None) /\
  second = Ok (cacheHit (entryOf oneRow 0) "SELECT 1") /\
  first <> second.
Proof. vm_compute. repeat split. discriminate. Qed.

(** Why the hit needs fewer than a hundred entries to outlast the entry:
    with a hundred newer ones the size limit removes it, and the
    statement is run again. *)
Definition crowded : QueryCache :=
  ("SELECT 0", entryOf oneRow 0)
  :: map (fun i => ("SELECT " +:+ JS.ofNat i, entryOf oneRow 1)) (seq 1 100).

Example removed_entry_is_run_again :
  List.length (outlasting 2000 "SELECT 0" 0 crowded) = 100 /\
  cache_get (cleanExpiredCache 2000 crowded) "SELECT 0" = None /\
  (execute answers noRepair anyMessage (at_ 2000) crowded "SELECT 0").1
    = Ok (success oneRow "SELECT 0" false None).
Proof. vm_compute. repeat split. Qed.

End CacheFacts.

(** ** Semantic store *)

Module StoreFacts.
Import Store.

(** The invariants a loaded entity satisfies. *)
Definition joinsLocal (e : EntityJson) : Prop :=
  forall j, In j (joins e) ->
    exists d, In d (dimensions e) /\ dim_name d = jc_from j.

Definition metricsSourced (e : EntityJson) : Prop :=
  forall m, In m (metrics e) -> mt_type m = Atomic ->
    exists src, mt_source m = Some src /\
      (exists ms, In ms (measures e) /\ ms_name ms = src_measure src) /\
      (exists td, In td (time_dimensions e) /\ td_name td = src_anchor_date src).

Definition validated (e : EntityJson) : Prop := joinsLocal e /\ metricsSourced e.

Definition cacheValidated (c : EntityCache) : Prop :=
  forall n y e, c !! n = Some (y, e) -> validated e.

Lemma indexByName_fold {T} (nm : T -> string) (arr : list T) :
  forall (m : gmap string T) k,
    is_Some (fold_left (fun m x => <[nm x := x]> m) arr m !! k) <->
    is_Some (m !! k) \/ exists x, In x arr /\ nm x = k.
Proof.
  induction arr as [|x arr IH]; intros m k; cbn [fold_left].
  - split; [auto|]. intros [H|[x [[] _]]]. exact H.
  - rewrite IH. rewrite lookup_insert. cbn [In]. case_decide as E.
    + split; [intros _; right; exists x; auto|intros _; left; eauto].
    + split.
      * intros [H|[y [Hy Hk]]]; [auto|right; exists y; auto].
      * intros [H|[y [[->|Hy] Hk]]]; [auto|contradiction|right; exists y; auto].
Qed.

Lemma has_indexByName {T} (nm : T -> string) (arr : list T) k :
  has (indexByName nm arr) k = true <-> exists x, In x arr /\ nm x = k.
Proof.
  unfold has, indexByName.
  pose proof (indexByName_fold nm arr ∅ k) as H.
  destruct (fold_left _ arr ∅ !! k) as [v|] eqn:E.
  - split; [intros _|reflexivity].
    destruct (proj1 H (mk_is_Some _ _ eq_refl)) as [[? Hn]|Hx]; [|exact Hx].
    apply lookup_empty_Some in Hn. destruct Hn.
  - split; [discriminate|]. intros Hx.
    destruct (proj2 H (or_intror Hx)) as [? Hn]. discriminate.
Qed.

Lemma forEachM_ok {A} (f : A -> result unit) (l : list A) :
  forEachM f l = Ok tt -> forall x, In x l -> f x = Ok tt.
Proof.
  induction l as [|y l IH]; cbn; [intros _ x []|].
  destruct (f y) as [[]| |] eqn:E; cbn; try discriminate.
  intros H x [<-|Hx]; auto.
Qed.

Lemma forEachM_total {A} (f : A -> result unit) (l : list A) :
  (forall x, f x <> OutOfFuel) -> forEachM f l <> OutOfFuel.
Proof.
  intros Hf. induction l as [|y l IH]; cbn; [discriminate|].
  specialize (Hf y). destruct (f y) as [[]| |]; cbn; congruence.
Qed.

Lemma validateJoins_total raw ix : validateJoins raw ix <> OutOfFuel.
Proof.
  apply forEachM_total. intros j. destruct (has ix (jc_from j)); discriminate.
Qed.

Lemma validateMetricSources_total raw ix tds :
  validateMetricSources raw ix tds <> OutOfFuel.
Proof.
  apply forEachM_total. intros m.
  destruct (mt_type m); [|discriminate].
  destruct (mt_source m) as [src|]; [|discriminate].
  destruct (negb (has ix (src_measure src))); [discriminate|].
  destruct (negb (existsb _ tds)); [discriminate|].
  apply forEachM_total. intros f. destruct (JS.nonEmpty (f_field f)); discriminate.
Qed.

(** The structural validations never fail to return. *)
Lemma normalize_total raw : normalize raw <> OutOfFuel.
Proof.
  unfold normalize.
  pose proof (validateJoins_total raw (_dimIndex (assemble raw))) as H1.
  pose proof (validateMetricSources_total raw (_measureIndex (assemble raw))
                (map td_name (time_dimensions (assemble raw)))) as H2.
  destruct (validateJoins _ _) as [[]| |]; cbn; try congruence.
  destruct (validateMetricSources _ _ _) as [[]| |]; cbn; congruence.
Qed.

(** An entity that passes the validations satisfies the invariants. *)
Lemma normalize_validated raw e : normalize raw = Ok e -> validated e.
Proof.
  unfold normalize. intros H.
  destruct (validateJoins _ _) as [[]| |] eqn:Hj; cbn in H; try discriminate.
  destruct (validateMetricSources _ _ _) as [[]| |] eqn:Hm; cbn in H; try discriminate.
  injection H as <-. split.
  - intros j Hin. cbn [joins assemble] in Hin.
    apply (forEachM_ok _ _ Hj) in Hin.
    destruct (has _ (jc_from j)) eqn:E; [|discriminate].
    apply has_indexByName in E. exact E.
  - intros m Hin Hat. cbn [metrics assemble] in Hin.
    apply (forEachM_ok _ _ Hm) in Hin. rewrite Hat in Hin.
    destruct (mt_source m) as [src|]; [|discriminate].
    exists src. split; [reflexivity|].
    destruct (has _ (src_measure src)) eqn:E1; cbn [negb] in Hin; [|discriminate].
    destruct (existsb _ _) eqn:E2; cbn [negb] in Hin; [|discriminate].
    split.
    + apply has_indexByName in E1. exact E1.
    + apply existsb_exists in E2 as [n [Hn Heq]].
      apply in_map_iff in Hn as [td [<- Htd]].
      apply String.eqb_eq in Heq. exists td. split; [exact Htd|congruence].
Qed.

Lemma cacheValidated_empty : cacheValidated ∅.
Proof. intros n y e H. rewrite lookup_empty in H. discriminate. Qed.

Lemma cacheValidated_clear c nm : cacheValidated c -> cacheValidated (clearEntityCache c nm).
Proof.
  intros Hc. unfold clearEntityCache.
  destruct nm as [n|]; [|apply cacheValidated_empty].
  destruct (JS.nonEmpty n); [|apply cacheValidated_empty].
  intros k y e H. apply lookup_delete_Some in H as [_ H]. exact (Hc _ _ _ H).
Qed.

(** C8.  From a cache that holds validated entities only (the empty cache
    does, and loading and clearing keep it so), [loadEntityYaml] either
    returns a validated entity, now cached under that name in a cache
    that still holds validated entities only, or it throws and leaves the
    cache as it was. *)
Theorem loadEntityYaml_validated_or_unchanged
    (Doc : Type) (readFile : string -> option string)
    (yamlLoad : string -> option Doc) (safeParse : Doc -> option EntityYamlRaw)
    (entityCache : EntityCache) (nm : string) :
  cacheValidated entityCache ->
  match loadEntityYaml Doc readFile yamlLoad safeParse entityCache nm with
  | (Ok (n, y, e), cache') =>
      n = nm /\ validated e /\ cache' !! nm = Some (y, e) /\ cacheValidated cache'
  | (Throw _, cache') => cache' = entityCache
  | (OutOfFuel, _) => False
  end.
Proof.
  intros Hc. unfold loadEntityYaml.
  destruct (entityCache !! nm) as [[y e]|] eqn:Hhit.
  - cbn [fst snd]. split; [reflexivity|]. split; [exact (Hc _ _ _ Hhit)|].
    split; [exact Hhit|exact Hc].
  - destruct (readFile nm) as [raw|]; [|reflexivity].
    destruct (yamlLoad raw) as [doc|]; [|reflexivity].
    destruct (safeParse doc) as [entityRaw|]; [|reflexivity].
    pose proof (normalize_total entityRaw) as Htot.
    destruct (normalize entityRaw) as [e| |] eqn:Hn; [|reflexivity|congruence].
    pose proof (normalize_validated _ _ Hn) as Hv.
    split; [reflexivity|]. split; [exact Hv|].
    split; [apply lookup_insert_eq|].
    intros k y' e' Hk. rewrite lookup_insert in Hk. case_decide.
    + injection Hk as _ <-. exact Hv.
    + exact (Hc _ _ _ Hk).
Qed.

(** A file tree with one descriptor; the parser hands back the record. *)
Definition oneFile (n : string) : option string :=
  if String.eqb n "accounts" then Some "name: accounts" else None.

Definition parsed (_ : string) : option EntityYamlRaw := Some Fixtures.accountsRaw.

Lemma loadEntityYaml_validated_or_unchanged_witness :
  match loadEntityYaml EntityYamlRaw oneFile parsed Some ∅ "accounts" with
  | (Ok (n, y, e), cache') =>
      n = "accounts" /\ validated e /\ cache' !! "accounts" = Some (y, e)
      /\ cacheValidated cache'
  | (Throw _, cache') => cache' = ∅
  | (OutOfFuel, _) => False
  end.
Proof.
  apply (loadEntityYaml_validated_or_unchanged EntityYamlRaw oneFile parsed Some ∅ "accounts").
  apply cacheValidated_empty.
Defined.

(** A join on an undeclared dimension is refused and nothing is cached. *)
Definition brokenRaw : EntityYamlRaw :=
  Fixtures.descriptor "broken" "analytics.broken" [Fixtures.dim "id" "{CUBE}.id"] [] []
    [{| target_entity := "companies"; relationship := ManyToOne;
        jc_from := "company_id"; jc_to := "id" |}].

Example broken_join_not_cached :
  loadEntityYaml EntityYamlRaw (fun _ => Some "name: broken") (fun _ => Some brokenRaw) Some
                 ∅ "broken"
  = (Throw (EJoinInvalid "broken" "company_id"), ∅).
Proof. reflexivity. Qed.

Example accounts_load :
  (loadEntityYaml EntityYamlRaw oneFile parsed Some ∅ "accounts").1
  = Ok ("accounts", "name: accounts", Fixtures.accounts).
Proof. reflexivity. Qed.

End StoreFacts.

(** ** Strings: concatenation, containment, joins *)

Module StringFacts.

Lemma app_cons (x : ascii) (a b : string) : String x a +:+ b = String x (a +:+ b).
Proof. reflexivity. Qed.

Lemma app_nil_l (b : string) : EmptyString +:+ b = b.
Proof. reflexivity. Qed.

Lemma app_assoc (a b c : string) : (a +:+ b) +:+ c = a +:+ (b +:+ c).
Proof.
  induction a as [|x a IH]; [reflexivity|]. rewrite !app_cons. f_equal. exact IH.
Qed.

Lemma app_nil_r (a : string) : a +:+ EmptyString = a.
Proof. induction a as [|x a IH]; [reflexivity|]. rewrite app_cons. f_equal. exact IH. Qed.

Lemma prefix_app (p r : string) : String.prefix p (p +:+ r) = true.
Proof.
  induction p as [|x p IH]; [destruct r; reflexivity|].
  rewrite app_cons. cbn [String.prefix].
  destruct (ascii_dec x x); [exact IH|congruence].
Qed.

Lemma includes_app (pre x post : string) : JS.includes (pre +:+ x +:+ post) x = true.
Proof.
  induction pre as [|c pre IH].
  - rewrite app_nil_l. destruct (x +:+ post) eqn:E; cbn [JS.includes];
      rewrite <- E, prefix_app; reflexivity.
  - rewrite app_cons. cbn [JS.includes]. rewrite IH. apply orb_true_r.
Qed.


Lemma endsWith_app (a b : string) : JS.endsWith (a +:+ b) b = true.
Proof.
  induction a as [|c a IH].
  - rewrite app_nil_l. destruct b; cbn [JS.endsWith]; rewrite String.eqb_refl; reflexivity.
  - rewrite app_cons. cbn [JS.endsWith]. rewrite IH. apply orb_true_r.
Qed.

Lemma nonEmpty_app_r (a b : string) : JS.nonEmpty b = true -> JS.nonEmpty (a +:+ b) = true.
Proof. destruct a; [rewrite app_nil_l; auto|reflexivity]. Qed.

Lemma join_cons (sep x : string) (l : list string) :
  l <> [] -> JS.join sep (x :: l) = x +:+ sep +:+ JS.join sep l.
Proof. destruct l; [congruence|reflexivity]. Qed.

Lemma join_app (sep : string) (l1 l2 : list string) :
  l1 <> [] -> l2 <> [] ->
  JS.join sep (l1 ++ l2) = JS.join sep l1 +:+ sep +:+ JS.join sep l2.
Proof.
  intros H1 H2. induction l1 as [|x l1 IH]; [congruence|].
  destruct l1 as [|y l1].
  - cbn [app]. rewrite join_cons by assumption. reflexivity.
  - change ((x :: y :: l1) ++ l2) with (x :: ((y :: l1) ++ l2)).
    rewrite join_cons by discriminate. rewrite IH by discriminate.
    rewrite (join_cons sep x (y :: l1)) by discriminate.
    rewrite !app_assoc. reflexivity.
Qed.

(** A joined list starts with its first element. *)
Lemma join_head (sep x : string) (l : list string) :
  exists rest, JS.join sep (x :: l) = x +:+ rest.
Proof.
  destruct l as [|y l].
  - exists EmptyString. cbn. rewrite app_nil_r. reflexivity.
  - eexists. apply join_cons. discriminate.
Qed.

(** Every element of a list occurs in the joined string. *)
Lemma join_includes (sep x : string) (l : list string) :
  In x l -> exists pre post, JS.join sep l = pre +:+ x +:+ post.
Proof.
  induction l as [|y l IH]; [intros []|].
  intros [->|Hin].
  - destruct (join_head sep x l) as [rest ->]. exists EmptyString, rest. reflexivity.
  - destruct (IH Hin) as (pre & post & E).
    rewrite join_cons by (intros ->; destruct Hin).
    rewrite E. exists (y +:+ sep +:+ pre), post. rewrite !app_assoc. reflexivity.
Qed.


End StringFacts.

(** ** SQL rendering *)

Module RenderFacts.
Import Macros Render StringFacts.

Lemma rbind_ok {A B} (r : result A) (k : A -> result B) (y : B) :
  rbind r k = Ok y -> exists a, r = Ok a /\ k a = Ok y.
Proof. destruct r; cbn; try discriminate. eauto. Qed.

(** The macro context of a rendering: the base entity, the aliases of
    the join path, the registry. *)
Definition ctxOf (base : string) (jp : Joins.JoinPathResult) (registry : Registry)
  : MacroContext :=
  {| currentEntity := base; aliasByEntity := Joins.aliasByEntity jp; registry := registry |}.

(** What a successful rendering went through. *)
Lemma render_inv fuel plan registry sql :
  renderSQLFromPlan fuel plan registry = Ok sql ->
  exists base others jp baseEnt dimCols metricCols joins where_,
    selectedEntities plan = base :: others /\
    Joins.computeJoinPath fuel base (dedup (selectedEntities plan)) registry = Ok jp /\
    mapM (selectDimension fuel base (ctxOf base jp registry))
         (i_dimensions (intent plan)) = Ok dimCols /\
    mapM (selectMetric fuel registry jp (ctxOf base jp registry))
         (i_metrics (intent plan)) = Ok metricCols /\
    registry_get registry base = Some baseEnt /\
    mapM (renderJoin registry jp (ctxOf base jp registry)) (Joins.edges jp) = Ok joins /\
    whereClauses fuel plan registry base (ctxOf base jp registry) = Ok where_ /\
    sql = assemble (dimCols ++ metricCols)
            ("FROM " +:+ table baseEnt +:+ " " +:+ tmpl (Joins.aliasByEntity jp !! base))
            joins where_ (groupByClause (List.length (i_dimensions (intent plan)))).
Proof.
  unfold renderSQLFromPlan. intros H.
  apply rbind_ok in H as (b & Hb & H).
  destruct (selectedEntities plan) as [|b0 others] eqn:Hsel.
  { unfold chooseBaseEntity in Hb. rewrite Hsel in Hb. injection Hb as <-. discriminate H. }
  injection Hb as <-. cbn [truthy] in H.
  destruct (JS.nonEmpty b0); [|discriminate].
  apply rbind_ok in H as (jp & Hjp & H).
  apply rbind_ok in H as (dimCols & Hd & H).
  apply rbind_ok in H as (metricCols & Hm & H).
  destruct (registry_get registry b0) as [baseEnt|] eqn:Hbase; [|discriminate].
  apply rbind_ok in H as (js & Hj & H).
  apply rbind_ok in H as (w & Hw & H).
  injection H as <-.
  exists b0, others, jp, baseEnt, dimCols, metricCols, js, w.
  repeat split; assumption.
Qed.

(** The assembled statement, clause by clause. *)
Lemma assemble_parts selectCols from joins where_ groupBy :
  exists middle,
    assemble selectCols from joins where_ groupBy =
      JS.join JS.nl
        (["SELECT";
          match selectCols with
          | [] => "  1 AS dummy"
          | _ => "  " +:+ JS.join ("," +:+ JS.nl +:+ "  ") selectCols
          end;
          from] ++ middle ++ ["LIMIT 1001"]) /\
    (where_ <> [] -> In ("WHERE " +:+ JS.join (JS.nl +:+ "  AND ") where_) middle).
Proof.
  unfold assemble.
  exists (match joins with [] => [] | _ => [JS.join JS.nl joins] end
          ++ match where_ with
             | [] => []
             | _ => ["WHERE " +:+ JS.join (JS.nl +:+ "  AND ") where_]
             end
          ++ (if JS.nonEmpty groupBy then [groupBy] else [])).
  split.
  - cbn [app]. do 3 f_equal. rewrite <- !List.app_assoc. reflexivity.
  - intros Hw. apply in_or_app. right. apply in_or_app. left.
    destruct where_; [congruence|left; reflexivity].
Qed.

Lemma assemble_ends_with_limit selectCols from joins where_ groupBy :
  JS.endsWith (assemble selectCols from joins where_ groupBy) (JS.nl +:+ "LIMIT 1001") = true.
Proof.
  destruct (assemble_parts selectCols from joins where_ groupBy) as (middle & -> & _).
  rewrite List.app_assoc. rewrite join_app; [|destruct middle; discriminate|discriminate].
  change (JS.join JS.nl ["LIMIT 1001"]) with "LIMIT 1001". apply endsWith_app.
Qed.

(** C7 (amended).  Every SQL string the renderer returns ends with the
    clause [LIMIT 1001] on a line of its own, so the text occurs at least
    once and the renderer's own clause is the last one. *)
Theorem rendered_sql_ends_with_limit fuel plan registry sql :
  renderSQLFromPlan fuel plan registry = Ok sql ->
  JS.endsWith sql (JS.nl +:+ "LIMIT 1001") = true /\
  JS.includes sql "LIMIT 1001" = true.
Proof.
  intros H. apply render_inv in H as (b & o & jp & e & dc & mc & js & w & _ & _ & _ & _ & _ & _ & _ & ->).
  split; [apply assemble_ends_with_limit|].
  destruct (assemble_parts (dc ++ mc)
              ("FROM " +:+ table e +:+ " " +:+ tmpl (Joins.aliasByEntity jp !! b))
              js w (groupByClause (List.length (i_dimensions (intent plan)))))
    as (middle & -> & _).
  destruct (join_includes JS.nl "LIMIT 1001"
              (["SELECT";
                match dc ++ mc with
                | [] => "  1 AS dummy"
                | _ => "  " +:+ JS.join ("," +:+ JS.nl +:+ "  ") (dc ++ mc)
                end;
                "FROM " +:+ table e +:+ " " +:+ tmpl (Joins.aliasByEntity jp !! b)]
               ++ middle ++ ["LIMIT 1001"])) as (pre & post & ->).
  { apply in_or_app. right. apply in_or_app. right. left. reflexivity. }
  apply includes_app.
Qed.

(** A plan whose only content is a free-form note. *)
Definition noteOnly : FinalizedPlan :=
  {| intent := {| i_metrics := []; i_dimensions := []; i_filters := ["LIMIT 1001"];
                  i_structuredFilters := []; i_timeRange := None |};
     selectedEntities := ["accounts"] |}.

(** C7, counterexample: a free-form filter is copied into a comment of
    the WHERE clause, so its text can bring a second [LIMIT 1001]. *)
Lemma limit_text_occurs_twice :
  renderSQLFromPlan 3 noteOnly Fixtures.registry
    = Ok ("SELECT" +:+ JS.nl +:+ "  1 AS dummy" +:+ JS.nl +:+
          "FROM analytics.accounts t0" +:+ JS.nl +:+
          "WHERE /* user_filter: LIMIT 1001 */" +:+ JS.nl +:+
          "LIMIT 1001") /\
  JS.countMatches "LIMIT 1001"
    ("SELECT" +:+ JS.nl +:+ "  1 AS dummy" +:+ JS.nl +:+
     "FROM analytics.accounts t0" +:+ JS.nl +:+
     "WHERE /* user_filter: LIMIT 1001 */" +:+ JS.nl +:+
     "LIMIT 1001") = 2.
Proof. split; vm_compute; reflexivity. Qed.

Lemma rendered_sql_ends_with_limit_witness :
  JS.endsWith ("SELECT" +:+ JS.nl +:+ "  1 AS dummy" +:+ JS.nl +:+
               "FROM analytics.accounts t0" +:+ JS.nl +:+
               "WHERE /* user_filter: LIMIT 1001 */" +:+ JS.nl +:+
               "LIMIT 1001") (JS.nl +:+ "LIMIT 1001") = true /\
  JS.includes ("SELECT" +:+ JS.nl +:+ "  1 AS dummy" +:+ JS.nl +:+
               "FROM analytics.accounts t0" +:+ JS.nl +:+
               "WHERE /* user_filter: LIMIT 1001 */" +:+ JS.nl +:+
               "LIMIT 1001") "LIMIT 1001" = true.
Proof.
  apply (rendered_sql_ends_with_limit 3 noteOnly Fixtures.registry).
  vm_compute. reflexivity.
Defined.

(** *** The time range *)



Definition halfYear : TimeRange :=
  {| tr_start := Some "2025-03-26"; tr_end := Some "2025-09-26"; tr_grain := None |}.

Definition tierCounts : FinalizedPlan :=
  {| intent := {| i_metrics := ["count"]; i_dimensions := ["ACCOUNT_TIER"];
                  i_filters := []; i_structuredFilters := [];
                  i_timeRange := Some halfYear |};
     selectedEntities := ["accounts"] |}.

Definition tierCountsSql : string :=
  Eval vm_compute in
    match renderSQLFromPlan 3 tierCounts Fixtures.registry with
    | Ok sql => sql
    | _ => EmptyString
    end.


Example tierCounts_where :
  JS.includes tierCountsSql
    "WHERE t0.CREATED_AT >= '2025-03-26' AND t0.CREATED_AT < '2025-09-26'" = true /\
  JS.includes tierCountsSql "GROUP BY 1" = true /\
  JS.startsWith tierCountsSql ("SELECT" +:+ JS.nl +:+ "  t0.ACCOUNT_TIER AS ") = true.
Proof. repeat split; reflexivity. Qed.

(** A time range that holds a grain and no bounds, as the plan schema
    allows: the predicate compares with the text [undefined]. *)
Definition byMonth : FinalizedPlan :=
  {| intent := {| i_metrics := ["count"]; i_dimensions := ["ACCOUNT_TIER"];
                  i_filters := []; i_structuredFilters := [];
                  i_timeRange := Some {| tr_start := None; tr_end := None;
                                         tr_grain := Some "month" |} |};
     selectedEntities := ["accounts"] |}.

Example range_without_bounds :
  exists sql,
    renderSQLFromPlan 3 byMonth Fixtures.registry = Ok sql /\
    JS.includes sql
      "WHERE t0.CREATED_AT >= 'undefined' AND t0.CREATED_AT < 'undefined'" = true.
Proof. eexists. split; [vm_compute; reflexivity|reflexivity]. Qed.

(** *** The SELECT list *)

Lemma mapM_in {A B} (f : A -> result B) (l : list A) (ys : list B) :
  mapM f l = Ok ys -> forall y, In y ys -> exists x, In x l /\ f x = Ok y.
Proof.
  revert ys. induction l as [|x l IH]; intros ys H y Hy; cbn [mapM] in H.
  - injection H as <-. destruct Hy.
  - apply rbind_ok in H as (y0 & Hx & H). apply rbind_ok in H as (ys0 & Hl & H).
    injection H as <-. destruct Hy as [<-|Hy].
    + exists x. split; [left; reflexivity|exact Hx].
    + destruct (IH _ Hl _ Hy) as (x' & Hin & Hf). exists x'. split; [right|]; assumption.
Qed.

Lemma nonEmpty_app_l (a b : string) : JS.nonEmpty a = true -> JS.nonEmpty (a +:+ b) = true.
Proof. destruct a; [discriminate|reflexivity]. Qed.

Lemma labelled_nonEmpty (expr label : string) :
  JS.nonEmpty (expr +:+ " AS " +:+ JS.dquote +:+ label +:+ JS.dquote) = true.
Proof. apply nonEmpty_app_r. reflexivity. Qed.

Lemma selectDimension_nonEmpty fuel base ctx d col :
  selectDimension fuel base ctx d = Ok col -> JS.nonEmpty col = true.
Proof.
  unfold selectDimension. intros H. apply rbind_ok in H as (expr & _ & H).
  injection H as <-. apply labelled_nonEmpty.
Qed.

Lemma selectMetric_nonEmpty fuel registry jp ctx m col :
  selectMetric fuel registry jp ctx m = Ok col -> JS.nonEmpty col = true.
Proof.
  unfold selectMetric. intros H.
  apply rbind_ok in H as (f1 & _ & H). apply rbind_ok in H as (f2 & _ & H).
  destruct f2 as [[host metricObj]|]; [|discriminate].
  apply rbind_ok in H as (expr & _ & H). injection H as <-. apply labelled_nonEmpty.
Qed.

(** The statement from its first three parts onwards. *)
Lemma assemble_head selectCols (tbl : string) joins where_ groupBy :
  exists rest,
    assemble selectCols ("FROM " +:+ tbl) joins where_ groupBy =
      "SELECT" +:+ JS.nl +:+ "  " +:+
      match selectCols with
      | [] => "1 AS dummy"
      | _ => JS.join ("," +:+ JS.nl +:+ "  ") selectCols
      end +:+ JS.nl +:+ "FROM " +:+ rest.
Proof.
  destruct (assemble_parts selectCols ("FROM " +:+ tbl) joins where_ groupBy)
    as (middle & -> & _).
  cbn [app]. rewrite !join_cons by (try discriminate; destruct middle; discriminate).
  exists (tbl +:+ JS.nl +:+ JS.join JS.nl (middle ++ ["LIMIT 1001"])).
  rewrite !StringFacts.app_assoc. destruct selectCols; reflexivity.
Qed.

(** C9 (amended).  The SELECT list of a rendered statement is never
    empty, and it is exactly [1 AS dummy] when the plan names no
    dimension and no metric.  Such a plan is not always rendered: it is
    rendered exactly when its first selected entity is a non-empty name
    that is loaded, and the join path, the JOIN clauses and the WHERE
    clause of the plan can be built; every failure of one of these
    steps is a failure of the rendering. *)
Theorem select_list_never_empty fuel plan registry :
  (forall sql,
     renderSQLFromPlan fuel plan registry = Ok sql ->
     exists sel rest,
       sql = "SELECT" +:+ JS.nl +:+ "  " +:+ sel +:+ JS.nl +:+ "FROM " +:+ rest /\
       JS.nonEmpty sel = true /\
       (i_dimensions (intent plan) = [] -> i_metrics (intent plan) = [] ->
        sel = "1 AS dummy")) /\
  (i_dimensions (intent plan) = [] -> i_metrics (intent plan) = [] ->
   forall sql,
     renderSQLFromPlan fuel plan registry = Ok sql <->
     exists base others jp baseEnt joins where_,
       selectedEntities plan = base :: others /\ JS.nonEmpty base = true /\
       Joins.computeJoinPath fuel base (dedup (selectedEntities plan)) registry = Ok jp /\
       registry_get registry base = Some baseEnt /\
       mapM (renderJoin registry jp (ctxOf base jp registry)) (Joins.edges jp) = Ok joins /\
       whereClauses fuel plan registry base (ctxOf base jp registry) = Ok where_ /\
       sql = assemble []
               ("FROM " +:+ table baseEnt +:+ " " +:+ tmpl (Joins.aliasByEntity jp !! base))
               joins where_ EmptyString).
Proof.
  split.
  - intros sql H.
    apply render_inv in H
      as (b & o & jp & e & dc & mc & js & w & _ & _ & Hd & Hm & _ & _ & _ & ->).
    destruct (assemble_head (dc ++ mc)
                (table e +:+ " " +:+ tmpl (Joins.aliasByEntity jp !! b)) js w
                (groupByClause (List.length (i_dimensions (intent plan)))))
      as (rest & ->).
    eexists _, rest. split; [reflexivity|]. split.
    + destruct (dc ++ mc) as [|c cs] eqn:E; [reflexivity|].
      destruct (join_head ("," +:+ JS.nl +:+ "  ") c cs) as (tl & ->).
      apply nonEmpty_app_l.
      assert (Hc : In c (dc ++ mc)) by (rewrite E; left; reflexivity).
      apply in_app_or in Hc as [Hc|Hc].
      * destruct (mapM_in _ _ _ Hd _ Hc) as (x & _ & Hx).
        eapply selectDimension_nonEmpty, Hx.
      * destruct (mapM_in _ _ _ Hm _ Hc) as (x & _ & Hx).
        eapply selectMetric_nonEmpty, Hx.
    + intros Hnd Hnm. rewrite Hnd in Hd. rewrite Hnm in Hm.
      injection Hd as <-. injection Hm as <-. reflexivity.
  - intros Hnd Hnm sql. split.
    + unfold renderSQLFromPlan. intros H.
      apply rbind_ok in H as (b & Hb & H).
      destruct (selectedEntities plan) as [|b0 others] eqn:Hsel.
      { unfold chooseBaseEntity in Hb. rewrite Hsel in Hb. injection Hb as <-.
        discriminate H. }
      injection Hb as <-. cbn [truthy] in H.
      destruct (JS.nonEmpty b0) eqn:Hne; [|discriminate].
      apply rbind_ok in H as (jp & Hjp & H).
      rewrite Hnd, Hnm in H. cbn [mapM rbind app List.length groupByClause] in H.
      destruct (registry_get registry b0) as [baseEnt|] eqn:Hbase; [|discriminate].
      apply rbind_ok in H as (js & Hj & H).
      apply rbind_ok in H as (w & Hw & H).
      injection H as <-.
      exists b0, others, jp, baseEnt, js, w. repeat split; assumption.
    + intros (base & others & jp & baseEnt & joins & where_
              & Hsel & Hne & Hjp & Hb & Hj & Hw & ->).
      unfold renderSQLFromPlan. rewrite Hsel in Hjp |- *. cbn [rbind truthy].
      rewrite Hne, Hjp.
      cbn [rbind]. rewrite Hnd, Hnm. cbn [mapM rbind app].
      rewrite Hb. fold (ctxOf base jp registry). rewrite Hj. cbn [rbind].
      rewrite Hw. reflexivity.
Qed.

Definition bare : FinalizedPlan :=
  {| intent := Fixtures.emptyIntent; selectedEntities := ["accounts"] |}.

Lemma select_list_never_empty_witness :
  exists sel rest,
    "SELECT" +:+ JS.nl +:+ "  1 AS dummy" +:+ JS.nl +:+
    "FROM analytics.accounts t0" +:+ JS.nl +:+ "LIMIT 1001"
      = "SELECT" +:+ JS.nl +:+ "  " +:+ sel +:+ JS.nl +:+ "FROM " +:+ rest /\
    JS.nonEmpty sel = true /\
    (i_dimensions (intent bare) = [] -> i_metrics (intent bare) = [] -> sel = "1 AS dummy").
Proof.
  apply (proj1 (select_list_never_empty 3 bare Fixtures.registry)).
  vm_compute. reflexivity.
Defined.

(** C9, counterexample: plans with no dimensions and no metrics that are
    not rendered: one that selects no entity, one whose time range meets
    a base entity without a time dimension, one whose base entity is not
    loaded. *)
Lemma plan_without_columns_is_not_always_rendered :
  i_dimensions Fixtures.emptyIntent = [] /\ i_metrics Fixtures.emptyIntent = [] /\
  renderSQLFromPlan 3 {| intent := Fixtures.emptyIntent; selectedEntities := [] |}
                    Fixtures.registry
    = Throw ENoBaseEntity /\
  renderSQLFromPlan 3
      {| intent := {| i_metrics := []; i_dimensions := []; i_filters := [];
                      i_structuredFilters := []; i_timeRange := Some halfYear |};
         selectedEntities := ["companies"] |}
      Fixtures.registry
    = Throw (ENoTimeDimension "companies") /\
  renderSQLFromPlan 3 {| intent := Fixtures.emptyIntent; selectedEntities := ["orders"] |}
                    Fixtures.registry
    = Throw ETypeError.
Proof. repeat split; vm_compute; reflexivity. Qed.

Example bare_plan_renders :
  renderSQLFromPlan 1 bare Fixtures.registry
    = Ok ("SELECT" +:+ JS.nl +:+ "  1 AS dummy" +:+ JS.nl +:+
          "FROM analytics.accounts t0" +:+ JS.nl +:+ "LIMIT 1001").
Proof. vm_compute. reflexivity. Qed.

(** *** Predicates *)

(** The operators a structured filter or a metric filter may carry
    ([structuredFilterSchema], [metricFilterSchema]). *)
Definition declaredOperators : list string :=
  ["="; "!="; ">"; ">="; "<"; "<="; "in"; "not_in"].

Lemma buildPredicate_expanded fuel filter ctx fieldSql :
  expandSqlExpression fuel ("{" +:+ f_field filter +:+ "}") ctx [] = Ok fieldSql ->
  buildPredicate fuel filter ctx =
    let op := f_operator filter in
    if String.eqb op "in" || String.eqb op "not_in" then
      Ok (fieldSql +:+ " " +:+ (if String.eqb op "in" then "IN" else "NOT IN")
            +:+ " (" +:+ JS.join ", " (map asSqlLiteral (f_values filter)) +:+ ")")
    else
      match f_values filter with
      | [v0] =>
          if isScalarOp op then Ok (fieldSql +:+ " " +:+ op +:+ " " +:+ asSqlLiteral v0)
          else Throw (EUnsupportedOperator op)
      | _ => Throw (EOperatorArity op)
      end.
Proof. intros H. unfold buildPredicate. rewrite H. reflexivity. Qed.

(** C10.  Once the field of a filter expands, an [in] or [not_in]
    filter is rendered for every list of values, the empty one included,
    as [expr IN (...)] or [expr NOT IN (...)]; among the declared
    operators the single-value check fails a filter exactly when its
    operator is one of the six scalar ones and it does not carry exactly
    one value. *)
Theorem in_list_takes_any_arity fuel filter ctx fieldSql :
  expandSqlExpression fuel ("{" +:+ f_field filter +:+ "}") ctx [] = Ok fieldSql ->
  (f_operator filter = "in" ->
     buildPredicate fuel filter ctx =
       Ok (fieldSql +:+ " IN (" +:+ JS.join ", " (map asSqlLiteral (f_values filter)) +:+ ")")
     /\ (f_values filter = [] ->
         buildPredicate fuel filter ctx = Ok (fieldSql +:+ " IN ()"))) /\
  (f_operator filter = "not_in" ->
     buildPredicate fuel filter ctx =
       Ok (fieldSql +:+ " NOT IN (" +:+ JS.join ", " (map asSqlLiteral (f_values filter))
             +:+ ")")
     /\ (f_values filter = [] ->
         buildPredicate fuel filter ctx = Ok (fieldSql +:+ " NOT IN ()"))) /\
  (In (f_operator filter) declaredOperators ->
     (buildPredicate fuel filter ctx = Throw (EOperatorArity (f_operator filter)) <->
      isScalarOp (f_operator filter) = true /\ List.length (f_values filter) <> 1)).
Proof.
  intros Hexp. rewrite (buildPredicate_expanded _ _ _ _ Hexp). cbv zeta.
  split; [|split].
  - intros ->. split; [reflexivity|]. intros ->. reflexivity.
  - intros ->. split; [reflexivity|]. intros ->. reflexivity.
  - intros Hop.
    assert (Hcases :
      (String.eqb (f_operator filter) "in" || String.eqb (f_operator filter) "not_in" = true
       /\ isScalarOp (f_operator filter) = false) \/
      (String.eqb (f_operator filter) "in" || String.eqb (f_operator filter) "not_in" = false
       /\ isScalarOp (f_operator filter) = true)).
    { unfold declaredOperators in Hop. cbn [In] in Hop.
      destruct Hop as [H|[H|[H|[H|[H|[H|[H|[H|[]]]]]]]]]; rewrite <- H;
        first [left; split; reflexivity|right; split; reflexivity]. }
    destruct Hcases as [[-> Hs]|[-> Hs]]; rewrite Hs.
    + split; [intros H; discriminate H|intros [H _]; discriminate H].
    + destruct (f_values filter) as [|v [|v' vs]]; cbn [List.length].
      * split; [intros _; split; [reflexivity|lia]|reflexivity].
      * split; [intros H; discriminate H|intros [_ H]; lia].
      * split; [intros _; split; [reflexivity|lia]|reflexivity].
Qed.

Definition tierIn (vs : list value) : Filter :=
  {| f_field := "ACCOUNT_TIER"; f_operator := "in"; f_values := vs |}.

Definition accountsCtx : MacroContext :=
  {| currentEntity := "accounts"; aliasByEntity := {[ "accounts" := "t0" ]};
     registry := Fixtures.registry |}.

Lemma in_list_takes_any_arity_witness :
  buildPredicate 1 (tierIn []) accountsCtx = Ok ("t0.ACCOUNT_TIER" +:+ " IN ()").
Proof.
  refine (proj2 (proj1 (in_list_takes_any_arity 1 (tierIn []) accountsCtx "t0.ACCOUNT_TIER" _)
                   eq_refl) eq_refl).
  vm_compute. reflexivity.
Defined.

Example predicates :
  buildPredicate 1 (tierIn [VStr "a'b"; VNum 3; VBool true]) accountsCtx
    = Ok "t0.ACCOUNT_TIER IN ('a''b', 3, TRUE)" /\
  buildPredicate 1 {| f_field := "ACCOUNT_TIER"; f_operator := ">="; f_values := [] |}
                 accountsCtx = Throw (EOperatorArity ">=") /\
  buildPredicate 1 {| f_field := "ACCOUNT_TIER"; f_operator := "="; f_values := [VNum 7] |}
                 accountsCtx = Ok "t0.ACCOUNT_TIER = 7".
Proof. repeat split; vm_compute; reflexivity. Qed.

End RenderFacts.

(** ** The model on the scenarios of the specification *)

Module Scenarios.
Import Fixtures.

Example trim_and_suffix :
  JS.trim "  SELECT 1;  " = "SELECT 1;" /\ JS.endsWith "SELECT 1;" ";" = true /\
  JS.countMatches "/*" "a /* b */ c /*/" = 2 /\ JS.countMatches "*/" "a /* b */ c /*/" = 2.
Proof. repeat split; reflexivity. Qed.

Example tokens :
  Macros.CUBE_RE "{CUBE}.ACCOUNT_TIER" = Some "ACCOUNT_TIER" /\
  Macros.CUBE_RE "{CUBE}.ACCOUNT_TIER + 1" = None /\
  Macros.SAME_ENTITY_FIELD_RE "{NET}" = Some "NET" /\
  Macros.OTHER_ENTITY_FIELD_RE "{companies.id}" = Some ("companies", "id") /\
  Macros.SAME_ENTITY_FIELD_RE "{companies.id}" = None.
Proof. repeat split; reflexivity. Qed.

(** Tokens inside a larger expression, the literal [{CUBE}] included. *)
Example compound_expression :
  Macros.expandSqlExpression 2 "COALESCE({ACCOUNT_TIER}, {companies.abc}, {CUBE}.company_id, {CUBE})"
    {| Macros.currentEntity := "accounts";
       Macros.aliasByEntity := <["companies" := "t1"]> {[ "accounts" := "t0" ]};
       Macros.registry := registry |} []
  = Ok "COALESCE(t0.ACCOUNT_TIER, t1.abc, t0.company_id, t0)".
Proof. vm_compute. reflexivity. Qed.

(** Join planner: accounts declares [many_to_one] to companies. *)
Example accounts_to_companies :
  match Joins.computeJoinPath 3 "accounts" ["accounts"; "companies"] registry with
  | Ok jp =>
      Joins.edges jp =
        [{| Joins.from := "accounts"; Joins.to := "companies";
            Joins.je_fromField := "company_id"; Joins.je_toField := "id";
            Joins.je_relationship := ManyToOne |}] /\
      Joins.orderedEntities jp = ["accounts"; "companies"] /\
      Joins.aliasByEntity jp !! "accounts" = Some "t0" /\
      Joins.aliasByEntity jp !! "companies" = Some "t1"
  | _ => False
  end.
Proof. vm_compute. repeat split. Qed.

Example base_alone :
  match Joins.computeJoinPath 0 "accounts" ["accounts"] registry with
  | Ok jp => Joins.edges jp = [] /\ Joins.orderedEntities jp = ["accounts"] /\
             Joins.aliasByEntity jp !! "accounts" = Some "t0"
  | _ => False
  end.
Proof. vm_compute. repeat split. Qed.

Example unreachable_target :
  Joins.computeJoinPath 5 "accounts" ["accounts"; "orders"] registry
  = Throw (ENoJoinPath "accounts" "orders").
Proof. vm_compute. reflexivity. Qed.

Definition joined : FinalizedPlan :=
  {| intent := {| i_metrics := ["count"]; i_dimensions := ["ACCOUNT_TIER"];
                  i_filters := []; i_structuredFilters := []; i_timeRange := None |};
     selectedEntities := ["accounts"; "companies"] |}.

Example joined_plan_renders :
  Render.renderSQLFromPlan 3 joined registry
  = Ok ("SELECT" +:+ JS.nl +:+
        "  t0.ACCOUNT_TIER AS " +:+ JS.dquote +:+ "ACCOUNT_TIER" +:+ JS.dquote +:+ "," +:+ JS.nl +:+
        "  COUNT(*) AS " +:+ JS.dquote +:+ "count" +:+ JS.dquote +:+ JS.nl +:+
        "FROM analytics.accounts t0" +:+ JS.nl +:+
        "LEFT JOIN analytics.companies t1 ON t0." +:+ JS.dquote +:+ "company_id" +:+ JS.dquote
          +:+ " = t1." +:+ JS.dquote +:+ "id" +:+ JS.dquote +:+ JS.nl +:+
        "GROUP BY 1" +:+ JS.nl +:+
        "LIMIT 1001").
Proof. vm_compute. reflexivity. Qed.

Example unknown_metric :
  Render.renderSQLFromPlan 3
    {| intent := {| i_metrics := ["NEW_ARR"]; i_dimensions := []; i_filters := [];
                    i_structuredFilters := []; i_timeRange := None |};
       selectedEntities := ["accounts"] |} registry
  = Throw (EMetricNotFound "NEW_ARR").
Proof. vm_compute. reflexivity. Qed.

End Scenarios.

(** * Further properties of the modelled code *)

(** ** Edit distance *)

Module DistanceFacts.
Import Repair.

(** The textbook recurrence, on the strings read from their last
    character: deleting, inserting or substituting the last character. *)
Fixpoint editDistance (xs : list ascii) : list ascii -> nat :=
  match xs with
  | [] => fun ys => List.length ys
  | x :: xs' =>
      fix inner (ys : list ascii) : nat :=
        match ys with
        | [] => S (List.length xs')
        | y :: ys' =>
            Nat.min (Nat.min (editDistance xs' ys + 1) (inner ys' + 1))
                    (editDistance xs' ys' + (if Ascii.eqb x y then 0 else 1))
        end
  end.

Lemma editDistance_nil_r (xs : list ascii) : editDistance xs [] = List.length xs.
Proof. destruct xs; reflexivity. Qed.

Lemma editDistance_sym (xs : list ascii) :
  forall ys, editDistance xs ys = editDistance ys xs.
Proof.
  induction xs as [|x xs IHx]; intros ys.
  - rewrite editDistance_nil_r. reflexivity.
  - induction ys as [|y ys IHy]; [reflexivity|].
    cbn [editDistance] in *. rewrite IHy, (IHx (y :: ys)), (IHx ys).
    cbn [editDistance]. rewrite (Ascii.eqb_sym y x). lia.
Qed.

Lemma editDistance_refl (xs : list ascii) : editDistance xs xs = 0.
Proof.
  induction xs as [|x xs IH]; [reflexivity|].
  cbn [editDistance]. rewrite IH, Ascii.eqb_refl. lia.
Qed.

Lemma editDistance_zero (xs : list ascii) :
  forall ys, editDistance xs ys = 0 -> xs = ys.
Proof.
  induction xs as [|x xs IH]; intros [|y ys] H; try reflexivity; try discriminate H.
  cbn [editDistance] in H.
  destruct (Ascii.eqb x y) eqn:E.
  - apply Ascii.eqb_eq in E. subst y. f_equal. apply IH. lia.
  - lia.
Qed.

(** The cells of row [xs] of the table that lie to the right of column
    [ys], the columns still to come being the characters of [rest]. *)
Fixpoint rowOf (xs ys : list ascii) (rest : string) : list nat :=
  match rest with
  | EmptyString => []
  | String y rest' => editDistance xs (y :: ys) :: rowOf xs (y :: ys) rest'
  end.

Lemma fillRow_rowOf (ai : ascii) (xs : list ascii) (rest : string) :
  forall ys,
    fillRow ai rest (rowOf xs ys rest) (editDistance xs ys) (editDistance (ai :: xs) ys)
    = rowOf (ai :: xs) ys rest.
Proof.
  induction rest as [|y rest IH]; intros ys; [reflexivity|].
  cbn [fillRow rowOf].
  change (Nat.min (Nat.min (editDistance xs (y :: ys) + 1) (editDistance (ai :: xs) ys + 1))
                  (editDistance xs ys + (if Ascii.eqb ai y then 0 else 1)))
    with (editDistance (ai :: xs) (y :: ys)).
  rewrite (IH (y :: ys)). reflexivity.
Qed.

Lemma rowOf_nil (rest : string) :
  forall ys, rowOf [] ys rest = seq (S (List.length ys)) (String.length rest).
Proof.
  induction rest as [|y rest IH]; intros ys; [reflexivity|].
  cbn [rowOf String.length seq editDistance List.length]. f_equal. apply (IH (y :: ys)).
Qed.

Lemma fillRows_rowOf (a b : string) :
  forall xs,
    fillRows a b (List.length xs) (List.length xs :: rowOf xs [] b)
    = List.length (rev (list_ascii_of_string a) ++ xs)
        :: rowOf (rev (list_ascii_of_string a) ++ xs) [] b.
Proof.
  induction a as [|ai a IH]; intros xs; [reflexivity|].
  cbn [fillRows list_ascii_of_string rev].
  pose proof (fillRow_rowOf ai xs b []) as H.
  rewrite editDistance_nil_r in H. cbn [editDistance] in H. rewrite H.
  rewrite <- List.app_assoc. cbn [app]. apply (IH (ai :: xs)).
Qed.

Lemma last_rowOf (xs : list ascii) (rest : string) :
  forall ys d,
    List.last (d :: rowOf xs ys rest) 0 =
      match rest with
      | EmptyString => d
      | _ => editDistance xs (rev (list_ascii_of_string rest) ++ ys)
      end.
Proof.
  induction rest as [|y rest IH]; intros ys d; [reflexivity|].
  cbn [rowOf]. change (List.last (d :: ?x :: ?l) 0) with (List.last (x :: l) 0).
  rewrite IH. cbn [list_ascii_of_string rev]. rewrite <- List.app_assoc. cbn [app].
  destruct rest; reflexivity.
Qed.

Lemma levenshtein_editDistance (a b : string) :
  levenshtein a b =
    editDistance (rev (list_ascii_of_string a)) (rev (list_ascii_of_string b)).
Proof.
  unfold levenshtein. cbn [seq].
  pose proof (rowOf_nil b []) as Hrow. pose proof (fillRows_rowOf a b []) as Hfill.
  change (List.length (@nil ascii)) with 0 in Hrow, Hfill.
  rewrite <- Hrow, Hfill. rewrite !List.app_nil_r.
  rewrite last_rowOf. rewrite List.app_nil_r.
  destruct b; [|reflexivity].
  cbn [list_ascii_of_string rev]. rewrite editDistance_nil_r. reflexivity.
Qed.

(** The table filled row by row computes the textbook edit distance of
    the two strings. *)
Theorem levenshtein_computes_edit_distance (a b : string) :
  levenshtein a b =
    editDistance (rev (list_ascii_of_string a)) (rev (list_ascii_of_string b)).
Proof. apply levenshtein_editDistance. Qed.

Lemma string_of_rev_inj (a b : string) :
  rev (list_ascii_of_string a) = rev (list_ascii_of_string b) -> a = b.
Proof.
  intros H. apply (f_equal (@rev ascii)) in H. rewrite !rev_involutive in H.
  rewrite <- (string_of_list_ascii_of_string a), <- (string_of_list_ascii_of_string b).
  congruence.
Qed.

Lemma zero_distance_iff_equal (a b : string) : levenshtein a b = 0 <-> a = b.
Proof.
  rewrite levenshtein_editDistance. split.
  - intros H. apply string_of_rev_inj, editDistance_zero, H.
  - intros ->. apply editDistance_refl.
Qed.

(** The distance is zero for equal strings and for no others. *)
Theorem levenshtein_zero_iff_equal (a b : string) : levenshtein a b = 0 <-> a = b.
Proof. apply zero_distance_iff_equal. Qed.

(** The distance does not depend on the order of its arguments. *)
Theorem levenshtein_symmetric (a b : string) : levenshtein a b = levenshtein b a.
Proof. rewrite !levenshtein_editDistance. apply editDistance_sym. Qed.

Lemma editDistance_le_max (xs : list ascii) :
  forall ys, editDistance xs ys <= Nat.max (List.length xs) (List.length ys).
Proof.
  induction xs as [|x xs IH]; intros ys; [cbn; lia|].
  destruct ys as [|y ys]; [cbn; lia|].
  cbn [editDistance List.length]. specialize (IH ys).
  destruct (Ascii.eqb x y); lia.
Qed.

Lemma length_list_ascii (s : string) :
  List.length (list_ascii_of_string s) = String.length s.
Proof. induction s as [|c s IH]; [reflexivity|]. cbn. rewrite IH. reflexivity. Qed.

(** No more edits are needed than the longer string has characters. *)
Theorem levenshtein_at_most_longer (a b : string) :
  levenshtein a b <= Nat.max (String.length a) (String.length b).
Proof.
  rewrite levenshtein_editDistance.
  etransitivity; [apply editDistance_le_max|].
  rewrite !length_rev, !length_list_ascii. reflexivity.
Qed.

(** *** What the fuzzy match returns *)

Import RepairFacts.

(** The pair is an entity of the registry and the canonical name of one
    of its dimensions or time dimensions. *)
Definition namesField (registry : Registry) (b : Best) : Prop :=
  exists ent, In (entity b, ent) registry /\
    (In (field b) (map dim_name (dimensions ent)) \/
     In (field b) (map td_name (time_dimensions ent))).

Definition known (registry : Registry) (best : option Best) : Prop :=
  match best with Some b => namesField registry b | None => True end.

Lemma consider_known registry needle ename ent fname best c :
  In (ename, ent) registry ->
  In fname (map dim_name (dimensions ent)) \/ In fname (map td_name (time_dimensions ent)) ->
  known registry best -> known registry (consider needle ename fname best c).
Proof.
  intros Hin Hf Hk. unfold consider.
  destruct best as [bst|].
  - destruct (_ <? _)%nat; [|exact Hk]. exists ent. split; assumption.
  - exists ent. split; assumption.
Qed.

Lemma fold_consider_known registry needle ename ent fname (cs : list string) :
  In (ename, ent) registry ->
  In fname (map dim_name (dimensions ent)) \/ In fname (map td_name (time_dimensions ent)) ->
  forall best, known registry best ->
    known registry (fold_left (consider needle ename fname) cs best).
Proof.
  intros Hin Hf. induction cs as [|c cs IH]; intros best Hk; [exact Hk|].
  cbn [fold_left]. apply IH. eapply consider_known; eassumption.
Qed.

Lemma scanEntity_known registry needle ename ent best :
  In (ename, ent) registry -> known registry best ->
  known registry (scanEntity needle best (ename, ent)).
Proof.
  intros Hin Hk. unfold scanEntity.
  assert (Hd : forall ds best,
             (forall d, In d ds -> In d (dimensions ent)) -> known registry best ->
             known registry (fold_left (scanDimension needle ename) ds best)).
  { induction ds as [|d ds IH]; intros b Hsub Hb; [exact Hb|].
    cbn [fold_left]. apply IH; [intros d' Hd'; apply Hsub; right; exact Hd'|].
    unfold scanDimension. eapply fold_consider_known; try eassumption.
    left. apply in_map, Hsub. left. reflexivity. }
  assert (Ht : forall tds best,
             (forall td, In td tds -> In td (time_dimensions ent)) -> known registry best ->
             known registry
               (fold_left (fun bst td => consider needle ename (td_name td) bst (td_name td))
                          tds best)).
  { induction tds as [|td tds IH]; intros b Hsub Hb; [exact Hb|].
    cbn [fold_left]. apply IH; [intros td' Htd'; apply Hsub; right; exact Htd'|].
    eapply consider_known; try eassumption.
    right. apply in_map, Hsub. left. reflexivity. }
  apply Ht; [auto|]. apply Hd; [auto|exact Hk].
Qed.

Lemma bestCandidate_known needle registry :
  known registry (bestCandidate needle registry).
Proof.
  unfold bestCandidate.
  assert (H : forall reg best,
             (forall en, In en reg -> In en registry) -> known registry best ->
             known registry (fold_left (scanEntity needle) reg best)).
  { induction reg as [|[ename ent] reg IH]; intros best Hsub Hk; [exact Hk|].
    cbn [fold_left]. apply IH; [intros en Hen; apply Hsub; right; exact Hen|].
    apply scanEntity_known; [apply Hsub; left; reflexivity|exact Hk]. }
  apply H; [auto|exact I].
Qed.

(** A fuzzy match never invents a name: the entity it returns is a key of
    the registry and the field is the canonical name of a dimension or a
    time dimension of that entity, also when an alias was the closest. *)
Theorem bestColumnMatch_names_a_field target registry e f :
  bestColumnMatch target registry = Some (e, f) ->
  exists ent, In (e, ent) registry /\
    (In f (map dim_name (dimensions ent)) \/ In f (map td_name (time_dimensions ent))).
Proof.
  unfold bestColumnMatch. intros H.
  pose proof (bestCandidate_known (normalize target) registry) as Hk.
  destruct (bestCandidate (normalize target) registry) as [bst|]; [|discriminate].
  destruct (_ || _); [|discriminate]. injection H as <- <-. exact Hk.
Qed.

Lemma bestColumnMatch_names_a_field_witness :
  exists ent, In ("companies", ent) Fixtures.registry /\
    (In "id" (map dim_name (dimensions ent)) \/ In "id" (map td_name (time_dimensions ent))).
Proof.
  apply (bestColumnMatch_names_a_field "x" Fixtures.registry "companies" "id").
  vm_compute. reflexivity.
Defined.

(** A name that equals the identifier up to quotes, surrounding blanks
    and letter case is always matched. *)
Theorem exact_name_is_matched target registry c :
  In c (candidates registry) -> normalize c = normalize target ->
  bestColumnMatch target registry <> None.
Proof.
  intros Hc Heq. unfold bestColumnMatch.
  pose proof (bestCandidate_smallest (normalize target) registry) as Hs.
  destruct (bestCandidate (normalize target) registry) as [bst|]; cbn [smallest] in Hs.
  - destruct Hs as [_ Hmin]. specialize (Hmin _ Hc). unfold distance in Hmin.
    rewrite Heq in Hmin.
    rewrite (proj2 (zero_distance_iff_equal _ _) eq_refl) in Hmin.
    assert (E : score bst = 0) by lia. rewrite E. cbn. discriminate.
  - rewrite Hs in Hc. destruct Hc.
Qed.

Lemma exact_name_is_matched_witness :
  bestColumnMatch (JS.dquote +:+ "Account_Tier" +:+ JS.dquote) Fixtures.registry <> None.
Proof.
  apply (exact_name_is_matched _ Fixtures.registry "ACCOUNT_TIER").
  - left. reflexivity.
  - reflexivity.
Defined.

End DistanceFacts.

(** ** Join planning *)

Module JoinFacts.
Import Joins.

Lemma ofNat_inj (i j : nat) : JS.ofNat i = JS.ofNat j -> i = j.
Proof.
  unfold JS.ofNat. intros H.
  apply DecimalNat.Unsigned.to_uint_inj.
  apply (f_equal NilEmpty.uint_of_string) in H.
  rewrite !NilEmpty.usu in H. congruence.
Qed.

Lemma setAdd_In (s : list string) (x y : string) :
  In y (setAdd s x) <-> In y s \/ y = x.
Proof.
  unfold setAdd. destruct (existsb (String.eqb x) s) eqn:E.
  - split; [auto|]. intros [H| ->]; [exact H|].
    apply existsb_exists in E as [z [Hz Heq]]. apply String.eqb_eq in Heq. congruence.
  - rewrite in_app_iff. cbn [In]. intuition.
Qed.

Lemma setAdd_NoDup (s : list string) (x : string) : NoDup s -> NoDup (setAdd s x).
Proof.
  intros Hs. unfold setAdd. destruct (existsb (String.eqb x) s) eqn:E; [exact Hs|].
  apply NoDup_app. split; [exact Hs|]. split; [|apply NoDup_singleton].
  intros y Hy Hx. apply list_elem_of_In in Hy, Hx. destruct Hx as [<-|[]].
  assert (existsb (String.eqb x) s = true); [|congruence].
  apply existsb_exists. exists x. split; [exact Hy|apply String.eqb_refl].
Qed.

Lemma insertSorted_perm (x : string) (l : list string) :
  Permutation (insertSorted x l) (x :: l).
Proof.
  induction l as [|y l IH]; [reflexivity|].
  cbn [insertSorted]. destruct (String.ltb x y); [reflexivity|].
  rewrite IH. apply perm_swap.
Qed.

Lemma sort_perm (l : list string) : Permutation (sort l) l.
Proof.
  induction l as [|x l IH]; [reflexivity|].
  cbn [sort fold_right]. fold (sort l). rewrite insertSorted_perm, IH. reflexivity.
Qed.

Lemma NoDup_List_filter {A} (p : A -> bool) (l : list A) :
  NoDup l -> NoDup (List.filter p l).
Proof.
  induction 1 as [|x l Hx Hl IH]; cbn [List.filter]; [constructor|].
  destruct (p x); [|exact IH]. constructor; [|exact IH].
  rewrite list_elem_of_In, filter_In. intros [H _]. apply Hx, list_elem_of_In, H.
Qed.

(** The endpoints collected from the edges, as the loop leaves them. *)
Definition endpoints (es : list GraphEdge) (s : list string) : list string :=
  fold_left (fun s e => setAdd (setAdd s (a e)) (b e)) es s.

Lemma endpoints_NoDup (es : list GraphEdge) : forall s, NoDup s -> NoDup (endpoints es s).
Proof.
  induction es as [|e es IH]; intros s Hs; [exact Hs|].
  apply IH. apply setAdd_NoDup, setAdd_NoDup, Hs.
Qed.

Lemma endpoints_In (es : list GraphEdge) :
  forall s y, In y (endpoints es s) <-> In y s \/ exists e, In e es /\ (y = a e \/ y = b e).
Proof.
  induction es as [|e es IH]; intros s y; cbn [endpoints fold_left].
  - split; [auto|]. intros [H|[e [[] _]]]. exact H.
  - fold (endpoints es (setAdd (setAdd s (a e)) (b e))). rewrite IH, !setAdd_In. split.
    + intros [[[H|H]|H]|[e' [He' H]]].
      * left. exact H.
      * right. exists e. split; [left; reflexivity|left; exact H].
      * right. exists e. split; [left; reflexivity|right; exact H].
      * right. exists e'. split; [right; exact He'|exact H].
    + intros [H|[e' [[E|He'] H]]]; [tauto|subst e'; tauto|]. right. exists e'. tauto.
Qed.

Lemma aliasFrom_other (l : list string) :
  forall i m n, ~ In n l -> aliasFrom i l m !! n = m !! n.
Proof.
  induction l as [|x l IH]; intros i m n Hn; [reflexivity|].
  cbn [aliasFrom]. rewrite IH by (intros H; apply Hn; right; exact H).
  apply lookup_insert_ne. intros ->. apply Hn. left. reflexivity.
Qed.

Lemma aliasFrom_position (l : list string) :
  forall i m k n, NoDup l -> nth_error l k = Some n ->
    aliasFrom i l m !! n = Some ("t" +:+ JS.ofNat (i + k)).
Proof.
  induction l as [|x l IH]; intros i m k n Hnd Hk; [destruct k; discriminate|].
  apply NoDup_cons in Hnd as [Hx Hnd]. cbn [aliasFrom].
  destruct k as [|k]; cbn [nth_error] in Hk.
  - injection Hk as <-. rewrite aliasFrom_other.
    + rewrite lookup_insert_eq, Nat.add_0_r. reflexivity.
    + intros H. apply Hx, list_elem_of_In, H.
  - rewrite (IH (S i) _ k n Hnd Hk). do 3 f_equal. lia.
Qed.

(** What a successful planning returns, in terms of the collected edges. *)
Lemma computeJoinPath_inv fuel base required registry jp :
  computeJoinPath fuel base required registry = Ok jp ->
  exists es others,
    edges jp = map toJoinEdge es /\
    orderedEntities jp = base :: others /\
    aliasByEntity jp = aliasFrom 0 (base :: others) ∅ /\
    NoDup (base :: others) /\
    (forall y, In y others <-> y <> base /\ exists e, In e es /\ (y = a e \/ y = b e)).
Proof.
  unfold computeJoinPath. intros H.
  destruct (collect fuel (buildGraph registry) base required ([], [])) as [es| |];
    cbn [rbind] in H; try discriminate.
  injection H as <-. cbn [edges orderedEntities aliasByEntity].
  fold (endpoints es [base]).
  set (others := sort (List.filter (fun n => negb (String.eqb n base)) (endpoints es [base]))).
  assert (Hin : forall y, In y others <->
                  y <> base /\ exists e, In e es /\ (y = a e \/ y = b e)).
  { intros y. unfold others.
    rewrite (Permutation_in' (eq_refl y) (sort_perm _)).
    rewrite filter_In, endpoints_In, negb_true_iff, String.eqb_neq. cbn [In]. split.
    - intros [[[<-|[]]|He] Hne]; [congruence|]. split; assumption.
    - intros [Hne He]. split; [right; exact He|exact Hne]. }
  exists es, others.
  split; [reflexivity|]. split; [reflexivity|]. split; [reflexivity|]. split; [|exact Hin].
  apply NoDup_cons. split.
  - intros Hb. apply list_elem_of_In, Hin in Hb. destruct Hb as [Hb _]. congruence.
  - unfold others. rewrite sort_perm.
    apply NoDup_List_filter. apply endpoints_NoDup. apply NoDup_singleton.
Qed.

(** Aliases follow the positions of [orderedEntities]: the base entity is
    first and is [t0], the entity at position [k] is [tk]. *)
Theorem aliases_are_positional fuel base required registry jp :
  computeJoinPath fuel base required registry = Ok jp ->
  nth_error (orderedEntities jp) 0 = Some base /\
  aliasByEntity jp !! base = Some "t0" /\
  forall k n, nth_error (orderedEntities jp) k = Some n ->
    aliasByEntity jp !! n = Some ("t" +:+ JS.ofNat k).
Proof.
  intros H. apply computeJoinPath_inv in H as (es & others & _ & -> & -> & Hnd & _).
  split; [reflexivity|]. split.
  - apply (aliasFrom_position (base :: others) 0 ∅ 0 base Hnd). reflexivity.
  - intros k n Hk. apply (aliasFrom_position (base :: others) 0 ∅ k n Hnd Hk).
Qed.

(** Two different entities of a join path never share an alias. *)
Theorem aliases_are_distinct fuel base required registry jp (n1 n2 alias : string) :
  computeJoinPath fuel base required registry = Ok jp ->
  aliasByEntity jp !! n1 = Some alias -> aliasByEntity jp !! n2 = Some alias ->
  n1 = n2.
Proof.
  intros H H1 H2. apply computeJoinPath_inv in H as (es & others & _ & _ & Ea & Hnd & _).
  rewrite Ea in H1, H2.
  assert (Hpos : forall n al, aliasFrom 0 (base :: others) ∅ !! n = Some al ->
                   exists k, nth_error (base :: others) k = Some n /\
                             al = "t" +:+ JS.ofNat k).
  { intros n al Hn.
    destruct (in_dec string_dec n (base :: others)) as [Hin|Hout].
    - apply In_nth_error in Hin as [k Hk]. exists k. split; [exact Hk|].
      rewrite (aliasFrom_position _ 0 ∅ k n Hnd Hk) in Hn. injection Hn as <-. reflexivity.
    - rewrite aliasFrom_other in Hn by exact Hout.
      apply lookup_empty_Some in Hn. destruct Hn. }
  destruct (Hpos _ _ H1) as (k1 & Hk1 & E1). destruct (Hpos _ _ H2) as (k2 & Hk2 & E2).
  rewrite E1 in E2. injection E2 as E2. apply ofNat_inj in E2. subst k2. congruence.
Qed.

(** Every endpoint of every edge of the path is listed and has an alias,
    so a JOIN clause never shows a missing alias. *)
Theorem edge_endpoints_have_aliases fuel base required registry jp e :
  computeJoinPath fuel base required registry = Ok jp ->
  In e (edges jp) ->
  In (from e) (orderedEntities jp) /\ In (to e) (orderedEntities jp) /\
  is_Some (aliasByEntity jp !! from e) /\ is_Some (aliasByEntity jp !! to e).
Proof.
  intros H He. apply computeJoinPath_inv in H as (es & others & Ee & -> & -> & Hnd & Hin).
  rewrite Ee in He. apply in_map_iff in He as (ge & <- & Hge). cbn [from to toJoinEdge].
  assert (Hlisted : forall y, (y = a ge \/ y = b ge) -> In y (base :: others)).
  { intros y Hy. destruct (string_dec y base) as [->|Hne]; [left; reflexivity|].
    right. apply Hin. split; [exact Hne|]. exists ge. split; assumption. }
  assert (Haliased : forall y, In y (base :: others) ->
                       is_Some (aliasFrom 0 (base :: others) ∅ !! y)).
  { intros y Hy. apply In_nth_error in Hy as [k Hk].
    rewrite (aliasFrom_position _ 0 ∅ k y Hnd Hk). eauto. }
  repeat split; auto.
Qed.

Definition noPath : JoinPathResult :=
  {| edges := []; aliasByEntity := ∅; orderedEntities := [] |}.

(** The join path of the fixture registry, from accounts to companies. *)
Definition accountsPath : JoinPathResult :=
  match computeJoinPath 3 "accounts" ["accounts"; "companies"] Fixtures.registry with
  | Ok jp => jp
  | _ => noPath
  end.

Lemma accountsPath_computed :
  computeJoinPath 3 "accounts" ["accounts"; "companies"] Fixtures.registry = Ok accountsPath.
Proof. vm_compute. reflexivity. Qed.

Lemma aliases_are_positional_witness :
  nth_error (orderedEntities accountsPath) 0 = Some "accounts" /\
  aliasByEntity accountsPath !! "accounts" = Some "t0" /\
  forall k n, nth_error (orderedEntities accountsPath) k = Some n ->
    aliasByEntity accountsPath !! n = Some ("t" +:+ JS.ofNat k).
Proof.
  apply (aliases_are_positional 3 "accounts" ["accounts"; "companies"] Fixtures.registry).
  vm_compute. reflexivity.
Defined.

Lemma aliases_are_distinct_witness : "companies" = "companies".
Proof.
  apply (aliases_are_distinct 3 "accounts" ["accounts"; "companies"] Fixtures.registry
           accountsPath "companies" "companies" "t1");
    vm_compute; reflexivity.
Defined.

Lemma edge_endpoints_have_aliases_witness :
  In "accounts" (orderedEntities accountsPath) /\
  In "companies" (orderedEntities accountsPath) /\
  is_Some (aliasByEntity accountsPath !! "accounts") /\
  is_Some (aliasByEntity accountsPath !! "companies").
Proof.
  apply (edge_endpoints_have_aliases 3 "accounts" ["accounts"; "companies"]
           Fixtures.registry accountsPath
           {| from := "accounts"; to := "companies"; je_fromField := "company_id";
              je_toField := "id"; je_relationship := ManyToOne |}).
  - vm_compute. reflexivity.
  - vm_compute. left. reflexivity.
Defined.

(** *** Paths *)

(** An edge of the graph built from the registry is a declared join, as
    declared or turned round with its columns swapped. *)
Definition declared (registry : Registry) (e : GraphEdge) : Prop :=
  exists nm ent j, In (nm, ent) registry /\ In j (joins ent) /\
    (e = {| a := nm; b := target_entity j; fromField := jc_from j; toField := jc_to j;
            ge_relationship := relationship j |} \/
     e = {| a := target_entity j; b := nm; fromField := jc_to j; toField := jc_from j;
            ge_relationship := relationship j |}).

(** Every edge stored under a node leaves that node and satisfies [Q]. *)
Definition edgesAll (Q : GraphEdge -> Prop) (g : Graph) : Prop :=
  forall u es e, g !! u = Some es -> In e es -> a e = u /\ Q e.

Lemma ensureNode_edgesAll Q g n : edgesAll Q g -> edgesAll Q (ensureNode g n).
Proof.
  intros Hg. unfold ensureNode. destruct (g !! n) eqn:E; [exact Hg|].
  intros u es e Hu He. rewrite lookup_insert in Hu. case_decide.
  - injection Hu as <-. destruct He.
  - exact (Hg _ _ _ Hu He).
Qed.

Lemma push_edgesAll Q g n e : edgesAll Q g -> a e = n -> Q e -> edgesAll Q (push g n e).
Proof.
  intros Hg Ha Hq u es e' Hu He'. unfold push in Hu.
  rewrite lookup_insert in Hu. case_decide as E.
  - subst u. injection Hu as <-. apply in_app_or in He' as [He'|[<-|[]]]; [|auto].
    destruct (g !! n) as [old|] eqn:Hn; [|destruct He'].
    exact (Hg _ _ _ Hn He').
  - exact (Hg _ _ _ Hu He').
Qed.

Lemma buildGraph_declared registry : edgesAll (declared registry) (buildGraph registry).
Proof.
  unfold buildGraph.
  assert (H : forall reg g,
             (forall en, In en reg -> In en registry) ->
             edgesAll (declared registry) g ->
             edgesAll (declared registry)
               (fold_left (fun g '(nm, entity) =>
                             fold_left (addJoin nm) (joins entity) (ensureNode g nm)) reg g)).
  { induction reg as [|[nm ent] reg IH]; intros g Hsub Hg; [exact Hg|].
    cbn [fold_left]. apply IH; [intros en Hen; apply Hsub; right; exact Hen|].
    assert (Hj : forall js g', (forall j, In j js -> In j (joins ent)) ->
                   edgesAll (declared registry) g' ->
                   edgesAll (declared registry) (fold_left (addJoin nm) js g')).
    { induction js as [|j js IHj]; intros g' Hjs Hg'; [exact Hg'|].
      cbn [fold_left]. apply IHj; [intros j' Hj'; apply Hjs; right; exact Hj'|].
      assert (Hd : In (nm, ent) registry /\ In j (joins ent)).
      { split; [apply Hsub; left; reflexivity|apply Hjs; left; reflexivity]. }
      unfold addJoin. apply push_edgesAll; [apply push_edgesAll| |].
      - apply ensureNode_edgesAll, Hg'.
      - reflexivity.
      - exists nm, ent, j. split; [tauto|]. split; [tauto|]. left. reflexivity.
      - reflexivity.
      - exists nm, ent, j. split; [tauto|]. split; [tauto|]. right. reflexivity. }
    apply Hj; [auto|]. apply ensureNode_edgesAll, Hg. }
  apply H; [auto|]. intros u es e Hu. rewrite lookup_empty in Hu. discriminate.
Qed.

(** A list of edges that leads from [s] to [t], each edge satisfying [Q]. *)
Inductive chain (Q : GraphEdge -> Prop) : string -> string -> list GraphEdge -> Prop :=
  | chain_nil s : chain Q s s []
  | chain_cons e t p : Q e -> chain Q (b e) t p -> chain Q (a e) t (e :: p).

(** Every recorded predecessor is the source of the recorded edge, and
    the edge arrives at the vertex it is recorded for. *)
Definition prevOk (Q : GraphEdge -> Prop) (prev : Prev) : Prop :=
  forall v node e, prev !! v = Some (node, Some e) -> b e = v /\ a e = node /\ Q e.

Lemma scanEdges_prevOk Q goal u (es : list GraphEdge) :
  (forall e, In e es -> a e = u /\ Q e) ->
  forall q prev, prevOk Q prev ->
    match scanEdges goal u es q prev with
    | inl prev' => prevOk Q prev'
    | inr (_, prev') => prevOk Q prev'
    end.
Proof.
  induction es as [|e es IH]; intros Hes q prev Hp; [exact Hp|].
  cbn [scanEdges]. destruct (prev !! b e) eqn:Hv.
  - apply IH; [intros e' He'; apply Hes; right; exact He'|exact Hp].
  - assert (Hp' : prevOk Q (<[b e := (u, Some e)]> prev)).
    { intros v node e' Hl. rewrite lookup_insert in Hl. case_decide as E.
      - injection Hl as <- <-. destruct (Hes e (or_introl eq_refl)) as [Ha Hq]. auto.
      - exact (Hp _ _ _ Hl). }
    destruct (String.eqb (b e) goal); [exact Hp'|].
    apply IH; [intros e' He'; apply Hes; right; exact He'|exact Hp'].
Qed.

Lemma reconstruct_chain Q prev start goal (fuel : nat) :
  prevOk Q prev ->
  forall cur path p,
    chain Q cur goal (rev path) ->
    reconstruct fuel prev start cur path = Ok p ->
    chain Q start goal p.
Proof.
  intros Hp. induction fuel as [|fuel IH]; intros cur path p Hc H; cbn [reconstruct] in H.
  - destruct (String.eqb cur start) eqn:E; [|discriminate].
    apply String.eqb_eq in E. subst cur. injection H as <-. exact Hc.
  - destruct (String.eqb cur start) eqn:E.
    + apply String.eqb_eq in E. subst cur. injection H as <-. exact Hc.
    + destruct (prev !! cur) as [[node [edge|]]|] eqn:Hl; try discriminate.
      destruct (Hp _ _ _ Hl) as (Hb & Ha & Hq).
      apply (IH node (path ++ [edge]) p); [|exact H].
      rewrite rev_unit. rewrite <- Ha. constructor; [exact Hq|]. rewrite Hb. exact Hc.
Qed.

Lemma bfs_chain Q g start goal (fuel : nat) :
  edgesAll Q g ->
  forall q prev path, prevOk Q prev ->
    bfs fuel g start goal q prev = Ok (Some path) ->
    chain Q start goal path.
Proof.
  intros Hg. induction fuel as [|fuel IH]; intros q prev path Hp H; [discriminate|].
  cbn [bfs] in H. destruct q as [|u q]; [discriminate|].
  assert (Hes : forall e, In e (default [] (g !! u)) -> a e = u /\ Q e).
  { intros e He. destruct (g !! u) as [es|] eqn:Hu; [|destruct He].
    exact (Hg _ _ _ Hu He). }
  pose proof (scanEdges_prevOk Q goal u _ Hes q prev Hp) as Hs.
  destruct (scanEdges goal u (default [] (g !! u)) q prev) as [prev'|[q' prev']].
  - destruct (reconstruct (S fuel) prev' start goal []) as [p| |] eqn:Hr;
      cbn [rbind] in H; try discriminate.
    injection H as <-. eapply reconstruct_chain; [exact Hs| |exact Hr]. constructor.
  - eapply IH; eassumption.
Qed.

Lemma shortestPath_chain Q fuel g start goal path :
  edgesAll Q g ->
  shortestPath fuel g start goal = Ok (Some path) ->
  chain Q start goal path.
Proof.
  intros Hg H. unfold shortestPath in H. destruct (String.eqb start goal) eqn:E.
  - apply String.eqb_eq in E. subst goal. injection H as <-. constructor.
  - eapply bfs_chain; [exact Hg| |exact H].
    intros v node e Hl. rewrite lookup_singleton in Hl. case_decide; discriminate.
Qed.

(** A path found in the graph of a registry is connected: it starts at
    the start, every edge begins where the one before ends, it ends at
    the goal, and every edge is a declared join or one turned round. *)
Theorem shortestPath_is_connected fuel registry start goal path :
  shortestPath fuel (buildGraph registry) start goal = Ok (Some path) ->
  chain (declared registry) start goal path.
Proof. apply shortestPath_chain, buildGraph_declared. Qed.

Lemma chain_all Q s t p : chain Q s t p -> forall e, In e p -> Q e.
Proof.
  induction 1 as [|e t p Hq _ IH]; intros e' He'; [destruct He'|].
  destruct He' as [<-|He']; auto.
Qed.

Lemma addUnseen_all (Q : GraphEdge -> Prop) (path : list GraphEdge) :
  (forall e, In e path -> Q e) ->
  forall acc, (forall e, In e acc.1 -> Q e) ->
    forall e, In e (fold_left addUnseen path acc).1 -> Q e.
Proof.
  induction path as [|x path IH]; intros Hp acc Ha; [exact Ha|].
  cbn [fold_left]. apply IH; [intros e He; apply Hp; right; exact He|].
  unfold addUnseen. destruct (existsb _ _); [exact Ha|].
  cbn [fst]. intros e He. apply in_app_or in He as [He|[<-|[]]]; [auto|].
  apply Hp. left. reflexivity.
Qed.

Lemma collect_all Q fuel g base (targets : list string) :
  edgesAll Q g ->
  forall acc es, (forall e, In e acc.1 -> Q e) ->
    collect fuel g base targets acc = Ok es -> forall e, In e es -> Q e.
Proof.
  intros Hg. induction targets as [|t targets IH]; intros acc es Ha H; cbn [collect] in H.
  - injection H as <-. exact Ha.
  - destruct (String.eqb t base); [eapply IH; eassumption|].
    destruct (shortestPath fuel g base t) as [[path|]| |] eqn:Hp;
      cbn [rbind] in H; try discriminate.
    eapply IH; [|exact H]. apply addUnseen_all; [|exact Ha].
    eapply chain_all, shortestPath_chain; eassumption.
Qed.

(** Every edge of a planned join path is a declared join of some loaded
    entity, in the declared direction or turned round with the two
    columns swapped; the relationship is the declared one. *)
Theorem planned_edges_are_declared fuel base required registry jp e :
  computeJoinPath fuel base required registry = Ok jp ->
  In e (edges jp) ->
  exists nm ent j, In (nm, ent) registry /\ In j (joins ent) /\
    je_relationship e = relationship j /\
    ((from e = nm /\ to e = target_entity j /\
      je_fromField e = jc_from j /\ je_toField e = jc_to j) \/
     (from e = target_entity j /\ to e = nm /\
      je_fromField e = jc_to j /\ je_toField e = jc_from j)).
Proof.
  unfold computeJoinPath. intros H He.
  destruct (collect fuel (buildGraph registry) base required ([], [])) as [es| |] eqn:Hc;
    cbn [rbind] in H; try discriminate.
  injection H as <-. cbn [edges] in He. apply in_map_iff in He as (ge & <- & Hge).
  assert (Hd : declared registry ge).
  { eapply (collect_all (declared registry)); [apply buildGraph_declared| |exact Hc|exact Hge].
    intros x []. }
  destruct Hd as (nm & ent & j & Hn & Hj & [->| ->]); exists nm, ent, j;
    cbn [toJoinEdge from to je_fromField je_toField je_relationship a b fromField toField
         ge_relationship]; tauto.
Qed.

Lemma planned_edges_are_declared_witness :
  exists nm ent j, In (nm, ent) Fixtures.registry /\ In j (joins ent) /\
    ManyToOne = relationship j /\
    (("accounts" = nm /\ "companies" = target_entity j /\
      "company_id" = jc_from j /\ "id" = jc_to j) \/
     ("accounts" = target_entity j /\ "companies" = nm /\
      "company_id" = jc_to j /\ "id" = jc_from j)).
Proof.
  apply (planned_edges_are_declared 3 "accounts" ["accounts"; "companies"]
           Fixtures.registry accountsPath
           {| from := "accounts"; to := "companies"; je_fromField := "company_id";
              je_toField := "id"; je_relationship := ManyToOne |}).
  - vm_compute. reflexivity.
  - vm_compute. left. reflexivity.
Defined.

Lemma shortestPath_is_connected_witness :
  chain (declared Fixtures.registry) "companies" "accounts"
    [{| a := "companies"; b := "accounts"; fromField := "id"; toField := "company_id";
        ge_relationship := ManyToOne |}].
Proof.
  apply (shortestPath_is_connected 3 Fixtures.registry "companies" "accounts").
  vm_compute. reflexivity.
Defined.

End JoinFacts.

(** ** Expressions without tokens *)

Module ExpandFacts.
Import Macros StringFacts.

(** Does the text hold an opening brace. *)
Fixpoint hasBrace (s : string) : bool :=
  match s with
  | EmptyString => false
  | String c s' => Ascii.eqb c "{" || hasBrace s'
  end.

Lemma head_not_brace (c : ascii) (s : string) :
  hasBrace (String c s) = false -> c <> "{"%char /\ hasBrace s = false.
Proof.
  cbn [hasBrace]. intros H. apply orb_false_iff in H as [H1 H2].
  apply Ascii.eqb_neq in H1. auto.
Qed.

Lemma cubeAt_none (s : string) : hasBrace s = false -> cubeAt s = None.
Proof.
  intros H. unfold cubeAt. destruct s as [|c s]; [reflexivity|].
  apply head_not_brace in H as [Hc _]. cbn [String.prefix].
  destruct (ascii_dec "{" c) as [E|_]; [congruence|reflexivity].
Qed.

Lemma fieldAt_none (s : string) : hasBrace s = false -> fieldAt s = None.
Proof.
  intros H. destruct s as [|c s]; [reflexivity|].
  apply head_not_brace in H as [Hc _].
  destruct c as [[] [] [] [] [] [] [] []]; try reflexivity. congruence.
Qed.

Lemma entityFieldAt_none (s : string) : hasBrace s = false -> entityFieldAt s = None.
Proof.
  intros H. destruct s as [|c s]; [reflexivity|].
  apply head_not_brace in H as [Hc _].
  destruct c as [[] [] [] [] [] [] [] []]; try reflexivity. congruence.
Qed.

Lemma whole_none {M} (at_ : string -> option (M * nat)) (s : string) :
  at_ s = None -> whole at_ s = None.
Proof. unfold whole. intros ->. reflexivity. Qed.

(** A pass over a text in which the pattern matches nowhere copies it. *)
Lemma replaceAll_untouched {M} (matchAt : string -> option (M * nat))
    (f : M -> result string) (s : string) :
  (forall t, hasBrace t = false -> matchAt t = None) ->
  hasBrace s = false -> JS.replaceAll matchAt f s 0 = Ok s.
Proof.
  intros Hm. induction s as [|c s IH]; intros H; [reflexivity|].
  cbn [JS.replaceAll]. rewrite (Hm _ H).
  apply head_not_brace in H as [_ H]. rewrite (IH H). reflexivity.
Qed.

Lemma expand_untouched fuel (expr : string) ctx (stack : list string) :
  hasBrace expr = false -> existsb (String.eqb expr) stack = false ->
  expandSqlExpression (S fuel) expr ctx stack = Ok expr.
Proof.
  intros H Hs. cbn [expandSqlExpression]. unfold expandBody. rewrite Hs.
  unfold CUBE_RE, SAME_ENTITY_FIELD_RE, OTHER_ENTITY_FIELD_RE.
  rewrite (whole_none _ _ (cubeAt_none _ H)), (whole_none _ _ (fieldAt_none _ H)),
    (whole_none _ _ (entityFieldAt_none _ H)).
  rewrite (replaceAll_untouched cubeAt _ _ cubeAt_none H). cbn [rbind].
  rewrite (replaceAll_untouched entityFieldAt _ _ entityFieldAt_none H). cbn [rbind].
  apply (replaceAll_untouched fieldAt _ _ fieldAt_none H).
Qed.

Lemma plain_text_expands_to_itself fuel (expr : string) ctx :
  hasBrace expr = false -> expandSqlExpression (S fuel) expr ctx [] = Ok expr.
Proof. intros H. apply expand_untouched; [exact H|reflexivity]. Qed.

(** SQL that holds no opening brace comes back unchanged, whatever the
    entities, the aliases and the current entity are, also when the
    registry is empty. *)
Theorem text_without_tokens_is_unchanged fuel (expr : string) ctx :
  hasBrace expr = false ->
  expandSqlExpression (S fuel) expr ctx [] = Ok expr.
Proof. intros H. apply expand_untouched; [exact H|reflexivity]. Qed.

Lemma text_without_tokens_is_unchanged_witness :
  expandSqlExpression 1 "COALESCE(t0.TAX, 0)"
    {| currentEntity := "nowhere"; aliasByEntity := ∅; registry := [] |} []
  = Ok "COALESCE(t0.TAX, 0)".
Proof. apply text_without_tokens_is_unchanged. reflexivity. Defined.

Lemma hasBrace_app (x y : string) : hasBrace (x +:+ y) = hasBrace x || hasBrace y.
Proof.
  induction x as [|c x IH]; [reflexivity|].
  rewrite app_cons. cbn [hasBrace]. rewrite IH, orb_assoc. reflexivity.
Qed.

Lemma takeWord_no_brace (s : string) : hasBrace (JS.takeWord s).1 = false.
Proof.
  induction s as [|c s IH]; [reflexivity|].
  cbn [JS.takeWord]. destruct (JS.isWordChar c) eqn:Hc; [|reflexivity].
  destruct (JS.takeWord s) as [w r]. cbn [fst hasBrace] in *. rewrite IH, orb_false_r.
  destruct (Ascii.eqb c "{") eqn:E; [|reflexivity].
  apply Ascii.eqb_eq in E. subst c. discriminate Hc.
Qed.

Lemma CUBE_RE_no_brace (s col : string) : CUBE_RE s = Some col -> hasBrace col = false.
Proof.
  unfold CUBE_RE, whole, cubeAt. destruct (String.prefix "{CUBE}." s); [|discriminate].
  pose proof (takeWord_no_brace (JS.drop 7 s)) as H.
  destruct (JS.takeWord (JS.drop 7 s)) as [w r]. cbn [fst] in H.
  destruct (JS.nonEmpty w); [|discriminate].
  destruct (_ =? _)%nat; [|discriminate]. intros E. injection E as <-. exact H.
Qed.

Lemma getAlias_no_brace ctx e err al :
  (forall n x, aliasByEntity ctx !! n = Some x -> hasBrace x = false) ->
  getAlias ctx e err = Ok al -> hasBrace al = false.
Proof.
  intros Ha. unfold getAlias. destruct (aliasByEntity ctx !! e) as [x|] eqn:E; [|discriminate].
  destruct (JS.nonEmpty x); [|discriminate]. intros H. injection H as <-. eauto.
Qed.

Definition outOfFuel (_ : string) (_ : MacroContext) (_ : list string) : result string :=
  OutOfFuel.

Lemma qualified_no_brace (al col : string) :
  hasBrace al = false -> hasBrace col = false -> hasBrace (al +:+ "." +:+ col) = false.
Proof. intros H1 H2. rewrite !hasBrace_app, H1, H2. reflexivity. Qed.

Lemma expandOwn_direct ctx stack field r :
  (forall n x, aliasByEntity ctx !! n = Some x -> hasBrace x = false) ->
  expandOwn outOfFuel ctx stack field = Ok r -> hasBrace r = false.
Proof.
  intros Ha. unfold expandOwn.
  destruct (registry_get _ _) as [ent|]; [|discriminate].
  destruct (resolveCanonicalField ent field) as [dim|]; [|discriminate].
  destruct (CUBE_RE (dim_sql dim)) as [col|] eqn:Hc; [|discriminate].
  destruct (getAlias ctx _ _) as [al| |] eqn:Hal; cbn [rbind]; try discriminate.
  intros H. injection H as <-.
  apply qualified_no_brace; [eapply getAlias_no_brace|eapply CUBE_RE_no_brace]; eassumption.
Qed.

Lemma expandOther_direct noAlias ctx stack ef r :
  (forall n x, aliasByEntity ctx !! n = Some x -> hasBrace x = false) ->
  expandOther outOfFuel noAlias ctx stack ef = Ok r -> hasBrace r = false.
Proof.
  intros Ha. unfold expandOther. destruct ef as [e f].
  destruct (registry_get _ _) as [ent|]; [|discriminate].
  destruct (resolveCanonicalField ent f) as [dim|]; [|discriminate].
  destruct (getAlias ctx _ _) as [al| |] eqn:Hal; cbn [rbind]; try discriminate.
  destruct (CUBE_RE (dim_sql dim)) as [col|] eqn:Hc; [|discriminate].
  intros H. injection H as <-.
  apply qualified_no_brace; [eapply getAlias_no_brace|eapply CUBE_RE_no_brace]; eassumption.
Qed.

(** A single token that expands without recursion, i.e. one that names a
    field whose SQL is a plain [{CUBE}.COL], expands to a text that a
    second expansion leaves as it is, provided no alias holds a brace. *)
Theorem simple_token_expansion_is_stable fuel (token : string) ctx r :
  (forall n x, aliasByEntity ctx !! n = Some x -> hasBrace x = false) ->
  CUBE_RE token <> None \/ SAME_ENTITY_FIELD_RE token <> None
    \/ OTHER_ENTITY_FIELD_RE token <> None ->
  expandSqlExpression 1 token ctx [] = Ok r ->
  expandSqlExpression (S fuel) r ctx [] = Ok r.
Proof.
  intros Ha Htok H. apply plain_text_expands_to_itself.
  cbn [expandSqlExpression] in H. unfold expandBody in H. cbn [existsb] in H.
  change (expandSqlExpression 0) with outOfFuel in H.
  destruct (CUBE_RE token) as [f|]; [eapply expandOwn_direct; eassumption|].
  destruct (SAME_ENTITY_FIELD_RE token) as [f|]; [eapply expandOwn_direct; eassumption|].
  destruct (OTHER_ENTITY_FIELD_RE token) as [ef|]; [eapply expandOther_direct; eassumption|].
  destruct Htok as [Ht|[Ht|Ht]]; congruence.
Qed.

Lemma simple_token_expansion_is_stable_witness :
  expandSqlExpression 4 "t0.ACCOUNT_TIER" RenderFacts.accountsCtx [] = Ok "t0.ACCOUNT_TIER".
Proof.
  apply (simple_token_expansion_is_stable 3 "{CUBE}.ACCOUNT_TIER" RenderFacts.accountsCtx).
  - intros n x Hx. cbn [aliasByEntity RenderFacts.accountsCtx] in Hx.
    apply lookup_singleton_Some in Hx as [_ <-]. reflexivity.
  - left. vm_compute. discriminate.
  - vm_compute. reflexivity.
Defined.

End ExpandFacts.

(** ** More on the rendered statement *)

Module ClauseFacts.
Import Macros Render StringFacts RenderFacts.

Lemma assemble_grouped selectCols from joins where_ (groupBy : string) :
  JS.nonEmpty groupBy = true ->
  JS.endsWith (assemble selectCols from joins where_ groupBy)
              (JS.nl +:+ groupBy +:+ JS.nl +:+ "LIMIT 1001") = true.
Proof.
  intros Hg. unfold assemble. rewrite Hg.
  rewrite !List.app_assoc. rewrite <- (List.app_assoc _ [groupBy] ["LIMIT 1001"]).
  rewrite join_app; [|discriminate|discriminate].
  change (JS.join JS.nl ([groupBy] ++ ["LIMIT 1001"]))
    with (groupBy +:+ JS.nl +:+ "LIMIT 1001").
  apply endsWith_app.
Qed.

(** A plan with k > 0 dimensions is rendered with the clause
    [GROUP BY 1, ..., k] on the line before the final [LIMIT 1001]. *)
Theorem group_by_lists_the_dimensions fuel plan registry sql :
  renderSQLFromPlan fuel plan registry = Ok sql ->
  i_dimensions (intent plan) <> [] ->
  JS.endsWith sql
    (JS.nl +:+ "GROUP BY "
       +:+ JS.join ", " (map JS.ofNat (seq 1 (List.length (i_dimensions (intent plan)))))
       +:+ JS.nl +:+ "LIMIT 1001") = true.
Proof.
  intros H Hd.
  apply render_inv in H as (b & o & jp & e & dc & mc & js & w & _ & _ & _ & _ & _ & _ & _ & ->).
  destruct (i_dimensions (intent plan)) as [|d ds]; [congruence|].
  rewrite <- StringFacts.app_assoc. apply assemble_grouped. reflexivity.
Qed.

Lemma group_by_lists_the_dimensions_witness :
  JS.endsWith tierCountsSql
    (JS.nl +:+ "GROUP BY " +:+ JS.join ", " (map JS.ofNat (seq 1 1))
       +:+ JS.nl +:+ "LIMIT 1001") = true.
Proof.
  apply (group_by_lists_the_dimensions 3 tierCounts Fixtures.registry tierCountsSql).
  - reflexivity.
  - discriminate.
Defined.

(** *** Literals *)

(** Reading a literal by the rule of standard SQL: after the opening
    quote, two quotes in a row stand for one quote, a single quote ends
    the literal, and every other character, the backslash among them,
    stands for itself.  The result is the text read and what follows
    the closing quote. *)
Fixpoint readQuoted (s : string) : option (string * string) :=
  match s with
  | EmptyString => None
  | String c s' =>
      if Ascii.eqb c "'" then
        match s' with
        | String d s'' =>
            if Ascii.eqb d "'" then
              match readQuoted s'' with
              | Some (t, rest) => Some (String "'" t, rest)
              | None => None
              end
            else Some (EmptyString, s')
        | EmptyString => Some (EmptyString, EmptyString)
        end
      else
        match readQuoted s' with
        | Some (t, rest) => Some (String c t, rest)
        | None => None
        end
  end.

Definition readLiteral (s : string) : option (string * string) :=
  match s with
  | String c s' => if Ascii.eqb c "'" then readQuoted s' else None
  | EmptyString => None
  end.

Lemma readQuoted_escaped (s rest : string) :
  String.prefix "'" rest = false ->
  readQuoted (JS.replaceChar "'" "''" s +:+ String "'" rest) = Some (s, rest).
Proof.
  intros Hrest. induction s as [|a s IH].
  - cbn [JS.replaceChar]. rewrite app_nil_l. cbn [readQuoted]. rewrite Ascii.eqb_refl.
    destruct rest as [|d rest]; [reflexivity|].
    cbn [String.prefix] in Hrest. destruct (ascii_dec "'" d) as [<-|Hd].
    + destruct rest; discriminate Hrest.
    + rewrite (proj2 (Ascii.eqb_neq d "'")) by congruence. reflexivity.
  - cbn [JS.replaceChar]. destruct (Ascii.eqb a "'") eqn:E.
    + apply Ascii.eqb_eq in E. subst a.
      change ("''" +:+ JS.replaceChar "'" "''" s)
        with (String "'" (String "'" (JS.replaceChar "'" "''" s))).
      rewrite !app_cons. cbn [readQuoted]. rewrite Ascii.eqb_refl, IH. reflexivity.
    + rewrite app_cons. cbn [readQuoted]. rewrite E, IH. reflexivity.
Qed.

(** Read by the rule of standard SQL, the literal written for a string
    value gives the value back and ends at its own last character,
    whatever text follows it, unless that text starts with a quote. *)
Theorem string_literal_reads_back (s rest : string) :
  String.prefix "'" rest = false ->
  readLiteral (asSqlLiteral (VStr s) +:+ rest) = Some (s, rest).
Proof.
  intros Hrest. cbn [asSqlLiteral].
  change ("'" +:+ JS.replaceChar "'" "''" s +:+ "'")
    with (String "'" (JS.replaceChar "'" "''" s +:+ "'")).
  rewrite app_cons, app_assoc. cbn [readLiteral]. rewrite Ascii.eqb_refl.
  change ("'" +:+ rest) with (String "'" rest).
  apply readQuoted_escaped, Hrest.
Qed.

Lemma string_literal_reads_back_witness :
  readLiteral (asSqlLiteral (VStr "O'Neil' OR 1=1 --") +:+ " AND t0.id = 1")
  = Some ("O'Neil' OR 1=1 --", " AND t0.id = 1").
Proof. apply (string_literal_reads_back "O'Neil' OR 1=1 --" " AND t0.id = 1"). reflexivity. Defined.

(** *** Free-form filters *)

Lemma openComment_head (s : string) :
  match s, openComment s with
  | String c _, String d _ => c = d
  | EmptyString, EmptyString => True
  | _, _ => False
  end.
Proof.
  destruct s as [|c s]; [exact I|].
  destruct (ascii_dec c "*") as [->|Hc].
  - destruct s as [|d s]; [reflexivity|].
    destruct d as [[] [] [] [] [] [] [] []]; reflexivity.
  - cbn [openComment].
    destruct c as [[] [] [] [] [] [] [] []]; try reflexivity. congruence.
Qed.

Lemma openComment_step (c : ascii) (s : string) :
  openComment (String c s) =
    match s with
    | String d s' =>
        if Ascii.eqb c "*" && Ascii.eqb d "/" then "* /" +:+ openComment s'
        else String c (openComment s)
    | EmptyString => String c EmptyString
    end.
Proof.
  destruct s as [|d s'].
  - destruct c as [[] [] [] [] [] [] [] []]; reflexivity.
  - destruct (Ascii.eqb c "*") eqn:Ec; cbn [andb].
    + apply Ascii.eqb_eq in Ec. subst c.
      destruct (Ascii.eqb d "/") eqn:Ed.
      * apply Ascii.eqb_eq in Ed. subst d. reflexivity.
      * apply Ascii.eqb_neq in Ed. cbn [openComment].
        destruct d as [[] [] [] [] [] [] [] []]; try reflexivity. congruence.
    + apply Ascii.eqb_neq in Ec. cbn [openComment].
      destruct c as [[] [] [] [] [] [] [] []]; try reflexivity. congruence.
Qed.

Lemma includes_cons (c : ascii) (s needle : string) :
  JS.includes (String c s) needle = String.prefix needle (String c s) || JS.includes s needle.
Proof. reflexivity. Qed.

Lemma closer_prefix (c : ascii) (s : string) :
  String.prefix "*/" (String c s) =
    Ascii.eqb c "*" && match s with String d _ => Ascii.eqb d "/" | EmptyString => false end.
Proof.
  cbn [String.prefix]. destruct (ascii_dec "*" c) as [<-|Hc].
  - cbn [Ascii.eqb Bool.eqb andb]. destruct s as [|d s]; [reflexivity|].
    cbn [String.prefix]. destruct (ascii_dec "/" d) as [<-|Hd].
    + destruct s; reflexivity.
    + rewrite (proj2 (Ascii.eqb_neq d "/")) by congruence. reflexivity.
  - rewrite (proj2 (Ascii.eqb_neq c "*")) by congruence. reflexivity.
Qed.

Lemma openComment_closed (n : nat) :
  forall s, String.length s <= n -> JS.includes (openComment s) "*/" = false.
Proof.
  induction n as [|n IH]; intros s Hn.
  - destruct s; [reflexivity|cbn in Hn; lia].
  - destruct s as [|c s]; [reflexivity|]. cbn [String.length] in Hn.
    rewrite openComment_step. destruct s as [|d s'].
    + rewrite includes_cons, closer_prefix. cbn [JS.includes String.prefix].
      rewrite andb_false_r. reflexivity.
    + cbn [String.length] in Hn.
      destruct (Ascii.eqb c "*" && Ascii.eqb d "/") eqn:E.
      * change ("* /" +:+ openComment s')
          with (String "*" (String " " (String "/" (openComment s')))).
        rewrite !includes_cons, !closer_prefix. cbn [Ascii.eqb Bool.eqb andb orb].
        rewrite IH by lia. destruct (openComment s'); reflexivity.
      * rewrite includes_cons, closer_prefix, (IH (String d s')) by (cbn; lia).
        rewrite orb_false_r.
        pose proof (openComment_head (String d s')) as Hh.
        cbv beta iota in Hh.
        destruct (openComment (String d s')) as [|d' t]; [destruct Hh|].
        subst d'. exact E.
Qed.

(** The text of a free-form filter is put in a comment from which every
    comment closer has been taken out, so the filter cannot end the
    comment and turn into SQL. *)
Theorem free_filter_cannot_close_its_comment (ff : string) :
  JS.includes (openComment ff) "*/" = false.
Proof. apply (openComment_closed (String.length ff)). lia. Qed.

(** *** The row limit *)

Lemma hasLimit_app (x y : string) :
  Snowflake.hasLimit y = true -> Snowflake.hasLimit (x +:+ y) = true.
Proof.
  intros H. induction x as [|c x IH]; [exact H|].
  rewrite app_cons. cbn [Snowflake.hasLimit]. rewrite IH. apply orb_true_r.
Qed.

Lemma endsWith_split (s suffix : string) :
  JS.endsWith s suffix = true -> exists x, s = x +:+ suffix.
Proof.
  induction s as [|c s IH]; cbn [JS.endsWith]; intros H.
  - rewrite orb_false_r in H. apply String.eqb_eq in H. exists EmptyString. subst suffix.
    reflexivity.
  - apply orb_true_iff in H as [H|H].
    + apply String.eqb_eq in H. exists EmptyString. subst suffix. reflexivity.
    + destruct (IH H) as [x ->]. exists (String c x). reflexivity.
Qed.

(** The guard that adds a LIMIT at execution time finds the one the
    renderer wrote: a rendered statement is executed as it is, whatever
    row limit is asked for. *)
Theorem rendered_sql_keeps_its_limit fuel plan registry sql (rowLimit : Z) :
  renderSQLFromPlan fuel plan registry = Ok sql ->
  Snowflake.ensureLimit sql rowLimit = sql.
Proof.
  intros H.
  apply render_inv in H as (b & o & jp & e & dc & mc & js & w & _ & _ & _ & _ & _ & _ & _ & ->).
  unfold Snowflake.ensureLimit.
  destruct (endsWith_split _ _ (assemble_ends_with_limit (dc ++ mc)
              ("FROM " +:+ table e +:+ " " +:+ tmpl (Joins.aliasByEntity jp !! b))
              js w (groupByClause (List.length (i_dimensions (intent plan))))))
    as [x ->].
  rewrite hasLimit_app; reflexivity.
Qed.

Lemma rendered_sql_keeps_its_limit_witness :
  Snowflake.ensureLimit tierCountsSql 50 = tierCountsSql.
Proof.
  apply (rendered_sql_keeps_its_limit 3 tierCounts Fixtures.registry). reflexivity.
Defined.

End ClauseFacts.

(** ** Attempts *)

Module AttemptFacts.
Import Snowflake.

(** What is sent to the warehouse: the session tags and the queries. *)
Definition isStatement (ev : event) : bool :=
  match ev with
  | Statement _ _ _ => true
  | SessionTag _ _ _ => true
  | Acquired _ _ => false
  end.

Definition isQuery (ev : event) : bool :=
  match ev with Statement _ _ _ => true | _ => false end.

Definition statements (trace : list event) : nat :=
  List.length (List.filter isStatement trace).

Definition queries (trace : list event) : nat :=
  List.length (List.filter isQuery trace).

Definition acquisitions (trace : list event) : nat :=
  List.length (List.filter (fun ev => negb (isStatement ev)) trace).

Lemma statements_app (t1 t2 : list event) :
  statements (t1 ++ t2) = statements t1 + statements t2.
Proof. unfold statements. rewrite List.filter_app, List.length_app. reflexivity. Qed.

Lemma acquisitions_app (t1 t2 : list event) :
  acquisitions (t1 ++ t2) = acquisitions t1 + acquisitions t2.
Proof. unfold acquisitions. rewrite List.filter_app, List.length_app. reflexivity. Qed.

Lemma queries_app (t1 t2 : list event) : queries (t1 ++ t2) = queries t1 + queries t2.
Proof. unfold queries. rewrite List.filter_app, List.length_app. reflexivity. Qed.

(** What a request with a query tag sends beside its queries. *)
Definition tags (opts : ExecOptions) : nat := if truthy (queryTag opts) then 1 else 0.

(** One attempt sends at most one query, before it one session tag when
    a query tag is set, and acquires nothing more. *)
Lemma runAttempt_events sql opts w b trace :
  queries (runAttempt sql opts w b trace).2 <= queries trace + 1 /\
  statements (runAttempt sql opts w b trace).2 <= statements trace + 1 + tags opts /\
  acquisitions (runAttempt sql opts w b trace).2 = acquisitions trace.
Proof.
  unfold runAttempt, tags.
  destruct (preflightGuard sql) as [[]| |]; cbn [snd]; try (repeat split; lia).
  cbv zeta.
  destruct (truthy (queryTag opts)), (tagError w), (outcome w); cbn [snd];
    rewrite ?statements_app, ?acquisitions_app, ?queries_app; cbn; repeat split; lia.
Qed.

Lemma attemptLoop_events world sql opts (n : nat) :
  forall k b lastErr trace,
    let tr := (attemptLoop world sql opts n k b lastErr trace).2 in
    queries tr <= queries trace + n /\
    statements tr <= statements trace + n * (1 + tags opts) /\
    acquisitions tr <= acquisitions trace + n.
Proof.
  induction n as [|n IH]; intros k b lastErr trace; cbn [attemptLoop].
  - cbn [snd]. lia.
  - destruct (negb (acquires (world k))); [cbn [snd]; lia|].
    pose proof (runAttempt_events sql opts (world k) b (trace ++ [Acquired (t_acquire (world k)) b]))
      as (Hq & Hs & Ha).
    rewrite statements_app, acquisitions_app, queries_app in *. cbn in Hq, Hs, Ha.
    destruct (runAttempt sql opts (world k) b _) as [[res|e|] trace2]; cbn [snd] in *.
    + lia.
    + specialize (IH (S k) (recordFailure (t_done (world k)) b) (Some e) trace2).
      cbv zeta in IH. lia.
    + lia.
Qed.

(** Whatever number of attempts is asked for, one request acquires at
    most five connections and sends at most five queries; with a query
    tag each attempt also sends one session statement, ten statements at
    most in all, and without a query tag the queries are all it sends. *)
Theorem at_most_five_attempts world sql opts (now : Z) (b : Breaker) :
  let trace := (execWithRetry world sql opts now b).2 in
  acquisitions trace <= 5 /\ queries trace <= 5 /\ statements trace <= 10 /\
  (truthy (queryTag opts) = false -> statements trace <= 5).
Proof.
  unfold execWithRetry. destruct (isOpen now b); [cbn; repeat split; lia|].
  pose proof (attemptLoop_events world sql opts
                (Z.to_nat (Z.max 1 (Z.min (default 3%Z (attempts opts)) 5))) 1 b None [])
    as H.
  cbv zeta in H. change (statements []) with 0 in H. change (acquisitions []) with 0 in H.
  change (queries []) with 0 in H. unfold tags in H.
  split; [lia|]. split; [lia|]. split.
  - destruct (truthy (queryTag opts)); lia.
  - intros Ht. rewrite Ht in H. lia.
Qed.

Lemma attemptLoop_rejected world sql opts e (n : nat) :
  preflightGuard sql = Throw e ->
  (forall k, acquires (world k) = true) ->
  forall k b lastErr trace,
    statements trace = 0 -> (n = 0 -> lastErr = Some e) ->
    exists b' tr,
      attemptLoop world sql opts n k b lastErr trace = (Throw e, b', tr) /\
      statements tr = 0 /\
      consecutiveFailures b' = (consecutiveFailures b + Z.of_nat n)%Z.
Proof.
  intros Hp Hacq. induction n as [|n IH]; intros k b lastErr trace Ht Hl; cbn [attemptLoop].
  - rewrite (Hl eq_refl). cbn [default]. exists b, trace. repeat split; [exact Ht|lia].
  - rewrite Hacq. cbn [negb]. unfold runAttempt. rewrite Hp.
    destruct (IH (S k) (recordFailure (t_done (world k)) b) (Some e)
                 (trace ++ [Acquired (t_acquire (world k)) b])) as (b' & tr & -> & Hs & Hc).
    + rewrite statements_app, Ht. reflexivity.
    + reflexivity.
    + exists b', tr. repeat split; [exact Hs|]. rewrite Hc. cbn [recordFailure consecutiveFailures].
      lia.
Qed.

(** SQL that the preflight guard rejects never reaches the warehouse: no
    statement is sent, the request ends with the guard's error, and yet
    every attempt counts as a failure for the circuit breaker. *)
Theorem rejected_sql_is_never_sent world sql opts (now : Z) (b : Breaker) e :
  preflightGuard sql = Throw e ->
  isOpen now b = false ->
  (forall k, acquires (world k) = true) ->
  exists b' trace,
    execWithRetry world sql opts now b = (Throw e, b', trace) /\
    statements trace = 0 /\
    consecutiveFailures b' =
      (consecutiveFailures b + Z.max 1 (Z.min (default 3%Z (attempts opts)) 5))%Z.
Proof.
  intros Hp Hopen Hacq. unfold execWithRetry. rewrite Hopen.
  destruct (attemptLoop_rejected world sql opts e
              (Z.to_nat (Z.max 1 (Z.min (default 3%Z (attempts opts)) 5)))
              Hp Hacq 1 b None []) as (b' & tr & H & Hs & Hc).
  - reflexivity.
  - intros Hz. lia.
  - exists b', tr. repeat split; [exact H|exact Hs|]. rewrite Hc. lia.
Qed.

Lemma rejected_sql_is_never_sent_witness :
  exists b' trace,
    execWithRetry BreakerFacts.failing "DROP TABLE accounts" BreakerFacts.defaults 0 breaker0
      = (Throw (EDisallowedToken "DROP"), b', trace) /\
    statements trace = 0 /\
    consecutiveFailures b' =
      (consecutiveFailures breaker0
       + Z.max 1 (Z.min (default 3%Z (attempts BreakerFacts.defaults)) 5))%Z.
Proof.
  apply (rejected_sql_is_never_sent BreakerFacts.failing "DROP TABLE accounts"
           BreakerFacts.defaults 0 breaker0 (EDisallowedToken "DROP")).
  - reflexivity.
  - reflexivity.
  - intros k. reflexivity.
Defined.

(** With a query tag the bound of ten statements is reached: five
    failing attempts send five session statements and five queries. *)
Definition tagged : ExecOptions :=
  {| timeoutMs := None; rowLimit := None; attempts := Some 5%Z;
     enforceLimit := false; queryTag := Some "d0" |}.

Example tagged_request_sends_ten :
  let trace := (execWithRetry BreakerFacts.failing "SELECT 1" tagged 0 breaker0).2 in
  statements trace = 10 /\ queries trace = 5 /\ acquisitions trace = 5 /\
  In (SessionTag 1000 breaker0 "ALTER SESSION SET QUERY_TAG='d0'") trace.
Proof. vm_compute. repeat split. right. left. reflexivity. Qed.

End AttemptFacts.

(** ** What the result cache holds *)

Module CacheBounds.
Import Snowflake Execute CacheFacts.

Lemma cache_get_delete (c : QueryCache) (k : string) : cache_get (cache_delete c k) k = None.
Proof.
  induction c as [|[k' v] c IH]; [reflexivity|].
  unfold cache_delete in *. cbn [List.filter fst].
  destruct (String.eqb k' k) eqn:E; cbn [negb]; [exact IH|].
  cbn [cache_get]. rewrite E. exact IH.
Qed.

Lemma cache_get_set_other (c : QueryCache) (k k0 : string) v :
  k0 <> k -> cache_get (cache_set c k v) k0 = cache_get c k0.
Proof.
  intros Hne. induction c as [|[k' v'] c IH]; cbn [cache_set cache_get].
  - rewrite (proj2 (String.eqb_neq k k0)) by congruence. reflexivity.
  - destruct (String.eqb k' k) eqn:E; cbn [cache_get].
    + apply String.eqb_eq in E. subst k'.
      rewrite (proj2 (String.eqb_neq k k0)) by congruence. reflexivity.
    + rewrite IH. reflexivity.
Qed.

Section Tool.
Variable tryExec : string -> result ExecResult.
Variable attemptRepair : string -> error -> result (option RepairResult).
Variable messageOf : error -> string.

(** A miss writes nothing but the entry of the SQL it was asked to run,
    and a miss that ends in failure writes nothing at all. *)
Lemma executeMiss_writes clock cache sql r cache' :
  executeMiss tryExec attemptRepair messageOf clock cache sql = (r, cache') ->
  (forall k, k <> sql -> cache_get cache' k = cache_get cache k) /\
  (forall x, r = Ok x -> r_ok x = Some false -> cache' = cache).
Proof.
  unfold executeMiss. intros H.
  repeat match type of H with
         | (match ?x with _ => _ end) = _ => destruct x eqn:?
         | (let '(_, _) := ?x in _) = _ => destruct x eqn:?
         end;
    injection H as <- <-;
    (split;
     [intros k Hk; first [reflexivity|apply cache_get_set_other; exact Hk]
     |intros x Hx Hf; first [reflexivity|injection Hx as <-; discriminate Hf|discriminate Hx]]).
Qed.

Lemma execute_failure clock cache sql r cache' :
  execute tryExec attemptRepair messageOf clock cache sql = (Ok r, cache') ->
  r_ok r = Some false -> cache_get cache' sql = None.
Proof.
  unfold execute. intros H Hf.
  destruct (cache_get (cleanExpiredCache (t_clean clock) cache) sql) as [cached|] eqn:Hg.
  - destruct (_ <? _)%Z.
    + injection H as <- <-. discriminate Hf.
    + apply executeMiss_writes in H as [_ H]. rewrite (H r eq_refl Hf).
      apply cache_get_delete.
  - apply executeMiss_writes in H as [_ H]. rewrite (H r eq_refl Hf). exact Hg.
Qed.

Lemma execute_other_keys clock cache sql out cache' k :
  execute tryExec attemptRepair messageOf clock cache sql = (out, cache') ->
  k <> sql ->
  cache_get cache' k = cache_get (cleanExpiredCache (t_clean clock) cache) k.
Proof.
  unfold execute. intros H Hk.
  destruct (cache_get (cleanExpiredCache (t_clean clock) cache) sql) as [cached|] eqn:Hg.
  - destruct (_ <? _)%Z.
    + injection H as <- <-. reflexivity.
    + apply executeMiss_writes in H as [H _]. rewrite (H k Hk).
      apply cache_get_delete_other, Hk.
  - apply executeMiss_writes in H as [H _]. exact (H k Hk).
Qed.
End Tool.

(** A run that ends in failure is never cached: after it, the cache holds
    no entry for that SQL, not even an older one that had gone stale. *)
Theorem failed_run_is_not_cached tryExec attemptRepair messageOf clock cache sql r cache' :
  execute tryExec attemptRepair messageOf clock cache sql = (Ok r, cache') ->
  r_ok r = Some false -> cache_get cache' sql = None.
Proof. apply execute_failure. Qed.

(** A run touches no entry but its own: every other SQL is cached after
    the run exactly as it was once the expired entries were cleaned,
    also when the run was repaired and executed under another text. *)
Theorem run_writes_only_its_own_entry
    tryExec attemptRepair messageOf clock cache sql out cache' k :
  execute tryExec attemptRepair messageOf clock cache sql = (out, cache') ->
  k <> sql ->
  cache_get cache' k = cache_get (cleanExpiredCache (t_clean clock) cache) k.
Proof. apply execute_other_keys. Qed.

(** A warehouse that refuses every statement. *)
Definition refuses (_ : string) : result ExecResult := Throw (EDriver "syntax error").

Lemma failed_run_is_not_cached_witness :
  cache_get [("SELECT 1", entryOf oneRow 0)] "SELEC 2" = None.
Proof.
  apply (failed_run_is_not_cached refuses noRepair anyMessage (at_ 1000)
           [("SELECT 1", entryOf oneRow 0)] "SELEC 2"
           (failure "error" "SELEC 2" false None)).
  - reflexivity.
  - reflexivity.
Defined.

Lemma run_writes_only_its_own_entry_witness :
  cache_get [("SELECT 1", entryOf oneRow 0); ("SELECT 2", entryOf oneRow 1000)] "SELECT 1"
  = cache_get (cleanExpiredCache 1000 [("SELECT 1", entryOf oneRow 0)]) "SELECT 1".
Proof.
  apply (run_writes_only_its_own_entry answers noRepair anyMessage (at_ 1000)
           [("SELECT 1", entryOf oneRow 0)] "SELECT 2"
           (Ok (success oneRow "SELECT 2" false None))).
  - reflexivity.
  - discriminate.
Defined.

(** *** Size *)

Lemma delete_absent (c : QueryCache) k : ~ In k (keys c) -> cache_delete c k = c.
Proof.
  induction c as [|[k' v] c IH]; [reflexivity|].
  cbn [keys map fst In]. fold (keys c). intros H. unfold cache_delete in *.
  cbn [List.filter fst]. rewrite (proj2 (String.eqb_neq k' k)) by tauto.
  cbn [negb]. rewrite IH by tauto. reflexivity.
Qed.

Lemma delete_present (c : QueryCache) k :
  NoDup (keys c) -> In k (keys c) -> S (List.length (cache_delete c k)) = List.length c.
Proof.
  induction c as [|[k' v] c IH]; cbn [keys map fst In]; [intros _ []|].
  fold (keys c). intros Hnd Hin. apply NoDup_cons in Hnd as [Hk Hnd].
  unfold cache_delete in *. cbn [List.filter fst].
  destruct (String.eqb k' k) eqn:E; cbn [negb List.length].
  - apply String.eqb_eq in E. subst k'.
    fold (cache_delete c k). rewrite delete_absent; [reflexivity|].
    intros H. apply Hk, list_elem_of_In, H.
  - apply String.eqb_neq in E. destruct Hin as [Hin|Hin]; [congruence|].
    rewrite (IH Hnd Hin). reflexivity.
Qed.

Lemma delete_all (rm : QueryCache) :
  forall c, NoDup (keys c) -> NoDup (keys rm) ->
    (forall k, In k (keys rm) -> In k (keys c)) ->
    List.length (fold_left (fun acc kv => cache_delete acc kv.1) rm c) + List.length rm
      = List.length c /\
    NoDup (keys (fold_left (fun acc kv => cache_delete acc kv.1) rm c)).
Proof.
  induction rm as [|[k v] rm IH]; intros c Hc Hrm Hsub; cbn [fold_left List.length fst].
  - split; [lia|exact Hc].
  - cbn [keys map fst] in Hrm, Hsub. fold (keys rm) in *.
    apply NoDup_cons in Hrm as [Hk Hrm].
    pose proof (delete_present c k Hc (Hsub k (or_introl eq_refl))) as Hlen.
    destruct (IH (cache_delete c k)) as [Hl Hn].
    + apply keys_filter_NoDup, Hc.
    + exact Hrm.
    + intros k0 Hk0. pose proof (Hsub k0 (or_intror Hk0)) as Hin.
      assert (Hne : k0 <> k).
      { intros ->. apply Hk, list_elem_of_In, Hk0. }
      unfold keys in Hin |- *. apply in_map_iff in Hin as ([k1 v1] & Hk1 & Hx).
      cbn [fst] in Hk1. subst k1.
      apply in_map_iff. exists (k0, v1). split; [reflexivity|].
      apply filter_In. split; [exact Hx|]. cbn [fst].
      apply negb_true_iff, String.eqb_neq, Hne.
    + split; [lia|exact Hn].
Qed.

Lemma firstn_keys_NoDup (n : nat) (c : QueryCache) :
  NoDup (keys c) -> NoDup (keys (firstn n c)).
Proof.
  revert n. induction c as [|[k v] c IH]; intros [|n] H; cbn [firstn keys map];
    try apply NoDup_nil_2.
  cbn [keys map fst] in H. apply NoDup_cons in H as [Hk Hc]. fold (keys c) in *.
  fold (keys (firstn n c)). apply NoDup_cons. split; [|apply IH, Hc].
  intros Hin. apply Hk. apply list_elem_of_In in Hin. apply list_elem_of_In.
  unfold keys in *. apply in_map_iff in Hin as (x & Hx1 & Hx).
  cbn [fst] in Hx1. rewrite <- Hx1. apply in_map. eapply firstn_incl, Hx.
Qed.

Lemma clean_bounded (now : Z) (c : QueryCache) :
  NoDup (keys c) ->
  List.length (cleanExpiredCache now c) <= CACHE_MAX_SIZE /\
  NoDup (keys (cleanExpiredCache now c)).
Proof.
  intros Hc. unfold cleanExpiredCache.
  set (c1 := List.filter _ c).
  assert (H1 : NoDup (keys c1)) by (apply keys_filter_NoDup, Hc).
  destruct (CACHE_MAX_SIZE <? List.length c1)%nat eqn:E.
  - apply Nat.ltb_lt in E.
    set (rm := firstn (List.length c1 - CACHE_MAX_SIZE) (sortByAge c1)).
    assert (Hs : NoDup (keys (sortByAge c1))).
    { unfold keys. rewrite sortByAge_perm. exact H1. }
    destruct (delete_all rm c1 H1) as [Hl Hn].
    + apply firstn_keys_NoDup, Hs.
    + intros k Hk. unfold keys, rm in *. apply in_map_iff in Hk as (x & <- & Hx).
      apply in_map. apply firstn_incl in Hx.
      eapply Permutation_in; [apply sortByAge_perm|exact Hx].
    + split; [|exact Hn].
      assert (Hr : List.length rm = List.length c1 - CACHE_MAX_SIZE).
      { unfold rm. rewrite length_firstn.
        rewrite (Permutation_length (sortByAge_perm c1)). lia. }
      lia.
  - apply Nat.ltb_ge in E. split; [exact E|exact H1].
Qed.

Lemma cache_get_filter_None (p : string * CacheEntry -> bool) (c : QueryCache) k :
  cache_get c k = None -> cache_get (List.filter p c) k = None.
Proof.
  induction c as [|[k' v] c IH]; cbn [cache_get List.filter]; [reflexivity|].
  destruct (String.eqb k' k) eqn:E; [discriminate|]. intros H.
  destruct (p (k', v)); cbn [cache_get]; rewrite ?E; exact (IH H).
Qed.

Lemma fold_delete_None (rm : QueryCache) k :
  forall c, cache_get c k = None ->
    cache_get (fold_left (fun acc kv => cache_delete acc kv.1) rm c) k = None.
Proof.
  induction rm as [|kv rm IH]; intros c H; cbn [fold_left]; [exact H|].
  apply IH. unfold cache_delete. apply cache_get_filter_None, H.
Qed.

Lemma fold_delete_gone (rm : QueryCache) k :
  In k (keys rm) ->
  forall c, cache_get (fold_left (fun acc kv => cache_delete acc kv.1) rm c) k = None.
Proof.
  induction rm as [|[k0 v0] rm IH]; cbn [keys map fst In]; [intros []|].
  fold (keys rm). intros Hin c. cbn [fold_left fst].
  destruct (String.string_dec k0 k) as [->|Hne].
  - apply fold_delete_None, cache_get_delete.
  - destruct Hin as [Hin|Hin]; [congruence|]. apply IH, Hin.
Qed.

Lemma fold_delete_In (rm : QueryCache) x :
  forall c, In x (fold_left (fun acc kv => cache_delete acc kv.1) rm c) -> In x c.
Proof.
  induction rm as [|kv rm IH]; intros c H; cbn [fold_left] in H; [exact H|].
  apply IH in H. unfold cache_delete in H. apply filter_In in H as [H _]. exact H.
Qed.

(** What the cleaning leaves, and what it takes. *)
Lemma clean_spec (now : Z) (c : QueryCache) :
  NoDup (keys c) ->
  (forall k v, cache_get (cleanExpiredCache now c) k = Some v ->
     cache_get c k = Some v /\ (now - cachedAt v <= CACHE_MAX_AGE_MS)%Z) /\
  (forall k v k' v',
     cache_get c k = Some v -> (now - cachedAt v <= CACHE_MAX_AGE_MS)%Z ->
     cache_get (cleanExpiredCache now c) k = None ->
     cache_get (cleanExpiredCache now c) k' = Some v' ->
     (cachedAt v <= cachedAt v')%Z).
Proof.
  intros Hnd. unfold cleanExpiredCache. fold (fresh now).
  set (c1 := List.filter (fresh now) c).
  assert (Hnd1 : NoDup (keys c1)) by (apply keys_filter_NoDup, Hnd).
  assert (Hin1 : forall k v, In (k, v) c1 ->
            cache_get c k = Some v /\ (now - cachedAt v <= CACHE_MAX_AGE_MS)%Z).
  { intros k v H. apply filter_In in H as [Hc Hf]. split; [apply In_cache_get; assumption|].
    unfold fresh in Hf. cbn [snd] in Hf. apply negb_true_iff, Z.ltb_ge in Hf. exact Hf. }
  destruct (CACHE_MAX_SIZE <? List.length c1)%nat eqn:Eover.
  - set (r := List.length c1 - CACHE_MAX_SIZE). set (s := sortByAge c1).
    assert (Hs : Permutation s c1) by apply sortByAge_perm.
    split.
    + intros k v H. apply cache_get_In, fold_delete_In in H. exact (Hin1 k v H).
    + intros k v k' v' Hget Hage Hgone Hkept.
      assert (Hkv : In (k, v) c1).
      { apply filter_In. split; [apply cache_get_In, Hget|].
        unfold fresh. cbn [snd]. apply negb_true_iff, Z.ltb_ge, Hage. }
      destruct (in_dec String.string_dec k (keys (firstn r s))) as [Hk|Hk].
      * unfold keys in Hk. apply in_map_iff in Hk as ([k0 v0] & Hk0 & Hrm).
        cbn [fst] in Hk0. subst k0.
        assert (v0 = v).
        { pose proof (Permutation_in _ Hs (firstn_incl _ _ _ Hrm)) as H0.
          pose proof (In_cache_get _ _ _ Hnd1 H0). pose proof (In_cache_get _ _ _ Hnd1 Hkv).
          congruence. }
        subst v0.
        assert (Hk' : In (k', v') (skipn r s)).
        { pose proof (cache_get_In _ _ _ Hkept) as H1. apply fold_delete_In in H1.
          apply (Permutation_in _ (Permutation_sym Hs)) in H1.
          rewrite <- (firstn_skipn r s) in H1. apply in_app_or in H1 as [H1|H1]; [|exact H1].
          rewrite (fold_delete_gone (firstn r s) k') in Hkept; [discriminate Hkept|].
          apply (In_keys _ _ _ H1). }
        destruct (in_split _ _ Hrm) as (u1 & u2 & Hu).
        pose proof (sortByAge_inOrder c1) as Hord. fold s in Hord.
        rewrite <- (firstn_skipn r s), Hu, <- List.app_assoc in Hord.
        cbn [app] in Hord.
        pose proof (inOrder_split _ _ _ _ Hord (k', v')
                      ltac:(apply in_or_app; right; exact Hk')) as HR.
        exact (removedBefore_age _ _ _ HR).
      * rewrite fold_delete_other in Hgone.
        -- rewrite (In_cache_get _ _ _ Hnd1 Hkv) in Hgone. discriminate Hgone.
        -- intros [k0 v0] Hkv' Hk0. cbn [fst] in Hk0. subst k0.
           apply Hk. exact (In_keys _ _ _ Hkv').
  - split.
    + intros k v H. apply cache_get_In in H. exact (Hin1 k v H).
    + intros k v k' v' Hget Hage Hgone _. unfold c1 in Hgone.
      rewrite (cache_get_filter (fresh now) c k v Hget) in Hgone; [discriminate Hgone|].
      unfold fresh. cbn [snd]. apply negb_true_iff, Z.ltb_ge, Hage.
Qed.

(** The cleaning leaves a cache within its cap and takes the oldest:
    from a cache with distinct keys, as in a [Map], it leaves at most a
    hundred entries, with distinct keys, all of them entries of the
    cache that have not expired; and an unexpired entry that it removes
    was stored no later than any entry that it keeps. *)
Theorem cleaning_keeps_the_newest (now : Z) (c : QueryCache) :
  NoDup (keys c) ->
  List.length (cleanExpiredCache now c) <= CACHE_MAX_SIZE /\
  NoDup (keys (cleanExpiredCache now c)) /\
  (forall k v, cache_get (cleanExpiredCache now c) k = Some v ->
     cache_get c k = Some v /\ (now - cachedAt v <= CACHE_MAX_AGE_MS)%Z) /\
  (forall k v k' v',
     cache_get c k = Some v -> (now - cachedAt v <= CACHE_MAX_AGE_MS)%Z ->
     cache_get (cleanExpiredCache now c) k = None ->
     cache_get (cleanExpiredCache now c) k' = Some v' ->
     (cachedAt v <= cachedAt v')%Z).
Proof.
  intros Hnd. destruct (clean_bounded now c Hnd) as [Hlen Hkeys].
  destruct (clean_spec now c Hnd) as [Hkept Htaken]. auto.
Qed.

Lemma cleaning_keeps_the_newest_witness :
  List.length (cleanExpiredCache 2000 overCap) <= CACHE_MAX_SIZE /\
  NoDup (keys (cleanExpiredCache 2000 overCap)) /\
  (forall k v, cache_get (cleanExpiredCache 2000 overCap) k = Some v ->
     cache_get overCap k = Some v /\ (2000 - cachedAt v <= CACHE_MAX_AGE_MS)%Z) /\
  (forall k v k' v',
     cache_get overCap k = Some v -> (2000 - cachedAt v <= CACHE_MAX_AGE_MS)%Z ->
     cache_get (cleanExpiredCache 2000 overCap) k = None ->
     cache_get (cleanExpiredCache 2000 overCap) k' = Some v' ->
     (cachedAt v <= cachedAt v')%Z).
Proof.
  apply (cleaning_keeps_the_newest 2000 overCap).
  refine (bool_decide_unpack _ _). vm_compute. exact I.
Defined.

(** The statement stored last outlives the cleaning of the full cache,
    and the first of the hundred older ones is the one removed. *)
Example newest_entry_survives :
  List.length (cleanExpiredCache 2000 overCap) = 100 /\
  cache_get (cleanExpiredCache 2000 overCap) "SELECT 0" = Some (entryOf oneRow 1000) /\
  cache_get (cleanExpiredCache 2000 overCap) "SELECT 1" = None /\
  cache_get (cleanExpiredCache 2000 overCap) "SELECT 2" = Some (entryOf oneRow 0).
Proof. vm_compute. repeat split. Qed.

End CacheBounds.

(** ** The alias indexes and the entity cache *)

Module IndexFacts.
Import Store.

(** Every alias the reverse index knows is listed under its canonical name. *)
Definition listed (ix : AliasIndexes) : Prop :=
  forall a c, ix.2 !! a = Some c -> exists arr, ix.1 !! c = Some arr /\ In a arr.

Lemma setReverse_lookup canonical (arr : list string) :
  forall rev a,
    setReverse canonical rev arr !! a
    = if existsb (String.eqb a) arr then Some canonical else rev !! a.
Proof.
  unfold setReverse. induction arr as [|x arr IH]; intros rev a; cbn [fold_left existsb].
  - reflexivity.
  - rewrite IH. destruct (existsb (String.eqb a) arr); [rewrite orb_true_r; reflexivity|].
    rewrite orb_false_r. destruct (String.eqb a x) eqn:E.
    + apply String.eqb_eq in E. subst x. apply lookup_insert_eq.
    + apply String.eqb_neq in E. apply lookup_insert_ne. congruence.
Qed.

Lemma existsb_eqb_In a (arr : list string) : existsb (String.eqb a) arr = true <-> In a arr.
Proof.
  rewrite existsb_exists. split.
  - intros (x & Hx & E). apply String.eqb_eq in E. subst x. exact Hx.
  - intros H. exists a. split; [exact H|apply String.eqb_refl].
Qed.

Lemma addAliases_listed ix canonical aliases :
  listed ix -> listed (addAliases ix canonical aliases).
Proof.
  intros H. destruct aliases as [[|x al]|]; cbn [addAliases]; try exact H.
  set (new := x :: al). intros a c. cbn [fst snd]. rewrite setReverse_lookup.
  destruct (existsb (String.eqb a) new) eqn:E.
  - intros [= <-]. rewrite lookup_insert_eq. eexists. split; [reflexivity|].
    apply in_or_app. right. apply existsb_eqb_In, E.
  - intros Hr. destruct (H a c Hr) as (arr & Hf & Hin).
    destruct (decide (canonical = c)) as [->|Hne].
    + rewrite lookup_insert_eq. eexists. split; [reflexivity|].
      rewrite Hf. cbn [default]. apply in_or_app. left. exact Hin.
    + rewrite lookup_insert_ne by exact Hne. eauto.
Qed.

Lemma fold_addAliases_listed {T} (nm : T -> string) (al : T -> option (list string)) l :
  forall ix, listed ix -> listed (fold_left (fun ix x => addAliases ix (nm x) (al x)) l ix).
Proof.
  induction l as [|x l IH]; intros ix H; cbn [fold_left]; [exact H|].
  apply IH, addAliases_listed, H.
Qed.

Lemma entries_listed (l : list (string * list string)) :
  forall ix, listed ix -> NoDup (map fst l) ->
    (forall c, In c (map fst l) -> ix.1 !! c = None) ->
    listed (fold_left (fun (ix : AliasIndexes) '(canonical, arr) =>
                         (<[canonical := arr]> ix.1, setReverse canonical ix.2 arr)) l ix).
Proof.
  induction l as [|[c0 arr0] l IH]; intros ix H Hnd Hfresh; cbn [fold_left]; [exact H|].
  cbn [map fst] in Hnd, Hfresh. apply NoDup_cons in Hnd as [Hc0 Hnd].
  apply IH; [|exact Hnd|].
  - intros a c. cbn [fst snd]. rewrite setReverse_lookup.
    destruct (existsb (String.eqb a) arr0) eqn:E.
    + intros [= <-]. rewrite lookup_insert_eq. eexists. split; [reflexivity|].
      apply existsb_eqb_In, E.
    + intros Hr. destruct (H a c Hr) as (arr & Hf & Hin).
      destruct (decide (c0 = c)) as [->|Hne].
      * rewrite (Hfresh c (or_introl eq_refl)) in Hf. discriminate Hf.
      * rewrite lookup_insert_ne by exact Hne. eauto.
  - intros c Hc. cbn [fst]. rewrite lookup_insert_ne.
    + apply Hfresh. right. exact Hc.
    + intros ->. apply Hc0, list_elem_of_In, Hc.
Qed.

Lemma buildAliasIndexes_listed (e : EntityYamlRaw) :
  NoDup (map fst (ensureArray (raw_aliases e))) -> listed (buildAliasIndexes e).
Proof.
  intros Hnd. unfold buildAliasIndexes.
  apply (fold_addAliases_listed mt_name mt_aliases).
  apply (fold_addAliases_listed ms_name ms_aliases).
  apply (fold_addAliases_listed dim_name dim_aliases).
  apply entries_listed; [|exact Hnd|].
  - intros a c H. cbn [snd] in H. rewrite lookup_empty in H. discriminate H.
  - intros c _. apply lookup_empty.
Qed.

(** An alias, once in the reverse index, never leaves it. *)
Lemma addAliases_keeps ix canonical aliases a :
  is_Some (ix.2 !! a) -> is_Some ((addAliases ix canonical aliases).2 !! a).
Proof.
  intros H. destruct aliases as [[|x al]|]; cbn [addAliases]; try exact H.
  cbn [snd]. rewrite setReverse_lookup. destruct (existsb _ _); [eauto|exact H].
Qed.

Lemma addAliases_adds ix canonical al a :
  In a al -> is_Some ((addAliases ix canonical (Some al)).2 !! a).
Proof.
  intros H. destruct al as [|x al]; [destruct H|]. cbn [addAliases snd].
  rewrite setReverse_lookup. rewrite (proj2 (existsb_eqb_In a (x :: al)) H). eauto.
Qed.

Lemma fold_addAliases_keeps {T} (nm : T -> string) (al : T -> option (list string)) l a :
  forall ix, is_Some (ix.2 !! a) ->
    is_Some ((fold_left (fun ix x => addAliases ix (nm x) (al x)) l ix).2 !! a).
Proof.
  induction l as [|x l IH]; intros ix H; cbn [fold_left]; [exact H|].
  apply IH, addAliases_keeps, H.
Qed.

Lemma fold_addAliases_adds {T} (nm : T -> string) (al : T -> option (list string)) l a x als :
  In x l -> al x = Some als -> In a als ->
  forall ix, is_Some ((fold_left (fun ix x => addAliases ix (nm x) (al x)) l ix).2 !! a).
Proof.
  induction l as [|y l IH]; intros Hx Hal Ha ix; [destruct Hx|].
  cbn [fold_left]. destruct Hx as [->|Hx].
  - apply fold_addAliases_keeps. rewrite Hal. apply addAliases_adds, Ha.
  - apply IH; assumption.
Qed.

(** The reverse alias index agrees with the forward one: whenever an
    alias resolves to a canonical name, that name has an alias list and
    the alias is on it. The entity-level aliases are the entries of an
    object, so their keys are distinct. *)
Theorem reverse_alias_is_listed (e : EntityYamlRaw) (a c : string) :
  NoDup (map fst (ensureArray (raw_aliases e))) ->
  (buildAliasIndexes e).2 !! a = Some c ->
  exists arr, (buildAliasIndexes e).1 !! c = Some arr /\ In a arr.
Proof. intros Hnd. apply (buildAliasIndexes_listed e Hnd). Qed.

(** Every alias declared on a dimension or on a metric resolves to some
    canonical name. *)
Theorem declared_alias_resolves (e : EntityYamlRaw) (a : string) :
  (exists d als, In d (ensureArray (raw_dimensions e)) /\
                 dim_aliases d = Some als /\ In a als) \/
  (exists m als, In m (ensureArray (raw_metrics e)) /\
                 mt_aliases m = Some als /\ In a als) ->
  is_Some ((buildAliasIndexes e).2 !! a).
Proof.
  unfold buildAliasIndexes. intros [(d & als & Hd & Hal & Ha)|(m & als & Hm & Hal & Ha)].
  - apply (fold_addAliases_keeps mt_name mt_aliases).
    apply (fold_addAliases_keeps ms_name ms_aliases).
    apply (fold_addAliases_adds dim_name dim_aliases _ a d als Hd Hal Ha).
  - apply (fold_addAliases_adds mt_name mt_aliases _ a m als Hm Hal Ha).
Qed.

Section Loader.
Variable Doc : Type.
Variable readFile : string -> option string.
Variable yamlLoad : string -> option Doc.
Variable safeParse : Doc -> option EntityYamlRaw.

Lemma load_caches (c : EntityCache) nm out c' :
  loadEntityYaml Doc readFile yamlLoad safeParse c nm = (Ok out, c') ->
  out.1.1 = nm /\ c' !! nm = Some (out.1.2, out.2).
Proof.
  unfold loadEntityYaml. intros H.
  repeat match type of H with
         | (match ?x with _ => _ end) = _ => destruct x eqn:?
         end; try discriminate H; injection H as <- <-; cbn [fst snd].
  - split; [reflexivity|]. destruct p; assumption.
  - split; [reflexivity|]. apply lookup_insert_eq.
Qed.
End Loader.

(** Once an entity has been loaded, every later load of that name
    returns the same text and the same entity and leaves the cache as it
    is, whatever has become of the file and whatever the parser would
    now say. *)
Theorem loaded_entity_is_served_from_cache
    Doc readFile yamlLoad safeParse (c : EntityCache) nm out c'
    Doc' readFile' yamlLoad' safeParse' :
  loadEntityYaml Doc readFile yamlLoad safeParse c nm = (Ok out, c') ->
  loadEntityYaml Doc' readFile' yamlLoad' safeParse' c' nm = (Ok out, c').
Proof.
  intros H. apply load_caches in H as [Hn Hc].
  unfold loadEntityYaml. rewrite Hc. cbn [fst snd].
  destruct out as [[n y] e]. cbn [fst snd] in Hn. subst n. reflexivity.
Qed.

(** Clearing one entity makes the next load of it go back to the file:
    the load behaves as on an empty cache, apart from the other entries
    that the cache keeps. *)
Theorem cleared_entity_is_read_again
    Doc readFile yamlLoad safeParse (c : EntityCache) nm :
  JS.nonEmpty nm = true ->
  (loadEntityYaml Doc readFile yamlLoad safeParse (clearEntityCache c (Some nm)) nm).1
  = (loadEntityYaml Doc readFile yamlLoad safeParse ∅ nm).1.
Proof.
  intros Hn. unfold clearEntityCache. rewrite Hn. unfold loadEntityYaml.
  rewrite lookup_delete_eq, lookup_empty.
  repeat match goal with
         | |- context [match ?x with _ => _ end] => destruct x eqn:?
         end; reflexivity.
Qed.

(** An entity with one entity-level alias and one alias on a dimension. *)
Definition planDim : DimensionRaw :=
  {| dim_name := "ACCOUNT_TIER"; dim_sql := "{CUBE}.ACCOUNT_TIER"; dim_type := TString;
     dim_aliases := Some ["plan"] |}.

Definition tiered : EntityYamlRaw :=
  {| raw_name := "accounts"; raw_table := "analytics.accounts";
     raw_grain := "one row per account";
     raw_aliases := Some [("ACCOUNT_TIER", ["tier"])];
     raw_dimensions := Some [planDim];
     raw_time_dimensions := None; raw_measures := None;
     raw_metrics := None; raw_joins := None |}.

Lemma reverse_alias_is_listed_witness :
  exists arr, (buildAliasIndexes tiered).1 !! "ACCOUNT_TIER" = Some arr /\ In "plan" arr.
Proof.
  apply (reverse_alias_is_listed tiered "plan" "ACCOUNT_TIER").
  - apply NoDup_singleton.
  - reflexivity.
Defined.

Lemma declared_alias_resolves_witness : is_Some ((buildAliasIndexes tiered).2 !! "plan").
Proof.
  apply (declared_alias_resolves tiered "plan").
  left. exists planDim, ["plan"]. split; [left; reflexivity|].
  split; [reflexivity|left; reflexivity].
Defined.

Definition noFile (_ : string) : option string := None.

Lemma loaded_entity_is_served_from_cache_witness :
  loadEntityYaml EntityYamlRaw noFile StoreFacts.parsed Some
    (<["accounts" := ("name: accounts", Fixtures.accounts)]> ∅) "accounts"
  = (Ok ("accounts", "name: accounts", Fixtures.accounts),
     <["accounts" := ("name: accounts", Fixtures.accounts)]> ∅).
Proof.
  apply (loaded_entity_is_served_from_cache
           EntityYamlRaw StoreFacts.oneFile StoreFacts.parsed Some ∅ "accounts"
           ("accounts", "name: accounts", Fixtures.accounts)
           (<["accounts" := ("name: accounts", Fixtures.accounts)]> ∅)
           EntityYamlRaw noFile StoreFacts.parsed Some).
  reflexivity.
Defined.

Lemma cleared_entity_is_read_again_witness :
  (loadEntityYaml EntityYamlRaw noFile StoreFacts.parsed Some
     (clearEntityCache (<["accounts" := ("name: accounts", Fixtures.accounts)]> ∅)
                       (Some "accounts")) "accounts").1
  = (loadEntityYaml EntityYamlRaw noFile StoreFacts.parsed Some ∅ "accounts").1.
Proof.
  apply (cleared_entity_is_read_again EntityYamlRaw noFile StoreFacts.parsed Some
           (<["accounts" := ("name: accounts", Fixtures.accounts)]> ∅) "accounts").
  reflexivity.
Defined.

End IndexFacts.

(** ** The schema allow-list *)

Module SchemaFacts.
Import JSText Security StringFacts.

(** [c] does not occur in [s]. *)
Fixpoint free (c : ascii) (s : string) : bool :=
  match s with
  | EmptyString => true
  | String a s' => negb (Ascii.eqb a c) && free c s'
  end.

Lemma split_not_nil c s : split c s <> [].
Proof.
  destruct s as [|a s]; cbn [split]; [discriminate|].
  destruct (Ascii.eqb a c); [discriminate|]. destruct (split c s); discriminate.
Qed.

Lemma split_free c w : free c w = true -> split c w = [w].
Proof.
  induction w as [|a w IH]; cbn [free split]; [reflexivity|].
  intros H. apply andb_true_iff in H as [Ha Hw]. apply negb_true_iff in Ha.
  rewrite Ha, (IH Hw). reflexivity.
Qed.

Lemma split_app c w rest :
  free c w = true -> split c (w +:+ String c rest) = w :: split c rest.
Proof.
  induction w as [|a w IH]; cbn [free]; intros H.
  - rewrite app_nil_l. cbn [split]. rewrite Ascii.eqb_refl. reflexivity.
  - apply andb_true_iff in H as [Ha Hw]. apply negb_true_iff in Ha.
    rewrite app_cons. cbn [split]. rewrite Ha, (IH Hw). reflexivity.
Qed.

Lemma split_parts_free c s : Forall (fun w => free c w = true) (split c s).
Proof.
  induction s as [|a s IH]; cbn [split].
  - constructor; [reflexivity|constructor].
  - destruct (Ascii.eqb a c) eqn:E.
    + constructor; [reflexivity|exact IH].
    + destruct (split c s) as [|w ws]; [constructor; [cbn [free]; rewrite E; reflexivity|constructor]|].
      apply Forall_cons in IH as [Hw Hws].
      constructor; [cbn [free]; rewrite E, Hw; reflexivity|exact Hws].
Qed.

Lemma split_join c s : JS.join (String c EmptyString) (split c s) = s.
Proof.
  unfold JS.join. induction s as [|a s IH]; cbn [split]; [reflexivity|].
  destruct (Ascii.eqb a c) eqn:E.
  - apply Ascii.eqb_eq in E. subst a.
    pose proof (split_not_nil c s) as Hn.
    destruct (split c s) as [|w ws] eqn:Es; [contradiction|].
    cbn [String.concat] in IH |- *. rewrite app_nil_l, app_cons, app_nil_l.
    f_equal. exact IH.
  - pose proof (split_not_nil c s) as Hn.
    destruct (split c s) as [|w ws] eqn:Es; [contradiction|].
    destruct ws as [|w' ws]; cbn [String.concat] in IH |- *.
    + rewrite IH. reflexivity.
    + rewrite app_cons. f_equal. exact IH.
Qed.

(** A table name is [schema.table] or [db.schema.table], no part holds a
    dot, and the schema is a non-empty member of the allow-list. *)
Definition schemaQualified (allowed : list string) (tbl : string) : Prop :=
  exists schema t,
    In schema allowed /\ schema <> EmptyString /\
    free "." schema = true /\ free "." t = true /\
    (tbl = schema +:+ "." +:+ t \/
     exists db, free "." db = true /\ tbl = db +:+ "." +:+ schema +:+ "." +:+ t).

Lemma nonEmpty_ne s : JS.nonEmpty s = true <-> s <> EmptyString.
Proof. destruct s; cbn [JS.nonEmpty]; split; congruence. Qed.

Lemma includes_In a (arr : list string) : existsb (String.eqb a) arr = true <-> In a arr.
Proof.
  rewrite existsb_exists. split.
  - intros (x & Hx & E). apply String.eqb_eq in E. subst x. exact Hx.
  - intros H. exists a. split; [exact H|apply String.eqb_refl].
Qed.

Lemma accepted_schema allowed schema :
  (if JS.nonEmpty schema then
     if existsb (String.eqb schema) allowed then true else false
   else false) = true
  <-> In schema allowed /\ schema <> EmptyString.
Proof.
  rewrite <- nonEmpty_ne, <- includes_In.
  destruct (JS.nonEmpty schema), (existsb _ _); intuition congruence.
Qed.

Lemma inspect_qualified allowed entity ent :
  inspect allowed (entity, ent) = [] <-> schemaQualified allowed (table ent).
Proof.
  unfold inspect, parseTableIdent, schemaQualified.
  pose proof (split_join "." (table ent)) as Hj.
  pose proof (split_parts_free "." (table ent)) as Hf.
  split.
  - destruct (split "." (table ent)) as [|a [|b [|c [|d l]]]]; cbn [ti_schema];
      try discriminate.
    + intros H. apply Forall_cons in Hf as [Ha Hf]. apply Forall_cons in Hf as [Hb _].
      exists a, b. unfold JS.join in Hj. cbn [String.concat] in Hj.
      destruct (JS.nonEmpty a) eqn:Ea; [|discriminate H].
      destruct (existsb (String.eqb a) allowed) eqn:Ex; [|discriminate H].
      repeat split; [apply includes_In, Ex|apply nonEmpty_ne, Ea|exact Ha|exact Hb|].
      left. symmetry. exact Hj.
    + intros H. apply Forall_cons in Hf as [Ha Hf]. apply Forall_cons in Hf as [Hb Hf].
      apply Forall_cons in Hf as [Hc _].
      exists b, c. unfold JS.join in Hj. cbn [String.concat] in Hj.
      destruct (JS.nonEmpty b) eqn:Eb; [|discriminate H].
      destruct (existsb (String.eqb b) allowed) eqn:Ex; [|discriminate H].
      repeat split; [apply includes_In, Ex|apply nonEmpty_ne, Eb|exact Hb|exact Hc|].
      right. exists a. split; [exact Ha|]. symmetry. exact Hj.
  - intros (schema & t & Hin & Hne & Hs & Ht & [Htbl|(db & Hdb & Htbl)]).
    + assert (Hsp : split "." (table ent) = [schema; t]).
      { rewrite Htbl. change ("." +:+ t) with (String "." t).
        rewrite (split_app _ _ _ Hs), (split_free _ _ Ht). reflexivity. }
      rewrite Hsp. cbn [ti_schema].
      rewrite (proj2 (nonEmpty_ne schema) Hne), (proj2 (includes_In schema allowed) Hin).
      reflexivity.
    + assert (Hsp : split "." (table ent) = [db; schema; t]).
      { rewrite Htbl. change ("." +:+ schema +:+ "." +:+ t) with (String "." (schema +:+ String "." t)).
        rewrite (split_app _ _ _ Hdb), (split_app _ _ _ Hs), (split_free _ _ Ht). reflexivity. }
      rewrite Hsp. cbn [ti_schema].
      rewrite (proj2 (nonEmpty_ne schema) Hne), (proj2 (includes_In schema allowed) Hin).
      reflexivity.
Qed.

Lemma flat_map_nil {A B} (f : A -> list B) (l : list A) :
  flat_map f l = [] <-> forall x, In x l -> f x = [].
Proof.
  induction l as [|y l IH]; cbn [flat_map In].
  - split; [intros _ x []|reflexivity].
  - split.
    + intros H. apply app_eq_nil in H as [Hy Hl]. intros x [<-|Hx]; [exact Hy|].
      apply IH; assumption.
    + intros H. rewrite (H y (or_introl eq_refl)). cbn [app]. apply IH.
      intros x Hx. apply H. right. exact Hx.
Qed.

Lemma verify_qualified (registry : Registry) (allowed : list string) :
  verifyAllowedTables registry allowed = Allowed
  <-> forall entity ent, In (entity, ent) registry -> schemaQualified allowed (table ent).
Proof.
  unfold verifyAllowedTables.
  transitivity (flat_map (inspect allowed) registry = []).
  - destruct (flat_map (inspect allowed) registry); split; congruence.
  - rewrite flat_map_nil. split.
    + intros H entity ent Hin. apply (inspect_qualified allowed entity ent), H, Hin.
    + intros H [entity ent] Hin. apply inspect_qualified, (H entity ent Hin).
Qed.

(** The allow-list check passes exactly when every table of the
    registry is written [schema.table] or [db.schema.table] with the
    schema a non-empty member of the allow-list: a bare table name, a
    name of four parts or more and a name with an empty schema part are
    all refused, and the comparison with the allow-list is exact. *)
Theorem allowed_tables_are_schema_qualified (registry : Registry) (allowed : list string) :
  verifyAllowedTables registry allowed = Allowed
  <-> forall entity ent, In (entity, ent) registry -> schemaQualified allowed (table ent).
Proof. apply verify_qualified. Qed.

(** Splitting at a character and joining with it gives the text back,
    so [parseTableIdent] loses nothing of a name of one to three parts. *)
Lemma parseTableIdent_parts ident :
  match parseTableIdent ident with
  | {| ti_db := Some a; ti_schema := Some b; ti_table := Some c |} =>
      ident = a +:+ "." +:+ b +:+ "." +:+ c
  | {| ti_db := None; ti_schema := Some a; ti_table := Some b |} => ident = a +:+ "." +:+ b
  | {| ti_db := None; ti_schema := None; ti_table := Some a |} => ident = a
  | _ => True
  end.
Proof.
  unfold parseTableIdent. pose proof (split_join "." ident) as Hj. unfold JS.join in Hj.
  destruct (split "." ident) as [|a [|b [|c [|d l]]]]; cbn [String.concat] in Hj;
    try exact I; symmetry; exact Hj.
Qed.

End SchemaFacts.

(** ** The semantic check *)

Module CheckFacts.
Import Macros SemanticCheck SchemaFacts.

Lemma someTime_find ent n :
  someTime ent n = match find_time (time_dimensions ent) n with Some _ => true | None => false end.
Proof.
  unfold someTime, find_time. induction (time_dimensions ent) as [|td l IH]; [reflexivity|].
  cbn [existsb List.find]. destruct (String.eqb (td_name td) n); [reflexivity|exact IH].
Qed.

(** On one entity the validator and the macro expander look a field up
    in the same places, in the same order. *)
Lemma fieldIn_resolves ent n :
  fieldIn ent n true true = true <-> is_Some (resolveCanonicalField ent n).
Proof.
  unfold fieldIn, resolveCanonicalField, Store.has. cbn [andb].
  rewrite !someTime_find.
  destruct (_dimIndex ent !! n); [split; eauto|].
  destruct (find_time (time_dimensions ent) n); [split; eauto|].
  destruct (_reverseAliasIndex ent !! n) as [canonical|];
    [|split; [discriminate|intros [x Hx]; discriminate Hx]].
  destruct (JS.nonEmpty canonical); [|split; [discriminate|intros [x Hx]; discriminate Hx]].
  rewrite someTime_find.
  destruct (_dimIndex ent !! canonical); [split; eauto|].
  destruct (find_time (time_dimensions ent) canonical); cbn [option_map];
    split; eauto; try discriminate; intros [x Hx]; discriminate Hx.
Qed.

Lemma registry_get_In (reg : Registry) e ent : registry_get reg e = Some ent -> In (e, ent) reg.
Proof.
  induction reg as [|[k v] reg IH]; cbn [registry_get]; [discriminate|].
  destruct (String.eqb k e) eqn:E.
  - apply String.eqb_eq in E. intros [= ->]. subst k. left. reflexivity.
  - intros H. right. exact (IH H).
Qed.

Lemma exists_resolves (reg : Registry) d :
  existsInAnyEntity reg d true true = true ->
  exists e ent f,
    In (e, ent) reg /\ is_Some (resolveCanonicalField ent f) /\
    ((JS.includes d "." = false /\ f = d) \/
     (exists rest, d = JS.join "." (e :: f :: rest) /\
                   free "." e = true /\ free "." f = true)).
Proof.
  unfold existsInAnyEntity. destruct (JS.includes d ".") eqn:Hd.
  - pose proof (split_join "." d) as Hj. pose proof (split_parts_free "." d) as Hf.
    destruct (JSText.split "." d) as [|e [|f rest]]; try discriminate.
    destruct (registry_get reg e) as [ent|] eqn:Hg; [|discriminate].
    intros H. exists e, ent, f.
    apply Forall_cons in Hf as [He Hf]. apply Forall_cons in Hf as [Hf _].
    repeat split; [exact (registry_get_In _ _ _ Hg)|apply fieldIn_resolves, H|].
    right. exists rest. repeat split; [symmetry; exact Hj|exact He|exact Hf].
  - intros H. apply existsb_exists in H as ([e ent] & Hin & H). cbn [snd] in H.
    exists e, ent, d. repeat split; [exact Hin|apply fieldIn_resolves, H|].
    left. split; reflexivity.
Qed.

Section Parts.
Variable allowed : list string.
Variable plan : FinalizedPlan.
Variable joinGraph : list PlanEdge.
Variable sql : string.
Variable registry : Registry.

Let policyPart : list issue :=
  match Security.verifyAllowedTables registry allowed with
  | Security.Allowed => []
  | Security.PolicyViolation vs => [PolicyIssue vs]
  end.
Let entityPart : list issue :=
  flat_map (fun e => if loaded registry e then [] else [EntityNotLoaded e])
           (selectedEntities plan).
Let joinPart : list issue :=
  flat_map (fun j =>
              (if loaded registry (pe_from j) then [] else [JoinFromMissing (pe_from j)])
              ++ (if loaded registry (pe_to j) then [] else [JoinToMissing (pe_to j)]))
           joinGraph.
Let dimensionPart : list issue :=
  flat_map (fun d => if existsInAnyEntity registry d true true then []
                     else [DimensionNotFound d])
           (i_dimensions (intent plan)).
Let metricPart : list issue :=
  flat_map (fun m => if metricOrMeasureExists registry m then [] else [MetricNotFound m])
           (i_metrics (intent plan)).

(** What a clean check has established, part by part. *)
Lemma ok_parts :
  ok (semanticCheck allowed plan joinGraph sql registry) = true ->
  policyPart = [] /\ entityPart = [] /\ joinPart = [] /\ dimensionPart = [] /\ metricPart = [].
Proof.
  unfold semanticCheck. cbn [ok].
  fold policyPart entityPart joinPart dimensionPart metricPart.
  destruct (policyPart ++ _) eqn:E; [|discriminate]. intros _.
  apply app_eq_nil in E as [H0 E]. apply app_eq_nil in E as [H1 E].
  apply app_eq_nil in E as [H2 E]. apply app_eq_nil in E as [H3 E].
  apply app_eq_nil in E as [H4 _]. auto.
Qed.

Lemma ok_dimension d :
  ok (semanticCheck allowed plan joinGraph sql registry) = true ->
  In d (i_dimensions (intent plan)) ->
  existsInAnyEntity registry d true true = true.
Proof.
  intros H Hd. apply ok_parts in H as (_ & _ & _ & H & _).
  unfold dimensionPart in H. rewrite flat_map_nil in H. specialize (H d Hd).
  destruct (existsInAnyEntity registry d true true); [reflexivity|discriminate H].
Qed.

Lemma ok_loaded :
  ok (semanticCheck allowed plan joinGraph sql registry) = true ->
  (forall e, In e (selectedEntities plan) -> is_Some (registry_get registry e)) /\
  (forall j, In j joinGraph ->
     is_Some (registry_get registry (pe_from j)) /\ is_Some (registry_get registry (pe_to j))) /\
  (forall entity ent, In (entity, ent) registry -> schemaQualified allowed (table ent)).
Proof.
  intros H. apply ok_parts in H as (H0 & H1 & H2 & _ & _).
  unfold entityPart in H1. unfold joinPart in H2. unfold policyPart in H0.
  rewrite flat_map_nil in H1. rewrite flat_map_nil in H2. repeat split.
  - intros e He. specialize (H1 e He). unfold loaded in H1.
    destruct (registry_get registry e); [eauto|discriminate H1].
  - specialize (H2 j H). apply app_eq_nil in H2 as [H2 _]. unfold loaded in H2.
    destruct (registry_get registry (pe_from j)); [eauto|discriminate H2].
  - specialize (H2 j H). apply app_eq_nil in H2 as [_ H2]. unfold loaded in H2.
    destruct (registry_get registry (pe_to j)); [eauto|discriminate H2].
  - apply verify_qualified.
    destruct (Security.verifyAllowedTables registry allowed); [reflexivity|discriminate H0].
Qed.

Lemma dimension_not_reported d :
  existsInAnyEntity registry d true true = true ->
  ~ In (DimensionNotFound d) (issues (semanticCheck allowed plan joinGraph sql registry)).
Proof.
  intros Hex. unfold semanticCheck. cbn [issues]. rewrite !in_app_iff.
  intros [H|[H|[H|[H|[H|H]]]]].
  - destruct (Security.verifyAllowedTables registry allowed); [destruct H|].
    destruct H as [H|[]]. discriminate H.
  - apply in_flat_map in H as (e & _ & H). destruct (loaded registry e); [destruct H|].
    destruct H as [H|[]]. discriminate H.
  - apply in_flat_map in H as (j & _ & H). apply in_app_iff in H as [H|H].
    + destruct (loaded registry (pe_from j)); [destruct H|]. destruct H as [H|[]]. discriminate H.
    + destruct (loaded registry (pe_to j)); [destruct H|]. destruct H as [H|[]]. discriminate H.
  - apply in_flat_map in H as (d' & _ & H).
    destruct (existsInAnyEntity registry d' true true) eqn:E; [destruct H|].
    destruct H as [H|[]]. injection H as ->. congruence.
  - apply in_flat_map in H as (m & _ & H).
    destruct (metricOrMeasureExists registry m); [destruct H|].
    destruct H as [H|[]]. discriminate H.
  - destruct (i_timeRange (intent plan)); [|destruct H].
    destruct (existsb _ registry); [destruct H|]. destruct H as [H|[]]. discriminate H.
Qed.
End Parts.

(** A plan that passes the semantic check names only dimensions that
    the macro expander can resolve: each one is a dimension, a time
    dimension or an alias of one in a loaded entity, in the entity it
    names when it is written [entity.field], in some entity otherwise. *)
Theorem checked_dimension_is_resolvable allowed plan joinGraph sql registry d :
  ok (semanticCheck allowed plan joinGraph sql registry) = true ->
  In d (i_dimensions (intent plan)) ->
  exists e ent f,
    In (e, ent) registry /\ is_Some (resolveCanonicalField ent f) /\
    ((JS.includes d "." = false /\ f = d) \/
     (exists rest, d = JS.join "." (e :: f :: rest) /\
                   free "." e = true /\ free "." f = true)).
Proof.
  intros H Hd. apply exists_resolves. exact (ok_dimension _ _ _ _ _ d H Hd).
Qed.

(** Conversely, a dimension written without a dot that the expander can
    resolve in some loaded entity is never reported as missing. *)
Theorem resolvable_dimension_is_accepted allowed plan joinGraph sql registry d e ent :
  JS.includes d "." = false ->
  In (e, ent) registry ->
  is_Some (resolveCanonicalField ent d) ->
  ~ In (DimensionNotFound d) (issues (semanticCheck allowed plan joinGraph sql registry)).
Proof.
  intros Hd Hin Hr. apply dimension_not_reported.
  unfold existsInAnyEntity. rewrite Hd. apply existsb_exists.
  exists (e, ent). split; [exact Hin|]. cbn [snd]. apply fieldIn_resolves, Hr.
Qed.

(** A plan that passes the semantic check has every selected entity and
    both ends of every join edge loaded, and every table of the registry
    lies in an allowed schema. *)
Theorem checked_plan_is_loaded_and_allowed allowed plan joinGraph sql registry :
  ok (semanticCheck allowed plan joinGraph sql registry) = true ->
  (forall e, In e (selectedEntities plan) -> is_Some (registry_get registry e)) /\
  (forall j, In j joinGraph ->
     is_Some (registry_get registry (pe_from j)) /\ is_Some (registry_get registry (pe_to j))) /\
  (forall entity ent, In (entity, ent) registry -> schemaQualified allowed (table ent)).
Proof. apply ok_loaded. Qed.

(** Tiers of accounts beside the identifier of their company. *)
Definition tiersByCompany : FinalizedPlan :=
  {| intent := {| i_metrics := ["count"]; i_dimensions := ["ACCOUNT_TIER"; "companies.id"];
                  i_filters := []; i_structuredFilters := []; i_timeRange := None |};
     selectedEntities := ["accounts"; "companies"] |}.

Definition toCompanies : list PlanEdge := [{| pe_from := "accounts"; pe_to := "companies" |}].

Lemma checked_dimension_is_resolvable_witness :
  exists e ent f,
    In (e, ent) Fixtures.registry /\ is_Some (resolveCanonicalField ent f) /\
    ((JS.includes "companies.id" "." = false /\ f = "companies.id") \/
     (exists rest, "companies.id" = JS.join "." (e :: f :: rest) /\
                   free "." e = true /\ free "." f = true)).
Proof.
  apply (checked_dimension_is_resolvable (Security.allowedSchemas None) tiersByCompany
           toCompanies "SELECT 1" Fixtures.registry "companies.id").
  - vm_compute. reflexivity.
  - right. left. reflexivity.
Defined.

Lemma resolvable_dimension_is_accepted_witness :
  ~ In (DimensionNotFound "ACCOUNT_TIER")
       (issues (semanticCheck [] tiersByCompany toCompanies "SELECT 1" Fixtures.registry)).
Proof.
  apply (resolvable_dimension_is_accepted [] tiersByCompany toCompanies "SELECT 1"
           Fixtures.registry "ACCOUNT_TIER" "accounts" Fixtures.accounts).
  - reflexivity.
  - left. reflexivity.
  - vm_compute. eauto.
Defined.

Lemma checked_plan_is_loaded_and_allowed_witness :
  (forall e, In e (selectedEntities tiersByCompany) ->
     is_Some (registry_get Fixtures.registry e)) /\
  (forall j, In j toCompanies ->
     is_Some (registry_get Fixtures.registry (pe_from j)) /\
     is_Some (registry_get Fixtures.registry (pe_to j))) /\
  (forall entity ent, In (entity, ent) Fixtures.registry ->
     schemaQualified (Security.allowedSchemas None) (table ent)).
Proof.
  apply (checked_plan_is_loaded_and_allowed (Security.allowedSchemas None) tiersByCompany
           toCompanies "SELECT 1" Fixtures.registry).
  vm_compute. reflexivity.
Defined.

End CheckFacts.

(** ** CSV export *)

Module CsvFacts.
Import Csv StringFacts.

Definition quote : ascii := ascii_of_nat 34.

(** [s.replace(/q/g, qq)] for the double quote [q]. *)
Definition doubled (s : string) : string :=
  JS.replaceChar quote (JS.dquote +:+ JS.dquote) s.

Lemma doubled_cons c s :
  doubled (String c s)
  = if Ascii.eqb c quote then String quote (String quote (doubled s))
    else String c (doubled s).
Proof.
  unfold doubled. cbn [JS.replaceChar]. destruct (Ascii.eqb c quote); [|reflexivity].
  change (JS.dquote +:+ JS.dquote) with (String quote (String quote EmptyString)).
  rewrite !app_cons, app_nil_l. reflexivity.
Qed.

Lemma doubled_inj a : forall b, doubled a = doubled b -> a = b.
Proof.
  induction a as [|x a IH]; intros [|y b]; rewrite ?doubled_cons.
  - reflexivity.
  - destruct (Ascii.eqb y quote); discriminate.
  - destruct (Ascii.eqb x quote); discriminate.
  - destruct (Ascii.eqb x quote) eqn:Ex, (Ascii.eqb y quote) eqn:Ey; intros H.
    + apply Ascii.eqb_eq in Ex, Ey. subst x y. injection H as H. rewrite (IH b H). reflexivity.
    + injection H as Hq _. subst y. rewrite Ascii.eqb_refl in Ey. discriminate Ey.
    + injection H as Hq _. subst x. rewrite Ascii.eqb_refl in Ex. discriminate Ex.
    + injection H as -> H. rewrite (IH b H). reflexivity.
Qed.

Lemma app_tail_inj c a : forall b,
  a +:+ String c EmptyString = b +:+ String c EmptyString -> a = b.
Proof.
  induction a as [|x a IH]; intros [|y b]; rewrite ?app_cons, ?app_nil_l.
  - reflexivity.
  - intros H. injection H as _ H. destruct b; rewrite ?app_cons, ?app_nil_l in H; discriminate H.
  - intros H. injection H as _ H. destruct a; rewrite ?app_cons, ?app_nil_l in H; discriminate H.
  - intros H. injection H as -> H. rewrite (IH b H). reflexivity.
Qed.

Lemma escape_quoted s :
  needsQuote s = true ->
  csvEscape (Some (VStr s)) = String quote (doubled s +:+ String quote EmptyString).
Proof.
  intros H. cbn [csvEscape]. rewrite H. fold (doubled s).
  change JS.dquote with (String quote EmptyString).
  rewrite ?app_assoc, app_cons, app_nil_l. reflexivity.
Qed.

Lemma escape_plain s : needsQuote s = false -> csvEscape (Some (VStr s)) = s.
Proof. intros H. cbn [csvEscape]. rewrite H. reflexivity. Qed.

Lemma escape_inj a b : csvEscape (Some (VStr a)) = csvEscape (Some (VStr b)) -> a = b.
Proof.
  destruct (needsQuote a) eqn:Ha, (needsQuote b) eqn:Hb.
  - rewrite (escape_quoted a Ha), (escape_quoted b Hb). intros H. injection H as H.
    apply doubled_inj, (app_tail_inj quote), H.
  - rewrite (escape_quoted a Ha), (escape_plain b Hb). intros <-.
    cbn [needsQuote] in Hb. discriminate Hb.
  - rewrite (escape_plain a Ha), (escape_quoted b Hb). intros ->.
    cbn [needsQuote] in Ha. discriminate Ha.
  - rewrite (escape_plain a Ha), (escape_plain b Hb). auto.
Qed.

(** Escaping loses no text: two different strings never give the same
    CSV field. *)
Theorem csvEscape_keeps_texts_apart (a b : string) :
  a <> b -> csvEscape (Some (VStr a)) <> csvEscape (Some (VStr b)).
Proof. intros Hne H. apply Hne, escape_inj, H. Qed.

Lemma csvEscape_keeps_texts_apart_witness :
  csvEscape (Some (VStr "a,b")) <> csvEscape (Some (VStr "a")).
Proof. apply (csvEscape_keeps_texts_apart "a,b" "a"). discriminate. Defined.

(** *** Quotes *)

Fixpoint quoteCount (s : string) : nat :=
  match s with
  | EmptyString => 0
  | String c s' => (if Ascii.eqb c quote then 1 else 0) + quoteCount s'
  end.

Lemma quoteCount_app a b : quoteCount (a +:+ b) = quoteCount a + quoteCount b.
Proof.
  induction a as [|x a IH]; rewrite ?app_nil_l, ?app_cons; [reflexivity|].
  cbn [quoteCount]. rewrite IH. lia.
Qed.

Lemma quoteCount_doubled s : quoteCount (doubled s) = 2 * quoteCount s.
Proof.
  induction s as [|x s IH]; [reflexivity|]. rewrite doubled_cons.
  destruct (Ascii.eqb x quote) eqn:E; cbn [quoteCount]; rewrite ?E, ?Ascii.eqb_refl, IH; lia.
Qed.

Lemma quoteCount_plain s : needsQuote s = false -> quoteCount s = 0.
Proof.
  induction s as [|x s IH]; [reflexivity|]. cbn [needsQuote quoteCount]. intros H.
  apply orb_false_iff in H as [Hx Hs]. unfold isSpecial in Hx.
  apply orb_false_iff in Hx as [Hx _]. apply orb_false_iff in Hx as [Hx _].
  fold quote in Hx. rewrite Hx, (IH Hs). reflexivity.
Qed.

Lemma quoteCount_digits d : quoteCount (NilEmpty.string_of_uint d) = 0.
Proof. induction d; cbn [NilEmpty.string_of_uint quoteCount]; auto. Qed.

Lemma quoteCount_ofZ n : quoteCount (JS.ofZ n) = 0.
Proof.
  unfold JS.ofZ, NilZero.string_of_int, NilZero.string_of_uint.
  destruct (Z.to_int n) as [d|d]; destruct d; cbn [quoteCount]; rewrite ?quoteCount_digits;
    try reflexivity;
    match goal with
    | |- context [NilEmpty.string_of_uint ?u] => exact (quoteCount_digits u)
    end.
Qed.

Definition balanced (s : string) : Prop := exists n, quoteCount s = 2 * n.

Lemma escape_balanced v : balanced (csvEscape v).
Proof.
  destruct v as [[s|n|[|]]|]; try (exists 0; reflexivity).
  - destruct (needsQuote s) eqn:H.
    + rewrite (escape_quoted s H). exists (S (quoteCount s)).
      cbn [quoteCount]. rewrite Ascii.eqb_refl, quoteCount_app, quoteCount_doubled.
      cbn [quoteCount]. rewrite Ascii.eqb_refl. lia.
    + rewrite (escape_plain s H). exists 0. apply quoteCount_plain, H.
  - exists 0. apply quoteCount_ofZ.
Qed.

Lemma join_balanced sep l :
  quoteCount sep = 0 -> Forall balanced l -> balanced (JS.join sep l).
Proof.
  intros Hsep. unfold JS.join. induction l as [|x l IH]; intros H.
  - exists 0. reflexivity.
  - apply Forall_cons in H as [[n Hx] Hl]. destruct l as [|y l].
    + exists n. exact Hx.
    + destruct (IH Hl) as [m Hm]. exists (n + m).
      change (String.concat sep (x :: y :: l)) with (x +:+ sep +:+ String.concat sep (y :: l)).
      rewrite !quoteCount_app, Hsep, Hx, Hm. lia.
Qed.

Lemma fields_balanced {A} (f : A -> option value) (l : list A) :
  balanced (JS.join "," (map (fun h => csvEscape (f h)) l)).
Proof.
  apply join_balanced; [reflexivity|]. apply Forall_forall. intros x Hx.
  apply list_elem_of_In, in_map_iff in Hx as (h & <- & _). apply escape_balanced.
Qed.

(** The exported text closes every quote it opens: whatever the cells
    hold, the number of double quotes in it is even. *)
Theorem csv_text_balances_its_quotes rows columns maxRows :
  exists n, quoteCount (csvText rows columns maxRows) = 2 * n.
Proof.
  unfold csvText. apply join_balanced; [reflexivity|]. constructor.
  - apply (fields_balanced (fun h => Some (VStr h))).
  - apply Forall_forall. intros x Hx.
    apply list_elem_of_In, in_map_iff in Hx as (r & <- & _).
    apply (fields_balanced (cell r)).
Qed.

(** The preview is the first rows of the input, thirty at most, whatever
    the row limit asked for. *)
Theorem preview_is_a_short_prefix base64 rows columns maxRows :
  exists k, k <= 30 /\ preview (toCSV base64 rows columns maxRows) = firstn k rows.
Proof.
  unfold toCSV. cbn [preview]. unfold limitedRows, JSText.slice0.
  set (m := Z.min (default 1000%Z maxRows) 1000).
  set (limited := if (m <? 0)%Z then _ else _).
  assert (Hl : exists j, limited = firstn j rows).
  { unfold limited. destruct (m <? 0)%Z; eauto. }
  destruct Hl as [j Hj].
  destruct (Z.min 30 (Z.of_nat (List.length limited)) <? 0)%Z eqn:E; [apply Z.ltb_lt in E; lia|].
  exists (Nat.min (Z.to_nat (Z.min 30 (Z.of_nat (List.length limited)))) j).
  split; [lia|]. rewrite Hj at 2. apply firstn_firstn.
Qed.

End CsvFacts.

(** ** Classifying driver errors *)

Module ErrorFacts.
Import JSText Errors StringFacts.

Lemma includes_i_nil_prefix b s : JS.prefix_i b s = true -> includes_i s b = true.
Proof. intros H. destruct s; cbn [includes_i]; rewrite H; reflexivity. Qed.

Lemma prefix_i_tail a b : forall s, JS.prefix_i (a +:+ b) s = true -> includes_i s b = true.
Proof.
  induction a as [|x a IH]; intros s; rewrite ?app_nil_l, ?app_cons.
  - apply includes_i_nil_prefix.
  - destruct s as [|y s]; cbn [JS.prefix_i]; [discriminate|].
    intros H. apply andb_true_iff in H as [_ H].
    cbn [includes_i]. rewrite (IH s H). apply orb_true_r.
Qed.

Lemma includes_i_tail a b s : includes_i s (a +:+ b) = true -> includes_i s b = true.
Proof.
  induction s as [|y s IH]; cbn [includes_i]; intros H.
  - apply orb_true_iff in H as [H|H]; [|discriminate H].
    apply prefix_i_tail in H. exact H.
  - apply orb_true_iff in H as [H|H].
    + apply prefix_i_tail in H. exact H.
    + change (includes_i (String y s) b) with (JS.prefix_i b (String y s) || includes_i s b).
      rewrite (IH H). apply orb_true_r.
Qed.

(** The second test of [isTimeout] never decides: a message is a timeout
    exactly when it holds the word, in any case, and the test for the
    longer phrase is only reached by messages that cannot pass it. *)
Theorem timeout_is_decided_by_the_first_test (msg : string) :
  isTimeout msg = if includes_i msg "timeout" then Some msg else None.
Proof.
  unfold isTimeout. destruct (includes_i msg "timeout") eqn:E; [reflexivity|].
  destruct (includes_i msg "Statement timeout") eqn:E2; [|reflexivity].
  apply (includes_i_tail "Statement " "timeout") in E2. congruence.
Qed.

End ErrorFacts.
